(** * Velocity-Verlet integrator with Nose-Hoover chains: model and properties

    Shallow embedding of the orchestration code of the integrator:
    - [VVIntegrator::propagateNHChain], [addImagePair], [initialize] and
      [step] of [openmmapi/src/VVIntegrator.cpp];
    - the degree-of-freedom accounting and the chain set-up of
      [CudaModifyDrudeNoseKernel::initialize] of
      [platforms/cuda/src/CudaVVKernels.cpp].

    Conventions.
    - A C++ [int] is a [Z].  Particle and residue numbers stay far from the
      bounds of [int]; the one conversion the code makes from [size_t] to
      [int] (the value [addImagePair] returns) is written out ([to_int]).
      Loop counters over [0 .. n-1] that index a chain are [nat]s from
      [seq]; those over particles are [Z]s from [seqZ].
    - A [std::vector] is a [list]; [v[i]] is the total lookup [v !!! i] and
      [v[i] = x] is [<[i:=x]> v].  An index out of range is undefined
      behaviour in the source; the model reads the default element and
      leaves the vector alone there.  Accesses the source checks
      ([ASSERT_VALID_INDEX]) throw.
    - An exception is a value: a member function of the integrator returns
      the exception or its result, together with the integrator as the
      call left it.
    - The chain propagator is written over an abstract arithmetic
      ([DoubleOps]), so its structural properties hold for every arithmetic,
      the machine's included.  Algebraic properties are proved at the real
      numbers ([R_DoubleOps]), where a [double] is a real and [exp] is the
      real exponential; rounding, overflow and NaN are outside that model.
      Dividing by zero has no real value (the machine delivers an infinity
      or a NaN and goes on): the propagator therefore records every chain
      mass it divides by. *)

From Stdlib Require Import Reals Lra ZArith String Sorted.
From stdpp Require Import base list.

(** ** Arithmetic of [double] *)

Class DoubleOps (D : Type) := {
  d_of_Z : Z -> D;            (* literals and the conversion int -> double *)
  dadd : D -> D -> D;
  dsub : D -> D -> D;
  dmul : D -> D -> D;
  ddiv : D -> D -> D;
  dneg : D -> D;
  dexp : D -> D;              (* exp of <cmath> *)
  dgt : D -> D -> bool        (* a > b *)
}.

(** The value the model reads at an index that is out of range. *)
#[export] Instance double_inhabited {D : Type} `{DoubleOps D} : Inhabited D :=
  populate (d_of_Z 0).

Declare Scope double_scope.
Delimit Scope double_scope with D.
Infix "+" := dadd : double_scope.
Infix "-" := dsub : double_scope.
Infix "*" := dmul : double_scope.
Infix "/" := ddiv : double_scope.
Notation "- x" := (dneg x) : double_scope.

Definition Rgtb (a b : R) : bool := if Rgt_dec a b then true else false.

#[export] Instance R_DoubleOps : DoubleOps R := {
  d_of_Z := IZR;
  dadd := Rplus;
  dsub := Rminus;
  dmul := Rmult;
  ddiv := Rdiv;
  dneg := Ropp;
  dexp := exp;
  dgt := Rgtb
}.

(** ** The Nose-Hoover chain propagator *)

Module NHChain.
Section Propagate.

Context {D : Type} `{DoubleOps D}.

(** BOLTZ of [SimTKOpenMMRealType.h], a header outside this repository. *)
Variable BOLTZ : D.

(** What [propagateNHChain] reads and writes: the four vectors it receives
    by reference, the out-parameter [factor], its local [expfac], and the
    divisors of the divisions by a chain mass, oldest first.  [expfac] is
    declared without an initial value; it is read before it is written only
    when [numNHChains <= 0]. *)
Record frame := Frame {
  eta : list D;
  eta_dot : list D;
  eta_dotdot : list D;
  eta_mass : list D;
  factor : D;
  expfac : D;
  divisors : list D
}.

Definition stmt := frame -> frame.

Definition set_eta (i : nat) (x : D) : stmt := fun s =>
  Frame (<[i:=x]> (eta s)) (eta_dot s) (eta_dotdot s) (eta_mass s)
        (factor s) (expfac s) (divisors s).
Definition set_eta_dot (i : nat) (x : D) : stmt := fun s =>
  Frame (eta s) (<[i:=x]> (eta_dot s)) (eta_dotdot s) (eta_mass s)
        (factor s) (expfac s) (divisors s).
Definition set_eta_dotdot (i : nat) (x : D) : stmt := fun s =>
  Frame (eta s) (eta_dot s) (<[i:=x]> (eta_dotdot s)) (eta_mass s)
        (factor s) (expfac s) (divisors s).
Definition set_factor (x : D) : stmt := fun s =>
  Frame (eta s) (eta_dot s) (eta_dotdot s) (eta_mass s)
        x (expfac s) (divisors s).
Definition set_expfac (x : D) : stmt := fun s =>
  Frame (eta s) (eta_dot s) (eta_dotdot s) (eta_mass s)
        (factor s) x (divisors s).
(** A division by the chain mass [eta_mass[i]]: the divisor is recorded. *)
Definition div_mass (x : D) (i : nat) (s : frame) : D * frame :=
  ((x / (eta_mass s !!! i))%D,
   Frame (eta s) (eta_dot s) (eta_dotdot s) (eta_mass s)
         (factor s) (expfac s) (divisors s ++ [eta_mass s !!! i])).

Definition seq_stmt (a b : stmt) : stmt := fun s => b (a s).
Notation "a ;> b" := (seq_stmt a b) (at level 62, right associativity).
Definition skip : stmt := fun s => s.

(** [for (i in l) body(i)] *)
Definition for_each (l : list nat) (body : nat -> stmt) : stmt :=
  fun s => foldl (fun s i => body i s) s l.
(** [for (k = 0; k < n; k++) body] with a body that does not read [k] *)
Fixpoint repeat_stmt (n : nat) (body : stmt) : stmt :=
  match n with
  | O => skip
  | S n' => body ;> repeat_stmt n' body
  end.

(** [eta_dot[ich] *= expfac;] *)
Definition scale_eta_dot (ich : nat) : stmt := fun s =>
  set_eta_dot ich (eta_dot s !!! ich * expfac s)%D s.
(** [eta_dot[ich] += eta_dotdot[ich] * dt4;] *)
Definition kick_eta_dot (ich : nat) (dt4 : D) : stmt := fun s =>
  set_eta_dot ich (eta_dot s !!! ich + eta_dotdot s !!! ich * dt4)%D s.
(** [expfac = exp(-dt8 * eta_dot[ich + 1]);] *)
Definition load_expfac (ich : nat) (dt8 : D) : stmt := fun s =>
  set_expfac (dexp (- dt8 * eta_dot s !!! (ich + 1)%nat)%D) s.

(** Lines 285-290. *)
Definition inward_body (dt4 dt8 : D) (ich : nat) : stmt :=
  load_expfac ich dt8 ;> scale_eta_dot ich ;> kick_eta_dot ich dt4 ;>
  scale_eta_dot ich.

(** Line 291: [factor *= exp(-dt2 * eta_dot[0]);] *)
Definition scale_factor (dt2 : D) : stmt := fun s =>
  set_factor (factor s * dexp (- dt2 * eta_dot s !!! 0%nat))%D s.

(** Lines 293-294: [eta[ich] += dt2 * eta_dot[ich];] *)
Definition drift_eta (dt2 : D) (ich : nat) : stmt := fun s =>
  set_eta ich (eta s !!! ich + dt2 * eta_dot s !!! ich)%D s.

(** Line 296:
    [eta_dotdot[0] = (ke2 * factor * factor - ke2_target) / eta_mass[0];] *)
Definition recompute_acc0 (ke2 ke2_target : D) : stmt := fun s =>
  let '(q, s') := div_mass (ke2 * factor s * factor s - ke2_target)%D 0 s in
  set_eta_dotdot 0 q s'.

(** Lines 303-304:
    [eta_dotdot[ich] = (eta_mass[ich-1] * eta_dot[ich-1] * eta_dot[ich-1]
                        - BOLTZ * t_target) / eta_mass[ich];] *)
Definition recompute_acc (t_target : D) (ich : nat) : stmt := fun s =>
  let '(q, s') :=
    div_mass (eta_mass s !!! (ich - 1)%nat * eta_dot s !!! (ich - 1)%nat
                * eta_dot s !!! (ich - 1)%nat - BOLTZ * t_target)%D ich s in
  set_eta_dotdot ich q s'.

(** Lines 300-307. *)
Definition outward_body (dt4 dt8 t_target : D) (ich : nat) : stmt :=
  load_expfac ich dt8 ;> scale_eta_dot ich ;> recompute_acc t_target ich ;>
  kick_eta_dot ich dt4 ;> scale_eta_dot ich.

(** Lines 282-283:
    [if (eta_mass[0] > 0) eta_dotdot[0] = (ke2 - ke2_target) / eta_mass[0];] *)
Definition init_acc0 (ke2 ke2_target : D) : stmt := fun s =>
  if dgt (eta_mass s !!! 0%nat) (d_of_Z 0) then
    let '(q, s') := div_mass (ke2 - ke2_target)%D 0 s in
    set_eta_dotdot 0 q s'
  else s.

(** The body of the [iloop] loop, lines 285-307. *)
Definition sub_iteration (numNHChains : Z) (dt2 dt4 dt8 : D)
    (ke2 ke2_target t_target : D) : stmt :=
  let n := Z.to_nat numNHChains in
  for_each (reverse (seq 0 n)) (inward_body dt4 dt8) ;>
  scale_factor dt2 ;>
  for_each (seq 0 n) (drift_eta dt2) ;>
  recompute_acc0 ke2 ke2_target ;>
  scale_eta_dot 0 ;> kick_eta_dot 0 dt4 ;> scale_eta_dot 0 ;>
  for_each (seq 1 (n - 1)) (outward_body dt4 dt8 t_target).

(** [VVIntegrator::propagateNHChain], lines 272-309.  [stepSize],
    [loopsPerStep] and [numNHChains] are the integrator's fields. *)
Definition propagateNHChain (stepSize : D) (loopsPerStep numNHChains : Z)
    (ke2 ke2_target t_target : D) : stmt :=
  let dt2 := (stepSize / d_of_Z loopsPerStep / d_of_Z 2)%D in
  let dt4 := (dt2 / d_of_Z 2)%D in
  let dt8 := (dt4 / d_of_Z 2)%D in
  set_factor (d_of_Z 1) ;>
  init_acc0 ke2 ke2_target ;>
  repeat_stmt (Z.to_nat loopsPerStep)
    (sub_iteration numNHChains dt2 dt4 dt8 ke2 ke2_target t_target).

(** The caller's view: the vectors come in, [factor] and [expfac] start
    without a value (the model gives them [junk]), nothing was divided yet. *)
Definition enter (e ed edd em : list D) (junk : D) : frame :=
  Frame e ed edd em junk junk [].

(** *** Frame: what a call leaves alone

    [untouched n s s'] says that [s'] differs from [s] at most in the
    entries below [n] of [eta], [eta_dot] and [eta_dotdot], in [factor],
    [expfac] and the record of divisors. *)
Definition untouched (n : nat) (s s' : frame) : Prop :=
  eta_mass s' = eta_mass s /\
  length (eta s') = length (eta s) /\
  length (eta_dot s') = length (eta_dot s) /\
  length (eta_dotdot s') = length (eta_dotdot s) /\
  forall j, n <= j ->
    eta s' !! j = eta s !! j /\
    eta_dot s' !! j = eta_dot s !! j /\
    eta_dotdot s' !! j = eta_dotdot s !! j.

Definition keeps (n : nat) (c : stmt) : Prop := forall s, untouched n s (c s).

(** The sizes the kernel allocates for a chain of [n] links: [n] entries
    each, and one more [eta_dot] entry that ends the chain. *)
Definition sized (n : nat) (s : frame) : Prop :=
  length (eta s) = n /\ length (eta_dot s) = S n /\
  length (eta_dotdot s) = n /\ length (eta_mass s) = n.

(** [grows n s s']: the chain masses are the same, and the record of
    divisors was only added to, with masses of the links below [n]. *)
Definition grows (n : nat) (s s' : frame) : Prop :=
  eta_mass s' = eta_mass s /\
  exists rest,
    divisors s' = divisors s ++ rest /\
    Forall (fun d => exists i, i < n /\ d = eta_mass s !!! i) rest.

Definition records (n : nat) (c : stmt) : Prop := forall s, grows n s (c s).

End Propagate.

Notation "a ;> b" := (seq_stmt a b) (at level 62, right associativity).

End NHChain.

(** ** The reference sequence of the specification (section 4.3)

    Written from the words of the specification, over the reals, as
    functions on the chain variables; compared with [propagateNHChain]
    below. *)

Module Reference.

Record chain := Chain {
  ref_eta : list R;
  ref_etaDot : list R;
  ref_etaDotDot : list R;
  ref_scale : R
}.

Section Sequence.
Local Open Scope R_scope.

Variable kb : R.
Variable etaMass : list R.
Variable numNHChains : nat.
Variables dt2 dt4 dt8 : R.
Variables ke2 ke2_target targetTemperature : R.

(** [etaDot[ich] = (etaDot[ich]·expfac + etaDotDot[ich]·dt4)·expfac] *)
Definition half_kick (expfac acc v : R) : R := (v * expfac + acc * dt4) * expfac.

(** 1. For [ich] from [k-1] down to [0]. *)
Fixpoint inward (k : nat) (etaDot etaDotDot : list R) : list R :=
  match k with
  | O => etaDot
  | S ich =>
      let expfac := exp (- dt8 * etaDot !!! (ich + 1)%nat) in
      inward ich
        (<[ich := half_kick expfac (etaDotDot !!! ich) (etaDot !!! ich)]> etaDot)
        etaDotDot
  end.

(** 3. [eta[ich] += dt2 · etaDot[ich]] for every link. *)
Definition advance (eta etaDot : list R) : list R :=
  imap (fun ich x => x + dt2 * etaDot !!! ich) eta.

(** 5. Links [ich], [ich+1], ... ([k] of them), outward. *)
Fixpoint outward (k ich : nat) (etaDot etaDotDot : list R)
    : list R * list R :=
  match k with
  | O => (etaDot, etaDotDot)
  | S k' =>
      let expfac := exp (- dt8 * etaDot !!! (ich + 1)%nat) in
      let acc := (etaMass !!! (ich - 1)%nat * (etaDot !!! (ich - 1)%nat) ^ 2
                  - kb * targetTemperature) / etaMass !!! ich in
      outward k' (S ich)
        (<[ich := half_kick expfac acc (etaDot !!! ich)]> etaDot)
        (<[ich := acc]> etaDotDot)
  end.

(** One sub-iteration: steps 1 to 5 in that order. *)
Definition sub_step (c : chain) : chain :=
  let etaDot1 := inward numNHChains (ref_etaDot c) (ref_etaDotDot c) in
  let scale := ref_scale c * exp (- dt2 * etaDot1 !!! 0%nat) in
  let eta1 := advance (ref_eta c) etaDot1 in
  let acc0 := (ke2 * scale ^ 2 - ke2_target) / etaMass !!! 0%nat in
  (* the expfac of the innermost link in step 1 *)
  let expfac := exp (- dt8 * etaDot1 !!! 1%nat) in
  let etaDot2 := <[0%nat := half_kick expfac acc0 (etaDot1 !!! 0%nat)]> etaDot1 in
  let etaDotDot2 := <[0%nat := acc0]> (ref_etaDotDot c) in
  let '(etaDot3, etaDotDot3) := outward (numNHChains - 1) 1 etaDot2 etaDotDot2 in
  Chain eta1 etaDot3 etaDotDot3 scale.

End Sequence.

(** [loopsPerStep] sub-iterations with [dt2 = stepSize / loopsPerStep / 2],
    [dt4 = dt2/2] and [dt8 = dt4/2]. *)
Definition propagate (kb : R) (etaMass : list R) (numNHChains : nat)
    (stepSize : R) (loopsPerStep : Z) (ke2 ke2_target targetTemperature : R)
    (c : chain) : chain :=
  let dt2 := (stepSize / IZR loopsPerStep / 2)%R in
  let dt4 := (dt2 / 2)%R in
  let dt8 := (dt4 / 2)%R in
  Nat.iter (Z.to_nat loopsPerStep)
    (sub_step kb etaMass numNHChains dt2 dt4 dt8 ke2 ke2_target
       targetTemperature) c.

End Reference.

(** The chain variables of a frame, as the reference sees them. *)
Definition view (s : NHChain.frame (D:=R)) : Reference.chain :=
  Reference.Chain (NHChain.eta s) (NHChain.eta_dot s) (NHChain.eta_dotdot s)
    (NHChain.factor s).

(** ** The simulated system and the integrator object *)

Module VV.
Local Open Scope Z_scope.

(** [throw OpenMMException(message)] *)
Inductive OpenMMException := Exception (message : string).

(** The exceptions of [VVIntegrator.cpp], under the names of the error
    taxonomy of the specification (section 7). *)
Definition BindingConflict : OpenMMException :=
  Exception "This Integrator is already bound to a context".
Definition MultipleForceDefinition : OpenMMException :=
  Exception "The System contains multiple DrudeForces".
Definition COMGroupWithoutDrude : OpenMMException :=
  Exception "Should not use COM temperature group for non-Drude model".
Definition NHLangevinConflict : OpenMMException :=
  Exception "NH and Langevin thermostat cannot be applied on the same molecule".
Definition LangevinPerturbationConflict : OpenMMException :=
  Exception "Langevin thermostat and periodic perturbation shouldn't be used together".
Definition UnboundUsage : OpenMMException :=
  Exception "This Integrator is not bound to a context!".
(** Modelled from the spec: the macro [ASSERT_VALID_INDEX] is defined in
    [openmm/internal/AssertionUtilities.h], outside this repository, and the
    specification names no error for it (section 7).  As its name says, it
    throws when the index is not an index of the vector. *)
Definition IndexOutOfRange : OpenMMException :=
  Exception "Index out of range".

(** The three conflicts the specification calls [ConfigurationConflict]. *)
Definition ConfigurationConflict (e : OpenMMException) : Prop :=
  e = COMGroupWithoutDrude \/ e = NHLangevinConflict \/
  e = LangevinPerturbationConflict.

(** A computation that returns or throws. *)
Definition result (A : Type) : Type := (OpenMMException + A)%type.
#[export] Instance result_ret : MRet result := fun _ a => inr a.
#[export] Instance result_bind : MBind result := fun _ _ f m =>
  match m with inl e => inl e | inr a => f a end.

(** [v[i]] and [v[i] = x] at an [int] index; a negative index is out of
    range like one past the end. *)
Definition vget {A} `{Inhabited A} (v : list A) (i : Z) : A :=
  if decide (i < 0) then inhabitant else v !!! Z.to_nat i.
Definition vset {A} (v : list A) (i : Z) (x : A) : list A :=
  if decide (i < 0) then v else <[Z.to_nat i := x]> v.
(** [ASSERT_VALID_INDEX(i, v); return v[i];] *)
Definition checked_get {A} `{Inhabited A} (v : list A) (i : Z) : result A :=
  if decide (i < 0 \/ Z.of_nat (length v) <= i) then inl IndexOutOfRange
  else inr (vget v i).
(** An [int] made from a [size_t]: two's complement on 32 bits. *)
Definition to_int (n : Z) : Z := (n + 2 ^ 31) mod 2 ^ 32 - 2 ^ 31.

(** *** The system (an external collaborator, as far as it is read) *)

(** A force of the system: a [DrudeForce] with the pairs [(p, p1)] that
    [getParticleParameters] returns, a [CMMotionRemover], or any other. *)
Inductive Force :=
  | DrudeForce (pairs : list (Z * Z))
  | CMMotionRemover
  | OtherForce.

Record System := {
  particleMass : list R;            (* getParticleMass(i), i < getNumParticles() *)
  forces : list Force;              (* getForce(i), i < getNumForces() *)
  constraints : list (Z * Z * R)    (* getConstraintParameters(i, p, p1, distance) *)
}.

Definition getNumParticles (sys : System) : Z :=
  Z.of_nat (length (particleMass sys)).
Definition getParticleMass (sys : System) (i : Z) : R :=
  vget (particleMass sys) i.

(** A [ContextImpl] as the integrator reads it: the address of the
    [Context] that owns it, its system, and its molecules. *)
Record ContextImpl := {
  getOwner : nat;
  getSystem : System;
  getMolecules : list (list Z)
}.

(** *** The state of [CudaModifyDrudeNoseKernel] after [initialize] *)

Record NoseKernel := {
  tempGroupDof : list R;
  tempGroupNkbT : list R;
  pairParticlesNHVec : list (Z * Z);
  etaMass : list (list R);
  eta : list (list R);
  etaDot : list (list R);
  etaDotDot : list (list R)
}.

(** *** The integrator *)

(** The fields that only setters of the header change. *)
Record Config := {
  temperature : R;
  frequency : R;
  drudeTemperature : R;
  drudeFrequency : R;
  stepSize : R;
  numNHChains : Z;
  loopsPerStep : Z;
  useCOMTempGroup : bool;
  cosAcceleration : R
}.

Record VVIntegrator := Integrator {
  config : Config;
  particlesLD : list Z;
  particlesElectrolyte : list Z;
  particlesImage : list Z;
  imagePairs : list (Z * Z);
  particleResId : list Z;
  residueMasses : list R;
  residueInvMasses : list R;
  particlesNH : list Z;
  residuesNH : list Z;
  context : option ContextImpl;
  owner : option nat;
  nhKernel : option NoseKernel;
  forcesAreValid : bool
}.

(** Modelled from the spec: the constructor's base class [Integrator] and
    the header [openmm/VVIntegrator.h] are outside this repository.  A new
    integrator is unbound ([context] and [owner] are [NULL], section 4.6),
    its particle sets and image pairs are empty (section 3), and
    [forcesAreValid(false)] is the constructor's own initialiser. *)
Definition VVIntegrator_new (c : Config) : VVIntegrator :=
  Integrator c [] [] [] [] [] [] [] [] [] None None None false.

(** Modelled from the spec: [isParticleLD], [isParticleImage] and
    [isParticleNH] are declared in [openmm/VVIntegrator.h], outside this
    repository; a particle has a role when it is in the role's set
    (section 2: the classifier "partitions particles into role sets"). *)
Definition isParticleLD (itg : VVIntegrator) (i : Z) : bool :=
  bool_decide (i ∈ particlesLD itg).
Definition isParticleImage (itg : VVIntegrator) (i : Z) : bool :=
  bool_decide (i ∈ particlesImage itg).
Definition isParticleNH (itg : VVIntegrator) (i : Z) : bool :=
  bool_decide (i ∈ particlesNH itg).

(** Lines 84-87 and 79-82. *)
Definition getParticleResId (itg : VVIntegrator) (particle : Z) : result Z :=
  checked_get (particleResId itg) particle.
Definition getResInvMass (itg : VVIntegrator) (resid : Z) : result R :=
  checked_get (residueInvMasses itg) resid.

(** *** Degrees of freedom: [CudaModifyDrudeNoseKernel::initialize] *)

Section Kernel.
Local Open Scope R_scope.

(** BOLTZ of [SimTKOpenMMRealType.h], a header outside this repository. *)
Variable BOLTZ : R.

(** [enum {TG_ATOM, TG_COM, TG_DRUDE, NUM_TG}] *)
Definition TG_ATOM : nat := 0.
Definition TG_COM : nat := 1.
Definition TG_DRUDE : nat := 2.
Definition NUM_TG : nat := 3.

(** [dof[tg] += x] *)
Definition add_dof (tg : nat) (x : R) (dof : list R) : list R :=
  <[tg := dof !!! tg + x]> dof.

(** [mass != 0.0] *)
Definition Rneqb (a b : R) : bool := if Req_dec_T a b then false else true.
(** [std::max(a, b)]: [(a < b) ? b : a] *)
Definition std_max (a b : R) : R := if Rlt_dec a b then b else a.

(** Lines 315-329, one particle. *)
Definition count_particle (sys : System) (itg : VVIntegrator) (i : Z)
    (dof : list R) : result (list R) :=
  resid ← getParticleResId itg i;
  let mass := getParticleMass sys i in
  resInvMass ← getResInvMass itg resid;
  mret (if isParticleNH itg i && Rneqb mass 0
        then
          let dof := add_dof TG_ATOM 3 dof in
          if useCOMTempGroup (config itg)
          then add_dof TG_ATOM (- (3 * mass * resInvMass)) dof
          else dof
        else dof).

(** Lines 315-329, the loop. *)
Fixpoint count_particles (sys : System) (itg : VVIntegrator) (l : list Z)
    (dof : list R) : result (list R) :=
  match l with
  | [] => mret dof
  | i :: l' => dof' ← count_particle sys itg i dof;
               count_particles sys itg l' dof'
  end.

(** Lines 331-344: a Drude pair whose first particle is thermostatted moves
    three degrees of freedom from the atoms to the Drude group. *)
Definition count_pair (itg : VVIntegrator) (dof : list R) (pr : Z * Z)
    : list R :=
  if isParticleNH itg pr.1
  then add_dof TG_DRUDE 3 (add_dof TG_ATOM (-3) dof)
  else dof.

Definition count_pairs (itg : VVIntegrator) (force : option (list (Z * Z)))
    (dof : list R) : list R :=
  match force with
  | None => dof
  | Some pairs => foldl (count_pair itg) dof pairs
  end.

(** Lines 348-355. *)
Definition count_constraint (itg : VVIntegrator) (dof : list R)
    (c : Z * Z * R) : list R :=
  if isParticleNH itg c.1.1 then add_dof TG_ATOM (-1) dof else dof.

(** Lines 361-363: [tempGroupDof[TG_COM] = 3 * residuesNHVec.size();] *)
Definition count_residues (itg : VVIntegrator) (dof : list R) : list R :=
  if useCOMTempGroup (config itg)
  then <[TG_COM := 3 * INR (length (residuesNH itg))]> dof
  else dof.

(** Lines 364-372: the first [CMMotionRemover] takes three degrees of
    freedom away; the loop stops there. *)
Fixpoint count_cm_remover (itg : VVIntegrator) (fs : list Force)
    (dof : list R) : list R :=
  match fs with
  | [] => dof
  | CMMotionRemover :: _ =>
      if useCOMTempGroup (config itg)
      then add_dof TG_COM (-3) dof
      else add_dof TG_ATOM (-3) dof
  | _ :: fs' => count_cm_remover itg fs' dof
  end.

(** Lines 377-378. *)
Definition clamp_dof (dof : list R) : list R :=
  (fun x => std_max x 0) <$> dof.

(** Lines 288-378: the degrees of freedom of the three groups. *)
Definition account_dof (sys : System) (itg : VVIntegrator)
    (force : option (list (Z * Z))) : result (list R) :=
  dof ← count_particles sys itg (seqZ 0 (getNumParticles sys))
          (replicate NUM_TG 0);
  let dof := count_pairs itg force dof in
  let dof := foldl (count_constraint itg) dof (constraints sys) in
  let dof := count_residues itg dof in
  let dof := count_cm_remover itg (forces sys) dof in
  mret (clamp_dof dof).

(** Lines 397-400 for one group: the masses of the links after the first
    and the starting [etaDotDot] of those links. *)
Definition init_links (tgKbT tgMass : R) (n : nat)
    (em ed edd : list R) : list R * list R :=
  foldl (fun '(em, edd) ich =>
           let em := <[ich := tgMass]> em in
           (em, <[ich := (em !!! (ich - 1)%nat * ed !!! (ich - 1)%nat
                          * ed !!! (ich - 1)%nat - tgKbT) / em !!! ich]> edd))
        (em, edd) (seq 1 (n - 1)).

(** Lines 382-401 for the group [i]. *)
Definition init_group (itg : VVIntegrator) (dof : list R) (i : nat)
    : R * (list R * list R * list R * list R) :=
  let c := config itg in
  let n := Z.to_nat (numNHChains c) in
  let realKbT := BOLTZ * temperature c in
  let drudeKbT := BOLTZ * drudeTemperature c in
  let tgKbT := if decide (i = TG_DRUDE) then drudeKbT else realKbT in
  let tgMass := if decide (i = TG_DRUDE)
                then drudeKbT / (drudeFrequency c) ^ 2
                else realKbT / (frequency c) ^ 2 in
  let ed := replicate (n + 1) 0 in
  let em := <[0%nat := dof !!! i * tgMass]> (replicate n 0) in
  let '(em, edd) := init_links tgKbT tgMass n em ed (replicate n 0) in
  (dof !!! i * tgKbT, (em, replicate n 0, ed, edd)).

(** [CudaModifyDrudeNoseKernel::initialize], lines 285-401: the state the
    thermostat starts from.  What follows in the source allocates and
    uploads device arrays. *)
Definition NoseKernel_initialize (sys : System) (itg : VVIntegrator)
    (force : option (list (Z * Z))) : result NoseKernel :=
  dof ← account_dof sys itg force;
  let groups := init_group itg dof <$> seq 0 NUM_TG in
  mret {| tempGroupDof := dof;
          tempGroupNkbT := fst <$> groups;
          pairParticlesNHVec :=
            match force with
            | None => []
            | Some pairs =>
                filter (fun pr => isParticleNH itg pr.1 = true) pairs
            end;
          etaMass := (fun g => g.2.1.1.1) <$> groups;
          eta := (fun g => g.2.1.1.2) <$> groups;
          etaDot := (fun g => g.2.1.2) <$> groups;
          etaDotDot := (fun g => g.2.2) <$> groups |}.

End Kernel.

(** *** Member functions of [VVIntegrator]

    A member function runs on the integrator object: it returns or throws,
    and the object keeps what was written to it before that. *)

Definition M (A : Type) : Type :=
  VVIntegrator -> (OpenMMException + A) * VVIntegrator.
#[export] Instance M_ret : MRet M := fun _ a itg => (inr a, itg).
#[export] Instance M_bind : MBind M := fun _ _ f m itg =>
  match m itg with
  | (inl e, itg') => (inl e, itg')
  | (inr a, itg') => f a itg'
  end.
Definition throw {A} (e : OpenMMException) : M A := fun itg => (inl e, itg).
Definition read {A} (f : VVIntegrator -> A) : M A := fun itg => (inr (f itg), itg).
Definition update (f : VVIntegrator -> VVIntegrator) : M unit :=
  fun itg => (inr tt, f itg).
(** A call of a [const] member function that may throw. *)
Definition call {A} (f : VVIntegrator -> result A) : M A :=
  fun itg => (f itg, itg).
Fixpoint for_in {A} (l : list A) (body : A -> M unit) : M unit :=
  match l with
  | [] => mret tt
  | x :: l' => body x;; for_in l' body
  end.

Definition set_particlesImage (x : list Z) (i : VVIntegrator) :=
  Integrator (config i) (particlesLD i) (particlesElectrolyte i) x
    (imagePairs i) (particleResId i) (residueMasses i) (residueInvMasses i)
    (particlesNH i) (residuesNH i) (context i) (owner i) (nhKernel i)
    (forcesAreValid i).
Definition set_imagePairs (x : list (Z * Z)) (i : VVIntegrator) :=
  Integrator (config i) (particlesLD i) (particlesElectrolyte i)
    (particlesImage i) x (particleResId i) (residueMasses i)
    (residueInvMasses i) (particlesNH i) (residuesNH i) (context i) (owner i)
    (nhKernel i) (forcesAreValid i).
Definition set_particleResId (x : list Z) (i : VVIntegrator) :=
  Integrator (config i) (particlesLD i) (particlesElectrolyte i)
    (particlesImage i) (imagePairs i) x (residueMasses i)
    (residueInvMasses i) (particlesNH i) (residuesNH i) (context i) (owner i)
    (nhKernel i) (forcesAreValid i).
Definition set_residueMasses (x : list R) (i : VVIntegrator) :=
  Integrator (config i) (particlesLD i) (particlesElectrolyte i)
    (particlesImage i) (imagePairs i) (particleResId i) x
    (residueInvMasses i) (particlesNH i) (residuesNH i) (context i) (owner i)
    (nhKernel i) (forcesAreValid i).
Definition set_residueInvMasses (x : list R) (i : VVIntegrator) :=
  Integrator (config i) (particlesLD i) (particlesElectrolyte i)
    (particlesImage i) (imagePairs i) (particleResId i) (residueMasses i) x
    (particlesNH i) (residuesNH i) (context i) (owner i) (nhKernel i)
    (forcesAreValid i).
Definition set_particlesNH (x : list Z) (i : VVIntegrator) :=
  Integrator (config i) (particlesLD i) (particlesElectrolyte i)
    (particlesImage i) (imagePairs i) (particleResId i) (residueMasses i)
    (residueInvMasses i) x (residuesNH i) (context i) (owner i) (nhKernel i)
    (forcesAreValid i).
Definition set_residuesNH (x : list Z) (i : VVIntegrator) :=
  Integrator (config i) (particlesLD i) (particlesElectrolyte i)
    (particlesImage i) (imagePairs i) (particleResId i) (residueMasses i)
    (residueInvMasses i) (particlesNH i) x (context i) (owner i) (nhKernel i)
    (forcesAreValid i).
Definition set_binding (c : ContextImpl) (i : VVIntegrator) :=
  Integrator (config i) (particlesLD i) (particlesElectrolyte i)
    (particlesImage i) (imagePairs i) (particleResId i) (residueMasses i)
    (residueInvMasses i) (particlesNH i) (residuesNH i) (Some c)
    (Some (getOwner c)) (nhKernel i) (forcesAreValid i).
Definition set_nhKernel (x : option NoseKernel) (i : VVIntegrator) :=
  Integrator (config i) (particlesLD i) (particlesElectrolyte i)
    (particlesImage i) (imagePairs i) (particleResId i) (residueMasses i)
    (residueInvMasses i) (particlesNH i) (residuesNH i) (context i) (owner i)
    x (forcesAreValid i).
Definition set_forcesAreValid (x : bool) (i : VVIntegrator) :=
  Integrator (config i) (particlesLD i) (particlesElectrolyte i)
    (particlesImage i) (imagePairs i) (particleResId i) (residueMasses i)
    (residueInvMasses i) (particlesNH i) (residuesNH i) (context i) (owner i)
    (nhKernel i) x.

(** [VVIntegrator::addImagePair], lines 73-77.  The value returned is
    [imagePairs.size()], a [size_t], as an [int]. *)
Definition addImagePair (image parent : Z) (itg : VVIntegrator)
    : Z * VVIntegrator :=
  let itg := set_particlesImage (particlesImage itg ++ [image]) itg in
  let itg := set_imagePairs (imagePairs itg ++ [(image, parent)]) itg in
  (to_int (Z.of_nat (length (imagePairs itg))), itg).

(** A sequence of [addImagePair(image, parent)] calls: the values they
    return, in the order of the calls, and the integrator they leave. *)
Fixpoint addImagePairs (l : list (Z * Z)) (itg : VVIntegrator)
    : list Z * VVIntegrator :=
  match l with
  | [] => ([], itg)
  | (image, parent) :: l' =>
      let '(r, itg') := addImagePair image parent itg in
      let '(rs, itg'') := addImagePairs l' itg' in
      (r :: rs, itg'')
  end.

(** Lines 90-91. *)
Definition check_binding (contextRef : ContextImpl) : M unit :=
  o ← read owner;
  match o with
  | Some o' => if decide (getOwner contextRef = o') then mret tt
               else throw BindingConflict
  | None => mret tt
  end.

(** Lines 93-102: the [DrudeForce] of the system, if there is one. *)
Fixpoint find_DrudeForce (fs : list Force) (force : option (list (Z * Z)))
    : result (option (list (Z * Z))) :=
  match fs with
  | [] => mret force
  | DrudeForce pairs :: fs' =>
      match force with
      | None => find_DrudeForce fs' (Some pairs)
      | Some _ => inl MultipleForceDefinition
      end
  | _ :: fs' => find_DrudeForce fs' force
  end.

(** Lines 108-113: every particle of molecule [i] gets residue [i]. *)
Definition assign_residues (numParticles : Z) (molecules : list (list Z))
    : list Z :=
  foldl (fun ids '(i, molecule) =>
           foldl (fun ids p => vset ids p (Z.of_nat i)) ids molecule)
        (replicate (Z.to_nat numParticles) (-1))
        (imap (fun i molecule => (i, molecule)) molecules).

(** Lines 115-117: [residueMasses[particleResId[i]] += getParticleMass(i)] *)
Definition sum_residue_masses (sys : System) (ids : list Z)
    (numResidues : nat) : list R :=
  foldl (fun ms i =>
           vset ms (vget ids i)
             (vget ms (vget ids i) + getParticleMass sys i)%R)
        (replicate numResidues 0%R) (seqZ 0 (getNumParticles sys)).

(** Lines 123-130, one particle. *)
Definition classify_NH (i : Z) : M unit :=
  ld ← read (fun itg => isParticleLD itg i);
  img ← read (fun itg => isParticleImage itg i);
  if negb ld && negb img then
    update (fun itg => set_particlesNH (particlesNH itg ++ [i]) itg);;
    resid ← call (fun itg => getParticleResId itg i);
    update (fun itg =>
      if bool_decide (resid ∈ residuesNH itg) then itg
      else set_residuesNH (residuesNH itg ++ [resid]) itg)
  else mret tt.

(** Lines 131-136, one particle. *)
Definition check_LD (i : Z) : M unit :=
  ld ← read (fun itg => isParticleLD itg i);
  if (ld : bool) then
    resid ← call (fun itg => getParticleResId itg i);
    nh ← read (fun itg => bool_decide (resid ∈ residuesNH itg));
    if (nh : bool) then throw NHLangevinConflict else mret tt
  else mret tt.

(** Lines 108-136: residues, their masses, and the two thermostat sets. *)
Definition classify (contextRef : ContextImpl) : M unit :=
  let sys := getSystem contextRef in
  let molecules := getMolecules contextRef in
  update (set_particleResId
            (assign_residues (getNumParticles sys) molecules));;
  update (fun itg =>
    set_residueMasses
      (sum_residue_masses sys (particleResId itg) (length molecules)) itg);;
  update (fun itg =>
    set_residueInvMasses
      (residueInvMasses itg ++ ((fun m => 1 / m)%R <$> residueMasses itg))
      itg);;
  for_in (seqZ 0 (getNumParticles sys)) classify_NH;;
  for_in (seqZ 0 (getNumParticles sys)) check_LD.

Section Bind.
Variable BOLTZ : R.

(** Lines 93-165: all of [initialize] after the binding check.  Of the
    kernels it creates, the Nose-Hoover one is kept with the state its
    [initialize] computes; the others are outside this model. *)
Definition configure (contextRef : ContextImpl) : M unit :=
  let sys := getSystem contextRef in
  force ← call (fun _ => find_DrudeForce (forces sys) None);
  com ← read (fun itg => useCOMTempGroup (config itg));
  (if bool_decide (force = None) && com then throw COMGroupWithoutDrude
   else mret tt);;
  classify contextRef;;
  conflict ← read (fun itg =>
    bool_decide (particlesLD itg ≠ []) &&
    Rneqb (cosAcceleration (config itg)) 0);
  (if (conflict : bool) then throw LangevinPerturbationConflict
   else mret tt);;
  update (set_binding contextRef);;
  nh ← read (fun itg => bool_decide (particlesNH itg ≠ []));
  if (nh : bool) then
    k ← call (fun itg => NoseKernel_initialize BOLTZ sys itg force);
    update (set_nhKernel (Some k))
  else mret tt.

(** [VVIntegrator::initialize], lines 89-166. *)
Definition initialize (contextRef : ContextImpl) : M unit :=
  check_binding contextRef;;
  configure contextRef.

End Bind.

(** *** Stepping *)

(** What a step asks of its collaborators, in the order of the calls. *)
Inductive kernel_call :=
  | UpdateContextState
  | CalcForcesAndEnergy
  | CalcVelocityBias
  | RemoveVelocityBias
  | CalcGroupKineticEnergies
  | ScaleVelocity
  | RestoreVelocityBias
  | FirstIntegrate
  | UpdateImagePositions
  | ResetExtraForce
  | ApplyLangevinForce
  | ApplyElectricForce
  | ApplyCosForce
  | SecondIntegrate.

#[export] Instance kernel_call_eq_dec : EqDecision kernel_call.
Proof. solve_decision. Defined.

(** The simulation as [step] sees it: the integrator, the calls made so
    far (oldest first), and the step count of the platform, which
    [secondIntegrate] advances (line 243 of the kernels). *)
Record world := World {
  integrator : VVIntegrator;
  calls : list kernel_call;
  stepCount : Z
}.

Section Step.

(** What the collaborators answer at a given step count:
    [context->updateContextState()] and [cu.getAtomsWereReordered()]. *)
Variable stateChanged : Z -> bool.
Variable atomsWereReordered : Z -> bool.

Definition emit (c : kernel_call) (w : world) : world :=
  World (integrator w) (calls w ++ [c]) (stepCount w).
Definition set_valid (b : bool) (w : world) : world :=
  World (set_forcesAreValid b (integrator w)) (calls w) (stepCount w).
Definition when (b : bool) (f : world -> world) (w : world) : world :=
  if b then f w else w.

(** Lines 225-235 and 258-268. *)
Definition thermostat (w : world) : world :=
  let cos := Rneqb (cosAcceleration (config (integrator w))) 0 in
  when (bool_decide (particlesNH (integrator w) ≠ []))
    (fun w =>
       let w := when cos (fun w => emit RemoveVelocityBias
                                     (emit CalcVelocityBias w)) w in
       let w := emit ScaleVelocity (emit CalcGroupKineticEnergies w) in
       when cos (emit RestoreVelocityBias) w) w.

(** The body of the loop of [step], lines 216-268. *)
Definition one_step (w : world) : world :=
  let itg := integrator w in
  let cos := Rneqb (cosAcceleration (config itg)) 0 in
  let ld := bool_decide (particlesLD itg ≠ []) in
  let ef := bool_decide (particlesElectrolyte itg ≠ []) in
  let w := emit UpdateContextState w in
  let w := when (stateChanged (stepCount w)) (set_valid false) w in
  let w := when (negb (forcesAreValid (integrator w)))
             (fun w => set_valid true (emit CalcForcesAndEnergy w)) w in
  let w := thermostat w in
  let w := emit FirstIntegrate w in
  let w := when (atomsWereReordered (stepCount w)) (set_valid false) w in
  let w := when (bool_decide (particlesImage itg ≠ []))
             (emit UpdateImagePositions) w in
  let w := set_valid true (emit CalcForcesAndEnergy w) in
  let w := when (ld || ef || cos) (emit ResetExtraForce) w in
  let w := when ld (emit ApplyLangevinForce) w in
  let w := when ef (emit ApplyElectricForce) w in
  let w := when cos (emit ApplyCosForce) w in
  let w := emit SecondIntegrate w in
  let w := World (integrator w) (calls w) (stepCount w + 1) in
  thermostat w.

(** [VVIntegrator::step], lines 197-270. *)
Definition step (steps : Z) (w : world) : (OpenMMException + unit) * world :=
  match context (integrator w) with
  | None => (inl UnboundUsage, w)
  | Some _ => (inr tt, Nat.iter (Z.to_nat steps) one_step w)
  end.

End Step.

(** [m] throws nothing but exceptions in [P]. *)
Definition throws_only {A} (P : OpenMMException -> Prop) (m : M A) : Prop :=
  forall itg e itg', m itg = (inl e, itg') -> P e.

(** The test of line 124: neither a Langevin particle nor an image. *)
Definition thermostatted_NH (itg : VVIntegrator) (i : Z) : bool :=
  negb (isParticleLD itg i) && negb (isParticleImage itg i).

(** [itg'] is [itg] but for the two Nose-Hoover sets. *)
Definition same_but_NH (itg itg' : VVIntegrator) : Prop :=
  itg' = set_residuesNH (residuesNH itg')
           (set_particlesNH (particlesNH itg') itg).

(** Particle [i] is a Langevin particle whose residue is in [residuesNH]:
    the test of lines 132-133. *)
Definition LD_in_NH_residue (itg : VVIntegrator) (i : Z) : Prop :=
  isParticleLD itg i = true /\
  vget (particleResId itg) i ∈ residuesNH itg.

(** Some residue holds a Langevin particle [i] and a Nose-Hoover
    particle [j]. *)
Definition mixed_residue (contextRef : ContextImpl) (itg : VVIntegrator)
    : Prop :=
  exists i j,
    0 <= i < getNumParticles (getSystem contextRef) /\
    0 <= j < getNumParticles (getSystem contextRef) /\
    vget (assign_residues (getNumParticles (getSystem contextRef))
            (getMolecules contextRef)) i =
    vget (assign_residues (getNumParticles (getSystem contextRef))
            (getMolecules contextRef)) j /\
    isParticleLD itg i = true /\ thermostatted_NH itg j = true.

(** The integrator when the two loops of lines 123-136 start. *)
Definition with_residues (contextRef : ContextImpl) (itg : VVIntegrator)
    : VVIntegrator :=
  let sys := getSystem contextRef in
  let ids := assign_residues (getNumParticles sys) (getMolecules contextRef) in
  let ms := sum_residue_masses sys ids (length (getMolecules contextRef)) in
  set_residueInvMasses
    (residueInvMasses itg ++ ((fun m => 1 / m)%R <$> ms))
    (set_residueMasses ms (set_particleResId ids itg)).

(** The classification tables cover particle [i]: it has a residue, and
    the residue has an inverse mass. *)
Definition classified (itg : VVIntegrator) (i : Z) : Prop :=
  exists r m, getParticleResId itg i = inr r /\ getResInvMass itg r = inr m.

(** What the part of [initialize] after the binding check can throw. *)
Definition after_binding (e : OpenMMException) : Prop :=
  e = MultipleForceDefinition \/ ConfigurationConflict e \/
  e = IndexOutOfRange.

(** The number of [c] among the calls made. *)
Definition count_calls (c : kernel_call) (w : world) : nat :=
  length (filter (fun x => x = c) (calls w)).

(** From [w] to [w']: [a] more first halves, [b] more second halves, the
    step count [d] further, the binding as it was. *)
Definition effect (a b : nat) (d : Z) (w w' : world) : Prop :=
  count_calls FirstIntegrate w' = (count_calls FirstIntegrate w + a)%nat /\
  count_calls SecondIntegrate w' = (count_calls SecondIntegrate w + b)%nat /\
  stepCount w' = stepCount w + d /\
  context (integrator w') = context (integrator w).

End VV.




(** ** The host side of the kernels *)

Module Cuda.
Import VV.
Local Open Scope Z_scope.

(** *** [std::set<int>]

    The elements in ascending order, each once: the order in which the
    kernels copy a set into a vector. *)
Fixpoint set_insert (x : Z) (s : list Z) : list Z :=
  match s with
  | [] => [x]
  | y :: s' =>
      if decide (x < y) then x :: y :: s'
      else if decide (x = y) then y :: s'
      else y :: set_insert x s'
  end.
Definition set_erase (x : Z) (s : list Z) : list Z :=
  filter (fun y => y <> x) s.

(** *** Particles sorted by residue: [CudaModifyDrudeNoseKernel::initialize]

    Lines 304-309 for one [resid], over the particles [l]: the state is
    [(n_particles_in_res, particlesSortedByResIdVec)]. *)
Fixpoint scan_residue (itg : VVIntegrator) (resid : Z) (l : list Z)
    (st : Z * list Z) : result (Z * list Z) :=
  match l with
  | [] => mret st
  | i :: l' =>
      r ← getParticleResId itg i;
      scan_residue itg resid l'
        (if decide (r = resid) then (st.1 + 1, st.2 ++ [i]) else st)
  end.

(** Lines 301-312 over the residues [resids]: the state is [(id_start,
    particlesSortedByResIdVec, particlesInResiduesVec)]. *)
Fixpoint sort_by_residue (itg : VVIntegrator) (numParticles : Z)
    (resids : list Z) (st : Z * list Z * list (Z * Z))
    : result (Z * list Z * list (Z * Z)) :=
  match resids with
  | [] => mret st
  | resid :: rs =>
      found ← scan_residue itg resid (seqZ 0 numParticles) (0, st.1.2);
      sort_by_residue itg numParticles rs
        (st.1.1 + found.1, found.2, st.2 ++ [(found.1, st.1.1)])
  end.

(** Lines 301-312.  [numResidues] is [integrator.getNumResidues()], which
    the header [openmm/VVIntegrator.h], outside this repository, defines. *)
Definition particlesByResidue (sys : System) (itg : VVIntegrator)
    (numResidues : Z) : result (Z * list Z * list (Z * Z)) :=
  sort_by_residue itg (getNumParticles sys) (seqZ 0 numResidues) (0, [], []).

(** *** Normal particles and Drude pairs

    [CudaModifyDrudeNoseKernel::initialize] (lines 314-345, with the role
    [isParticleNH]) and [CudaModifyDrudeLangevinKernel::initialize] (lines
    568-587, with the role [isParticleLD]) run the same code: the particles
    with the role go into a set; a pair of the [DrudeForce] whose first
    particle has the role is kept, and both its particles leave the set. *)
Definition role_set (role : Z -> bool) (numParticles : Z) : list Z :=
  foldl (fun s i => if role i then set_insert i s else s) []
    (seqZ 0 numParticles).

Definition take_pair (role : Z -> bool) (st : list Z * list (Z * Z))
    (pr : Z * Z) : list Z * list (Z * Z) :=
  if role pr.1
  then (set_erase pr.2 (set_erase pr.1 st.1), st.2 ++ [pr])
  else st.

Definition split_roles (role : Z -> bool) (numParticles : Z)
    (force : option (list (Z * Z))) : list Z * list (Z * Z) :=
  match force with
  | None => (role_set role numParticles, [])
  | Some pairs => foldl (take_pair role) (role_set role numParticles, []) pairs
  end.

(** Line 345: [normalParticlesNHVec]. *)
Definition normalParticlesNHVec (sys : System) (itg : VVIntegrator)
    (force : option (list (Z * Z))) : list Z :=
  (split_roles (isParticleNH itg) (getNumParticles sys) force).1.

(** The state of [CudaModifyDrudeLangevinKernel] after [initialize]. *)
Record LangevinKernel := {
  normalParticlesLDVec : list Z;
  pairParticlesLDVec : list (Z * Z)
}.

(** [CudaModifyDrudeLangevinKernel::initialize], lines 568-587. *)
Definition LangevinKernel_initialize (sys : System) (itg : VVIntegrator)
    (force : option (list (Z * Z))) : LangevinKernel :=
  let st := split_roles (isParticleLD itg) (getNumParticles sys) force in
  {| normalParticlesLDVec := st.1; pairParticlesLDVec := st.2 |}.

(** *** [CudaModifyDrudeNoseKernel::scaleVelocity] *)

(** The kernel object between two steps: the chains, the kinetic energies
    [calcGroupKineticEnergies] downloaded, and the scale factors. *)
Record NoseState := {
  kernel : NoseKernel;
  kineticEnergiesNHVec : list R;
  vscaleFactorsNHVec : list R
}.

Section Scale.
Local Open Scope R_scope.

Variable BOLTZ : R.
(** The fields of the integrator that [propagateNHChain] reads. *)
Variable c : Config.
(** [double scale;] is declared without a value (line 533). *)
Variable junk : R.

(** The chain of group [itg] as [propagateNHChain] leaves it (line 534). *)
Definition propagate_group (itg : nat) (st : NoseState)
    : NHChain.frame (D:=R) :=
  let k := kernel st in
  let T := if decide (itg = TG_DRUDE) then drudeTemperature c
           else temperature c in
  NHChain.propagateNHChain BOLTZ (stepSize c) (loopsPerStep c) (numNHChains c)
    (kineticEnergiesNHVec st !!! itg) (tempGroupNkbT k !!! itg) T
    (NHChain.enter (eta k !!! itg) (etaDot k !!! itg) (etaDotDot k !!! itg)
       (etaMass k !!! itg) junk).

(** Lines 532-537, the body of the loop. *)
Definition scale_group (st : NoseState) (itg : nat) : NoseState :=
  let k := kernel st in
  let s := propagate_group itg st in
  {| kernel :=
       {| tempGroupDof := tempGroupDof k;
          tempGroupNkbT := tempGroupNkbT k;
          pairParticlesNHVec := pairParticlesNHVec k;
          etaMass := <[itg := NHChain.eta_mass s]> (etaMass k);
          eta := <[itg := NHChain.eta s]> (eta k);
          etaDot := <[itg := NHChain.eta_dot s]> (etaDot k);
          etaDotDot := <[itg := NHChain.eta_dotdot s]> (etaDotDot k) |};
     kineticEnergiesNHVec :=
       <[itg := kineticEnergiesNHVec st !!! itg * NHChain.factor s]>
         (kineticEnergiesNHVec st);
     vscaleFactorsNHVec :=
       <[itg := NHChain.factor s]> (vscaleFactorsNHVec st) |}.

(** Lines 530-538.  What follows in the source uploads the scale factors
    and launches the device kernel. *)
Definition scaleVelocity (st : NoseState) : NoseState :=
  foldl scale_group
    {| kernel := kernel st;
       kineticEnergiesNHVec := kineticEnergiesNHVec st;
       vscaleFactorsNHVec := replicate NUM_TG 1 |}
    (seq 0 NUM_TG).

End Scale.

End Cuda.

(** ** The other member functions of the integrator *)

Module Members.
Import VV.

(** [VVIntegrator::cleanup], lines 168-175: every kernel becomes the empty
    [Kernel()]; of the six, the model keeps the Nose-Hoover one. *)
Definition cleanup (itg : VVIntegrator) : VVIntegrator :=
  set_nhKernel None itg.

(** [VVIntegrator::computeKineticEnergy], lines 188-195.  [ke] is what the
    step kernel returns. *)
Definition computeKineticEnergy (ke : R) (itg : VVIntegrator)
    : R * VVIntegrator :=
  (ke, set_forcesAreValid false itg).

End Members.

(** ** Vocabulary of the statements *)

Module Vocabulary.
Import VV.

(** The sum of a list of reals, first element first. *)
Definition Rsum (l : list R) : R := foldl Rplus 0%R l.

Definition is_DrudeForce (f : Force) : bool :=
  match f with DrudeForce _ => true | _ => false end.
Definition is_CMMotionRemover (f : Force) : bool :=
  match f with CMMotionRemover => true | _ => false end.
(** The number of [DrudeForce]s among the forces. *)
Definition count_DrudeForces (fs : list Force) : nat :=
  length (filter (fun f => is_DrudeForce f = true) fs).

(** The calls of lines 225-235 (and 258-268) for an integrator. *)
Definition thermostat_calls (itg : VVIntegrator) : list kernel_call :=
  let cos := Rneqb (cosAcceleration (config itg)) 0 in
  if bool_decide (particlesNH itg ≠ [])
  then (if cos then [CalcVelocityBias; RemoveVelocityBias] else [])
       ++ [CalcGroupKineticEnergies; ScaleVelocity]
       ++ (if cos then [RestoreVelocityBias] else [])
  else [].

(** The calls of lines 247-254: the extra forces. *)
Definition extra_force_calls (itg : VVIntegrator) : list kernel_call :=
  let cos := Rneqb (cosAcceleration (config itg)) 0 in
  let ld := bool_decide (particlesLD itg ≠ []) in
  let ef := bool_decide (particlesElectrolyte itg ≠ []) in
  (if ld || ef || cos then [ResetExtraForce] else [])
  ++ (if ld then [ApplyLangevinForce] else [])
  ++ (if ef then [ApplyElectricForce] else [])
  ++ (if cos then [ApplyCosForce] else []).

(** The particles below [numParticles] whose residue is [r], ascending. *)
Definition residue_members (itg : VVIntegrator) (numParticles r : Z)
    : list Z :=
  filter (fun i => vget (particleResId itg) i = r) (seqZ 0 numParticles).

(** The part of [particlesSortedByResIdVec] that an entry
    [(numOfParticlesInResidue, indexOfFirstParticleInResidue)] of
    [particlesInResiduesVec] delimits. *)
Definition slice (sorted : list Z) (entry : Z * Z) : list Z :=
  take (Z.to_nat entry.1) (drop (Z.to_nat entry.2) sorted).

(** What the loop of lines 302-312 keeps true of its state [(id_start,
    sorted, inRes)], [done] being the residues it went through: the sorted
    vector lists their particles residue by residue, and every entry
    delimits the particles of its residue. *)
Definition sorted_upto (itg : VVIntegrator) (numParticles : Z)
    (done : list Z) (st : Z * list Z * list (Z * Z)) : Prop :=
  st.1.1 = Z.of_nat (length st.1.2) /\
  st.1.2 = concat (residue_members itg numParticles <$> done) /\
  length st.2 = length done /\
  forall (j : nat) r, done !! j = Some r ->
    exists entry,
      st.2 !! j = Some entry /\ (0 <= entry.1)%Z /\ (0 <= entry.2)%Z /\
      (Z.to_nat entry.2 + Z.to_nat entry.1 <= length st.1.2)%nat /\
      slice st.1.2 entry = residue_members itg numParticles r.

(** The kernel holds the vectors of its [NUM_TG] temperature groups. *)
Definition three_groups (st : Cuda.NoseState) : Prop :=
  length (tempGroupNkbT (Cuda.kernel st)) = NUM_TG /\
  length (etaMass (Cuda.kernel st)) = NUM_TG /\
  length (eta (Cuda.kernel st)) = NUM_TG /\
  length (etaDot (Cuda.kernel st)) = NUM_TG /\
  length (etaDotDot (Cuda.kernel st)) = NUM_TG /\
  length (Cuda.kineticEnergiesNHVec st) = NUM_TG.

(** The calls of one pass through the loop of [step], lines 216-268;
    [recompute] says whether the forces are computed before the first half
    (lines 219-222). *)
Definition step_calls (itg : VVIntegrator) (recompute : bool)
    : list kernel_call :=
  [UpdateContextState]
  ++ (if recompute then [CalcForcesAndEnergy] else [])
  ++ thermostat_calls itg ++ [FirstIntegrate]
  ++ (if bool_decide (particlesImage itg ≠ [])
      then [UpdateImagePositions] else [])
  ++ [CalcForcesAndEnergy] ++ extra_force_calls itg
  ++ [SecondIntegrate] ++ thermostat_calls itg.

(** How often [c] is among the calls [l]. *)
Definition occurrences (c : kernel_call) (l : list kernel_call) : nat :=
  length (filter (fun x => x = c) l).

(** A call that adds to the extra force. *)
Definition is_extra_force (c : kernel_call) : Prop :=
  c = ResetExtraForce \/ c = ApplyLangevinForce \/ c = ApplyElectricForce \/
  c = ApplyCosForce.

End Vocabulary.

(** ** Small systems, for examples *)

Module Examples.
Import VV.
Local Open Scope Z_scope.

Definition some_config : Config :=
  {| temperature := 300; frequency := 10; drudeTemperature := 1;
     drudeFrequency := 40; stepSize := 1; numNHChains := 3;
     loopsPerStep := 1; useCOMTempGroup := false; cosAcceleration := 0 |}.

(** Three particles in two molecules, no force. *)
Definition three_particles : System :=
  {| particleMass := [1%R; 1%R; 1%R]; forces := []; constraints := [] |}.
Definition plain_context : ContextImpl :=
  {| getOwner := 7; getSystem := three_particles;
     getMolecules := [[0; 1]; [2]] |}.

(** The same with two [DrudeForce]s. *)
Definition two_drude_context : ContextImpl :=
  {| getOwner := 7;
     getSystem := {| particleMass := [1%R; 1%R; 1%R];
                     forces := [DrudeForce []; DrudeForce []];
                     constraints := [] |};
     getMolecules := [[0; 1]; [2]] |}.

(** A new integrator with particle 0 given to the Langevin thermostat. *)
Definition langevin_on_0 : VVIntegrator :=
  Integrator some_config [0] [] [] [] [] [] [] [] [] None None None false.

(** A new integrator with particle 2 given to the Langevin thermostat. *)
Definition langevin_on_2 : VVIntegrator :=
  Integrator some_config [2] [] [] [] [] [] [] [] [] None None None false.

(** A new integrator after [initialize] with [plain_context]. *)
Definition bound_integrator : VVIntegrator :=
  (initialize 1%R plain_context (VVIntegrator_new some_config)).2.

(** Two particles of one molecule, classified, both thermostatted. *)
Definition two_particles : System :=
  {| particleMass := [1%R; 2%R]; forces := []; constraints := [] |}.
Definition classified_integrator : VVIntegrator :=
  Integrator some_config [] [] [] [] [0; 0] [3%R] [(1 / 3)%R] [0; 1] [0]
    None None None false.

(** Collaborators that never report a change. *)
Definition quiet : Z -> bool := fun _ => false.

(** An atom, a hydrogen bound to it by a constraint, and the Drude
    particle of the atom; one molecule; a [CMMotionRemover]. *)
Definition drude_pairs : list (Z * Z) := [(0, 2)].
Definition drude_system : System :=
  {| particleMass := [12%R; 1%R; (2 / 5)%R];
     forces := [OtherForce; DrudeForce drude_pairs; CMMotionRemover];
     constraints := [(0, 1, (1 / 10)%R)] |}.
Definition drude_context : ContextImpl :=
  {| getOwner := 9; getSystem := drude_system; getMolecules := [[0; 1; 2]] |}.
(** The integrator of that system after the classification. *)
Definition drude_integrator : VVIntegrator :=
  Integrator some_config [] [] [] [] [0; 0; 0] [(67 / 5)%R] [(5 / 67)%R]
    [0; 1; 2] [0] None None None false.

(** A kernel between two steps, with chains of three links. *)
Definition some_state : Cuda.NoseState :=
  {| Cuda.kernel :=
       {| tempGroupDof := [6%R; 0%R; 3%R];
          tempGroupNkbT := [18%R; 0%R; 3%R];
          pairParticlesNHVec := drude_pairs;
          etaMass := [[6%R; 1%R; 1%R]; [0%R; 1%R; 1%R]; [3%R; 1%R; 1%R]];
          eta := [[0%R; 0%R; 0%R]; [0%R; 0%R; 0%R]; [0%R; 0%R; 0%R]];
          etaDot := [[0%R; 0%R; 0%R; 0%R]; [0%R; 0%R; 0%R; 0%R];
                     [0%R; 0%R; 0%R; 0%R]];
          etaDotDot := [[0%R; 0%R; 0%R]; [0%R; 0%R; 0%R]; [0%R; 0%R; 0%R]] |};
     Cuda.kineticEnergiesNHVec := [20%R; 0%R; 2%R];
     Cuda.vscaleFactorsNHVec := [] |}.

(** Three particles of two molecules that are not successive: particles 0
    and 2 make up residue 1, particle 1 is residue 0. *)
Definition interleaved_integrator : VVIntegrator :=
  Integrator some_config [] [] [] [] [1; 0; 1] [1%R; 2%R] [1%R; (1 / 2)%R]
    [0; 1; 2] [1; 0] None None None false.

(** A configuration that asks for the group of the centres of mass. *)
Definition com_config : Config :=
  {| temperature := 300; frequency := 10; drudeTemperature := 1;
     drudeFrequency := 40; stepSize := 1; numNHChains := 3;
     loopsPerStep := 1; useCOMTempGroup := true; cosAcceleration := 0 |}.

(** A bound integrator at the start of a run. *)
Definition bound_world : world := World bound_integrator [] 0.

End Examples.

(** * Properties *)

(** ** Frame of the chain propagator *)

Module NHChainFrame.
Import NHChain.
Section Frame.

Context {D : Type} `{DoubleOps D}.
Variable BOLTZ : D.

Local Abbreviation keeps := (@NHChain.keeps D).
Local Abbreviation untouched := (@NHChain.untouched D).
Local Abbreviation skip := (@NHChain.skip D).

Implicit Types s : @frame D.
Implicit Types a b : @stmt D.
Implicit Types x dt ke t_target stepSize : D.

Lemma untouched_refl n s : untouched n s s.
Proof. repeat split; reflexivity. Qed.

Lemma untouched_trans n (s1 s2 s3 : @frame D) :
  untouched n s1 s2 -> untouched n s2 s3 -> untouched n s1 s3.
Proof.
  intros (Hm & He & Hd & Ha & Hj) (Hm' & He' & Hd' & Ha' & Hj').
  repeat split; try congruence;
    destruct (Hj j) as (? & ? & ?); trivial;
    destruct (Hj' j) as (? & ? & ?); trivial; congruence.
Qed.

Lemma keeps_skip n : keeps n skip.
Proof. intros s. apply untouched_refl. Qed.

Lemma keeps_seq n a b : keeps n a -> keeps n b -> keeps n (a ;> b).
Proof. intros Ha Hb s. eapply untouched_trans; [apply Ha | apply Hb]. Qed.

Ltac keeps_split :=
  repeat match goal with |- keeps _ (seq_stmt _ _) => apply keeps_seq end.

Lemma keeps_for_each n l (body : nat -> @stmt D) :
  (forall i, i ∈ l -> keeps n (body i)) -> keeps n (for_each l body).
Proof.
  unfold for_each. induction l as [|i l IH]; intros Hb s; simpl.
  - apply untouched_refl.
  - eapply untouched_trans.
    + apply (Hb i). left.
    + apply IH. intros k Hk. apply Hb. now right.
Qed.

Lemma keeps_repeat n k (body : @stmt D) : keeps n body -> keeps n (repeat_stmt k body).
Proof.
  intros Hb. induction k as [|k IH]; simpl.
  - apply keeps_skip.
  - now apply keeps_seq.
Qed.

Lemma keeps_set_eta n i x : i < n -> keeps n (set_eta i x).
Proof.
  intros Hi s. unfold untouched, set_eta; simpl.
  rewrite length_insert. repeat split; trivial.
  apply list_lookup_insert_ne. lia.
Qed.

Lemma keeps_set_eta_dot n i x : i < n -> keeps n (set_eta_dot i x).
Proof.
  intros Hi s. unfold untouched, set_eta_dot; simpl.
  rewrite length_insert. repeat split; trivial.
  apply list_lookup_insert_ne. lia.
Qed.

Lemma keeps_set_eta_dotdot n i x : i < n -> keeps n (set_eta_dotdot i x).
Proof.
  intros Hi s. unfold untouched, set_eta_dotdot; simpl.
  rewrite length_insert. repeat split; trivial.
  apply list_lookup_insert_ne. lia.
Qed.

Lemma keeps_set_factor n x : keeps n (set_factor x).
Proof. intros s. repeat split; reflexivity. Qed.

Lemma keeps_set_expfac n x : keeps n (set_expfac x).
Proof. intros s. repeat split; reflexivity. Qed.

Lemma untouched_div_mass n x i s : untouched n s (div_mass x i s).2.
Proof. repeat split; reflexivity. Qed.

Lemma keeps_scale_eta_dot n i : i < n -> keeps n (scale_eta_dot i).
Proof. intros Hi s. now apply keeps_set_eta_dot. Qed.

Lemma keeps_kick_eta_dot n i dt4 : i < n -> keeps n (kick_eta_dot i dt4).
Proof. intros Hi s. now apply keeps_set_eta_dot. Qed.

Lemma keeps_load_expfac n i dt8 : keeps n (load_expfac i dt8).
Proof. intros s. apply keeps_set_expfac. Qed.

Lemma keeps_scale_factor n dt2 : keeps n (scale_factor dt2).
Proof. intros s. apply keeps_set_factor. Qed.

Lemma keeps_drift_eta n dt2 i : i < n -> keeps n (drift_eta dt2 i).
Proof. intros Hi s. now apply keeps_set_eta. Qed.

Lemma keeps_recompute_acc0 n ke2 ke2_target :
  0 < n -> keeps n (recompute_acc0 ke2 ke2_target).
Proof.
  intros Hn s. unfold recompute_acc0, div_mass.
  eapply untouched_trans; [|now apply keeps_set_eta_dotdot].
  repeat split; reflexivity.
Qed.

Lemma keeps_recompute_acc n t_target i :
  i < n -> keeps n (recompute_acc BOLTZ t_target i).
Proof.
  intros Hn s. unfold recompute_acc, div_mass.
  eapply untouched_trans; [|now apply keeps_set_eta_dotdot].
  repeat split; reflexivity.
Qed.

Lemma keeps_init_acc0 n ke2 ke2_target :
  0 < n -> keeps n (init_acc0 ke2 ke2_target).
Proof.
  intros Hn s. unfold init_acc0, div_mass.
  destruct (dgt _ _); [|apply untouched_refl].
  eapply untouched_trans; [|now apply keeps_set_eta_dotdot].
  repeat split; reflexivity.
Qed.

Lemma keeps_inward_body n dt4 dt8 i : i < n -> keeps n (inward_body dt4 dt8 i).
Proof.
  intros Hi. unfold inward_body.
  keeps_split;
    auto using keeps_load_expfac, keeps_scale_eta_dot, keeps_kick_eta_dot.
Qed.

Lemma keeps_outward_body n dt4 dt8 t_target i :
  i < n -> keeps n (outward_body BOLTZ dt4 dt8 t_target i).
Proof.
  intros Hi. unfold outward_body.
  keeps_split;
    auto using keeps_load_expfac, keeps_scale_eta_dot, keeps_kick_eta_dot,
      keeps_recompute_acc.
Qed.

Lemma keeps_sub_iteration numNHChains dt2 dt4 dt8 ke2 ke2_target t_target :
  (1 <= numNHChains)%Z ->
  keeps (Z.to_nat numNHChains)
    (sub_iteration BOLTZ numNHChains dt2 dt4 dt8 ke2 ke2_target t_target).
Proof.
  intros Hn. unfold sub_iteration.
  assert (0 < Z.to_nat numNHChains) by lia.
  keeps_split;
    auto using keeps_scale_factor, keeps_recompute_acc0, keeps_scale_eta_dot,
      keeps_kick_eta_dot.
  - apply keeps_for_each. intros i Hi. apply keeps_inward_body.
    apply elem_of_reverse, elem_of_seq in Hi. lia.
  - apply keeps_for_each. intros i Hi. apply keeps_drift_eta.
    apply elem_of_seq in Hi. lia.
  - apply keeps_for_each. intros i Hi. apply keeps_outward_body.
    apply elem_of_seq in Hi. lia.
Qed.

Lemma keeps_propagateNHChain stepSize loopsPerStep numNHChains
    ke2 ke2_target t_target :
  (1 <= numNHChains)%Z ->
  keeps (Z.to_nat numNHChains)
    (propagateNHChain BOLTZ stepSize loopsPerStep numNHChains ke2 ke2_target
       t_target).
Proof.
  intros Hn. unfold propagateNHChain.
  assert (0 < Z.to_nat numNHChains) by lia.
  keeps_split;
    auto using keeps_set_factor, keeps_init_acc0, keeps_repeat,
      keeps_sub_iteration.
Qed.

Lemma sized_untouched n s s' : untouched n s s' -> sized n s -> sized n s'.
Proof.
  intros (Hm & He & Hd & Ha & _) (Le & Ld & La & Lm).
  unfold sized. rewrite Hm, He, Hd, Ha. auto.
Qed.

(** C9.  A call with [numNHChains >= 1] leaves the terminator entry
    [eta_dot[numNHChains]] as it was, whatever the arithmetic: the call
    changes at most the entries [0 .. numNHChains-1] of [eta], [eta_dot] and
    [eta_dotdot] (and [factor]); the sizes of the vectors and the chain
    masses are unchanged. *)
Theorem C9_terminator_untouched stepSize loopsPerStep numNHChains
    ke2 ke2_target t_target s :
  (1 <= numNHChains)%Z ->
  let s' := propagateNHChain BOLTZ stepSize loopsPerStep numNHChains
              ke2 ke2_target t_target s in
  eta_dot s' !! Z.to_nat numNHChains = eta_dot s !! Z.to_nat numNHChains /\
  eta_dot s' !!! Z.to_nat numNHChains = eta_dot s !!! Z.to_nat numNHChains /\
  untouched (Z.to_nat numNHChains) s s'.
Proof.
  intros Hn s'.
  pose proof (keeps_propagateNHChain stepSize loopsPerStep numNHChains
                ke2 ke2_target t_target Hn s) as Hu.
  fold s' in Hu.
  assert (Hl : eta_dot s' !! Z.to_nat numNHChains
               = eta_dot s !! Z.to_nat numNHChains).
  { destruct Hu as (_ & _ & _ & _ & Hj). now apply Hj. }
  split; [exact Hl | split; [| exact Hu]].
  now rewrite !list_lookup_total_alt, Hl.
Qed.

End Frame.

(** The frame result at a chain of two links over the reals. *)
Lemma C9_terminator_untouched_witness :
  let s := Frame (D:=R) [1%R; 2%R] [3%R; 4%R; 5%R] [6%R; 7%R] [8%R; 9%R]
             0%R 0%R [] in
  let s' := propagateNHChain 1%R 1%R 3 2 1%R 1%R 1%R s in
  eta_dot s' !! 2%nat = Some 5%R /\ eta_dot s' !!! 2%nat = 5%R /\
  untouched 2 s s'.
Proof.
  intros s s'.
  exact (C9_terminator_untouched (D:=R) 1%R 1%R 3 2 1%R 1%R 1%R s
           ltac:(lia)).
Defined.

End NHChainFrame.

(** ** The propagator computes the reference sequence *)

Module NHChainRefines.
Import NHChain.
Section Refines.
Local Open Scope R_scope.

Variable BOLTZ : R.
Implicit Types s : @frame R.

Lemma insert_thrice (l : list R) i a b c :
  <[i:=c]> (<[i:=b]> (<[i:=a]> l)) = <[i:=c]> l.
Proof. now rewrite !list_insert_insert_eq. Qed.

Lemma inward_body_eq dt4 dt8 k s :
  (k < length (eta_dot s))%nat ->
  inward_body dt4 dt8 k s =
  let e := exp (- dt8 * eta_dot s !!! (k + 1)%nat) in
  Frame (eta s)
    (<[k := Reference.half_kick dt4 e (eta_dotdot s !!! k) (eta_dot s !!! k)]>
       (eta_dot s))
    (eta_dotdot s) (eta_mass s) (factor s) e (divisors s).
Proof.
  intros Hk.
  unfold inward_body, seq_stmt, load_expfac, scale_eta_dot, kick_eta_dot,
    set_expfac, set_eta_dot, Reference.half_kick; simpl.
  rewrite !list_lookup_total_insert_eq by (rewrite ?length_insert; lia).
  now rewrite insert_thrice.
Qed.

Lemma inward_loop dt4 dt8 k : forall s,
  (k < length (eta_dot s))%nat ->
  let s' := for_each (reverse (seq 0 k)) (inward_body dt4 dt8) s in
  eta_dot s' = Reference.inward dt4 dt8 k (eta_dot s) (eta_dotdot s) /\
  eta s' = eta s /\ eta_dotdot s' = eta_dotdot s /\
  eta_mass s' = eta_mass s /\ factor s' = factor s /\
  divisors s' = divisors s /\
  ((1 <= k)%nat -> expfac s' = exp (- dt8 * eta_dot s' !!! 1%nat)).
Proof.
  induction k as [|k IH]; intros s Hk.
  - simpl. repeat apply conj; trivial. lia.
  - rewrite seq_S, reverse_app. simpl. unfold for_each; simpl.
    rewrite inward_body_eq by lia. cbv zeta.
    set (s1 := Frame _ _ _ _ _ _ _).
    destruct (IH s1) as (Hd & He & Ha & Hm & Hf & Hv & Hx).
    { simpl. rewrite length_insert. lia. }
    unfold for_each in *.
    repeat apply conj; try (simpl in *; congruence).
    intros _. destruct k as [|k].
    + simpl. rewrite list_lookup_total_insert_ne by lia. reflexivity.
    + apply Hx. lia.
Qed.

Lemma drift_loop dt2 k : forall s,
  let s' := for_each (seq 0 k) (drift_eta dt2) s in
  eta_dot s' = eta_dot s /\ eta_dotdot s' = eta_dotdot s /\
  eta_mass s' = eta_mass s /\ factor s' = factor s /\
  expfac s' = expfac s /\ divisors s' = divisors s /\
  forall j, eta s' !! j =
    if decide (j < k)%nat
    then (fun x => x + dt2 * eta_dot s !!! j) <$> eta s !! j
    else eta s !! j.
Proof.
  induction k as [|k IH]; intros s.
  - simpl. repeat apply conj; trivial.
  - rewrite seq_S. unfold for_each in *. rewrite foldl_app. simpl.
    destruct (IH s) as (Hd & Ha & Hm & Hf & Hx & Hv & He).
    set (s1 := foldl _ s _) in *.
    unfold drift_eta, set_eta; simpl.
    repeat apply conj; trivial.
    intros j. rewrite Hd.
    destruct (decide (j = k)) as [->|Hjk].
    + rewrite decide_True by lia.
      destruct (decide (k < length (eta s1))%nat) as [Hlt|Hge].
      * rewrite list_lookup_insert_eq by trivial.
        rewrite (list_lookup_total_alt (eta s1)), He.
        rewrite decide_False by lia.
        destruct (eta s !! k) as [x|] eqn:Hx0; [reflexivity|].
        exfalso. specialize (He k). rewrite decide_False in He by lia.
        apply lookup_lt_is_Some in Hlt. rewrite He, Hx0 in Hlt.
        now destruct Hlt.
      * rewrite list_insert_ge by lia. rewrite He.
        rewrite decide_False by lia.
        assert (Hn : eta s !! k = None).
        { rewrite <- (decide_False (P := (k < k)%nat)
                       ((fun x => x + dt2 * eta_dot s !!! k) <$> eta s !! k)
                       (eta s !! k)) by lia.
          rewrite <- He. apply lookup_ge_None. lia. }
        now rewrite Hn.
    + rewrite list_lookup_insert_ne by congruence. rewrite He.
      destruct (decide (j < k)%nat), (decide (j < S k)%nat);
        try reflexivity; lia.
Qed.

Lemma drift_loop_advance dt2 k s :
  (length (eta s) <= k)%nat ->
  eta (for_each (seq 0 k) (drift_eta dt2) s) =
  Reference.advance dt2 (eta s) (eta_dot s).
Proof.
  intros Hk. destruct (drift_loop dt2 k s) as (_ & _ & _ & _ & _ & _ & He).
  apply list_eq. intros j. rewrite He. unfold Reference.advance.
  rewrite list_lookup_imap.
  destruct (decide _) as [Hj|Hj]; [reflexivity|].
  rewrite lookup_ge_None_2 by lia. reflexivity.
Qed.

Lemma outward_body_eq dt4 dt8 t_target k s :
  (1 <= k)%nat ->
  (k < length (eta_dot s))%nat -> (k < length (eta_dotdot s))%nat ->
  outward_body BOLTZ dt4 dt8 t_target k s =
  let e := exp (- dt8 * eta_dot s !!! (k + 1)%nat) in
  let a := (eta_mass s !!! (k - 1)%nat * (eta_dot s !!! (k - 1)%nat) ^ 2
            - BOLTZ * t_target) / eta_mass s !!! k in
  Frame (eta s)
    (<[k := Reference.half_kick dt4 e a (eta_dot s !!! k)]> (eta_dot s))
    (<[k := a]> (eta_dotdot s)) (eta_mass s) (factor s) e
    (divisors s ++ [eta_mass s !!! k]).
Proof.
  intros Hk Hd Ha.
  unfold outward_body, seq_stmt, load_expfac, scale_eta_dot, kick_eta_dot,
    recompute_acc, div_mass, set_expfac, set_eta_dot, set_eta_dotdot,
    Reference.half_kick; simpl.
  rewrite !list_lookup_total_insert_eq by (rewrite ?length_insert; lia).
  rewrite list_lookup_total_insert_ne by lia.
  rewrite insert_thrice.
  rewrite !Rmult_1_r, <- !Rmult_assoc. reflexivity.
Qed.

Lemma outward_loop dt4 dt8 t_target k : forall ich s,
  (1 <= ich)%nat ->
  (ich + k <= length (eta_dot s))%nat ->
  (ich + k <= length (eta_dotdot s))%nat ->
  let s' := for_each (seq ich k) (outward_body BOLTZ dt4 dt8 t_target) s in
  (eta_dot s', eta_dotdot s') =
    Reference.outward BOLTZ (eta_mass s) dt4 dt8 t_target k ich
      (eta_dot s) (eta_dotdot s) /\
  eta s' = eta s /\ eta_mass s' = eta_mass s /\ factor s' = factor s.
Proof.
  induction k as [|k IH]; intros ich s Hi Hd Ha.
  - simpl. repeat apply conj; trivial.
  - simpl. unfold for_each; simpl.
    rewrite outward_body_eq by lia. cbv zeta.
    set (s1 := Frame _ _ _ _ _ _ _).
    destruct (IH (S ich) s1) as (Hp & He & Hm & Hf).
    { lia. }
    { simpl. rewrite length_insert. lia. }
    { simpl. rewrite length_insert. lia. }
    unfold for_each in *.
    repeat apply conj; trivial.
Qed.

Lemma innermost_eq ke2 ke2_target dt4 s :
  (0 < length (eta_dot s))%nat -> (0 < length (eta_dotdot s))%nat ->
  (recompute_acc0 ke2 ke2_target ;> scale_eta_dot 0 ;> kick_eta_dot 0 dt4 ;>
   scale_eta_dot 0) s =
  let a := (ke2 * factor s ^ 2 - ke2_target) / eta_mass s !!! 0%nat in
  Frame (eta s)
    (<[0%nat := Reference.half_kick dt4 (expfac s) a (eta_dot s !!! 0%nat)]>
       (eta_dot s))
    (<[0%nat := a]> (eta_dotdot s)) (eta_mass s) (factor s) (expfac s)
    (divisors s ++ [eta_mass s !!! 0%nat]).
Proof.
  intros Hd Ha.
  unfold seq_stmt, scale_eta_dot, kick_eta_dot, recompute_acc0, div_mass,
    set_eta_dot, set_eta_dotdot, Reference.half_kick; simpl.
  rewrite !list_lookup_total_insert_eq by (rewrite ?length_insert; lia).
  rewrite insert_thrice.
  rewrite !Rmult_1_r, <- !Rmult_assoc. reflexivity.
Qed.

Lemma sub_iteration_view numNHChains dt2 dt4 dt8 ke2 ke2_target t_target s :
  (1 <= numNHChains)%Z -> sized (Z.to_nat numNHChains) s ->
  view (sub_iteration BOLTZ numNHChains dt2 dt4 dt8 ke2 ke2_target t_target s)
  = Reference.sub_step BOLTZ (eta_mass s) (Z.to_nat numNHChains)
      dt2 dt4 dt8 ke2 ke2_target t_target (view s).
Proof.
  intros Hn (Le & Ld & La & Lm).
  unfold sub_iteration. set (n := Z.to_nat numNHChains) in *.
  assert (1 <= n)%nat by lia.
  unfold seq_stmt.
  (* 1: the inward sweep *)
  destruct (inward_loop dt4 dt8 n s) as (Hd1 & He1 & Ha1 & Hm1 & Hf1 & _ & Hx1);
    [lia|].
  set (s1 := for_each (reverse (seq 0 n)) _ s) in *.
  specialize (Hx1 ltac:(lia)).
  assert (Ld1 : length (eta_dot s1) = S n).
  { rewrite <- Ld. apply (NHChainFrame.keeps_for_each n).
    intros i Hi. apply NHChainFrame.keeps_inward_body.
    apply elem_of_reverse, elem_of_seq in Hi. lia. }
  (* 2: the scale factor *)
  set (s2 := scale_factor dt2 s1).
  assert (Hd2 : eta_dot s2 = eta_dot s1) by reflexivity.
  assert (Ha2 : eta_dotdot s2 = eta_dotdot s1) by reflexivity.
  assert (He2 : eta s2 = eta s1) by reflexivity.
  assert (Hm2 : eta_mass s2 = eta_mass s1) by reflexivity.
  assert (Hx2 : expfac s2 = expfac s1) by reflexivity.
  assert (Hf2 : factor s2 = factor s1 * exp (- dt2 * eta_dot s1 !!! 0%nat))
    by reflexivity.
  (* 3: the drift of eta *)
  destruct (drift_loop dt2 n s2) as (Hd3 & Ha3 & Hm3 & Hf3 & Hx3 & _ & _).
  pose proof (drift_loop_advance dt2 n s2) as He3.
  set (s3 := for_each (seq 0 n) _ s2) in *.
  rewrite He2, He1 in He3. specialize (He3 ltac:(lia)).
  (* 4: the innermost link *)
  pose proof (innermost_eq ke2 ke2_target dt4 s3) as E.
  unfold seq_stmt in E. rewrite E; clear E;
    [|rewrite ?Hd3, ?Ha3, ?Hd2, ?Ha2, ?Ha1; lia ..].
  cbv zeta. set (s4 := Frame _ _ _ _ _ _ _).
  (* 5: the outward sweep *)
  destruct (outward_loop dt4 dt8 t_target (n - 1) 1 s4) as (Hp & He5 & _ & Hf5);
    [lia | unfold s4; simpl;
            rewrite length_insert, ?Hd3, ?Ha3, ?Hd2, ?Ha2, ?Ha1; lia ..|].
  set (s5 := for_each (seq 1 (n - 1)) _ s4) in *.
  unfold view, Reference.sub_step; simpl.
  rewrite <- Hd1, <- Ha1, <- Hm1, <- Hf1.
  unfold s4 in Hp, He5, Hf5; simpl in Hp, He5, Hf5.
  rewrite Hm3, Hd3, Ha3, Hx3, Hf3 in Hp.
  rewrite Hm2, Hd2, Ha2, Hx2, Hf2, Hx1 in Hp.
  rewrite <- Hp.
  rewrite He5, Hf5, He3, Hf3, Hf2, Hd2. reflexivity.
Qed.

Lemma sub_iteration_sized numNHChains dt2 dt4 dt8 ke2 ke2_target t_target s :
  (1 <= numNHChains)%Z -> sized (Z.to_nat numNHChains) s ->
  sized (Z.to_nat numNHChains)
    (sub_iteration BOLTZ numNHChains dt2 dt4 dt8 ke2 ke2_target t_target s) /\
  eta_mass (sub_iteration BOLTZ numNHChains dt2 dt4 dt8 ke2 ke2_target
              t_target s) = eta_mass s.
Proof.
  intros Hn Hs.
  pose proof (NHChainFrame.keeps_sub_iteration BOLTZ numNHChains dt2 dt4 dt8
                ke2 ke2_target t_target Hn s) as Hu.
  split; [eapply NHChainFrame.sized_untouched; eauto | apply Hu].
Qed.

Lemma repeat_view numNHChains dt2 dt4 dt8 ke2 ke2_target t_target k :
  (1 <= numNHChains)%Z -> forall s, sized (Z.to_nat numNHChains) s ->
  view (repeat_stmt k
          (sub_iteration BOLTZ numNHChains dt2 dt4 dt8 ke2 ke2_target t_target)
          s)
  = Nat.iter k
      (Reference.sub_step BOLTZ (eta_mass s) (Z.to_nat numNHChains)
         dt2 dt4 dt8 ke2 ke2_target t_target) (view s).
Proof.
  intros Hn. induction k as [|k IH]; intros s Hs; [reflexivity|].
  rewrite Nat.iter_succ_r. simpl. unfold seq_stmt.
  destruct (sub_iteration_sized numNHChains dt2 dt4 dt8 ke2 ke2_target
              t_target s Hn Hs) as (Hs' & Hm).
  rewrite IH by exact Hs'. rewrite Hm.
  now rewrite sub_iteration_view.
Qed.

Lemma init_sized n ke2 ke2_target s :
  sized n s -> sized n (init_acc0 ke2 ke2_target (set_factor 1 s)).
Proof.
  intros (Le & Ld & La & Lm). unfold init_acc0, div_mass, sized; simpl.
  destruct (Rgtb _ _); simpl; rewrite ?length_insert; auto.
Qed.

(** C2.  For a chain of [numNHChains >= 1] links with the vectors sized as
    the kernel allocates them, [propagateNHChain] computes the sequence of
    section 4.3: after [factor = 1] and the guarded first
    [eta_dotdot[0]], it runs [loopsPerStep] times the sub-iteration made of
    steps 1 to 5 in that order, with [dt2 = stepSize/loopsPerStep/2],
    [dt4 = dt2/2], [dt8 = dt4/2].  Both sides are functions, so the result
    is determined by the inputs. *)
Theorem C2_propagate_is_reference stepSize loopsPerStep numNHChains
    ke2 ke2_target t_target s :
  (1 <= numNHChains)%Z -> sized (Z.to_nat numNHChains) s ->
  view (propagateNHChain BOLTZ stepSize loopsPerStep numNHChains
          ke2 ke2_target t_target s)
  = Reference.propagate BOLTZ (eta_mass s) (Z.to_nat numNHChains)
      stepSize loopsPerStep ke2 ke2_target t_target
      (Reference.Chain (eta s) (eta_dot s)
         (if Rgtb (eta_mass s !!! 0%nat) 0
          then <[0%nat := (ke2 - ke2_target) / eta_mass s !!! 0%nat]>
                 (eta_dotdot s)
          else eta_dotdot s)
         1).
Proof.
  intros Hn Hs. unfold propagateNHChain, Reference.propagate, seq_stmt.
  cbv zeta.
  rewrite repeat_view by (trivial; now apply init_sized).
  f_equal.
  - unfold init_acc0, div_mass; simpl. now destruct (Rgtb _ _).
  - unfold view, init_acc0, div_mass; simpl. now destruct (Rgtb _ _).
Qed.

End Refines.

(** The refinement at a chain of two links, three sub-iterations. *)
Lemma C2_propagate_is_reference_witness :
  let s := Frame (D:=R) [1%R; 2%R] [3%R; 4%R; 5%R] [6%R; 7%R] [8%R; 9%R]
             0%R 0%R [] in
  view (propagateNHChain 1%R 1%R 3 2 1%R 1%R 1%R s)
  = Reference.propagate 1%R [8%R; 9%R] 2 1%R 3 1%R 1%R 1%R
      (Reference.Chain [1%R; 2%R] [3%R; 4%R; 5%R]
         (if Rgtb 8%R 0%R then <[0%nat := ((1 - 1) / 8)%R]> [6%R; 7%R]
          else [6%R; 7%R])
         1%R).
Proof.
  intros s.
  exact (C2_propagate_is_reference 1%R 1%R 3 2 1%R 1%R 1%R s ltac:(lia)
           ltac:(repeat split; reflexivity)).
Defined.

End NHChainRefines.

(** ** The propagator at a chain mass of zero *)

Module NHChainDivisions.
Import NHChain.
Section Divisions.

Context {D : Type} `{DoubleOps D}.
Variable BOLTZ : D.

Local Abbreviation records := (@NHChain.records D).
Local Abbreviation grows := (@NHChain.grows D).
Implicit Types s : @frame D.
Implicit Types a b : @stmt D.

Lemma grows_refl n s : grows n s s.
Proof.
  split; [reflexivity|]. exists []. rewrite app_nil_r.
  split; [reflexivity | constructor].
Qed.

Lemma grows_trans n (s1 s2 s3 : @frame D) :
  grows n s1 s2 -> grows n s2 s3 -> grows n s1 s3.
Proof.
  intros (Hm & k1 & Hp & Hk1) (Hm' & k2 & Hp' & Hk2).
  split; [congruence|].
  exists (k1 ++ k2). split; [now rewrite Hp', Hp, app_assoc|].
  apply Forall_app. split; [exact Hk1 | now rewrite <- Hm].
Qed.

(** A statement that writes neither the masses nor the record. *)
Lemma grows_same n s s' :
  eta_mass s' = eta_mass s -> divisors s' = divisors s -> grows n s s'.
Proof.
  intros Hm Hd. split; [exact Hm|]. exists []. rewrite app_nil_r.
  split; [exact Hd | constructor].
Qed.

(** A division by the mass of a link below [n]. *)
Lemma grows_div_mass n x i s :
  i < n -> grows n s (div_mass x i s).2.
Proof.
  intros Hi. split; [reflexivity|]. exists [eta_mass s !!! i].
  split; [reflexivity|]. constructor; [now exists i | constructor].
Qed.

Lemma records_seq n a b : records n a -> records n b -> records n (a ;> b).
Proof. intros Ha Hb s. eapply grows_trans; [apply Ha | apply Hb]. Qed.

Lemma records_for_each n l (body : nat -> @stmt D) :
  (forall i, records n (body i)) -> records n (for_each l body).
Proof.
  intros Hb. unfold for_each. induction l as [|i l IH]; intros s; simpl.
  - apply grows_refl.
  - eapply grows_trans; [apply (Hb i) | apply IH].
Qed.

Lemma records_repeat n k (body : @stmt D) :
  records n body -> records n (repeat_stmt k body).
Proof.
  intros Hb. induction k as [|k IH]; simpl.
  - intros s. apply grows_refl.
  - now apply records_seq.
Qed.

Ltac records_split :=
  repeat match goal with |- NHChain.records _ (seq_stmt _ _) =>
    apply records_seq end.

Lemma records_set_factor n x : records n (set_factor x).
Proof. intros s. now apply grows_same. Qed.
Lemma records_scale_eta_dot n i : records n (scale_eta_dot i).
Proof. intros s. now apply grows_same. Qed.
Lemma records_kick_eta_dot n i dt4 : records n (kick_eta_dot i dt4).
Proof. intros s. now apply grows_same. Qed.
Lemma records_load_expfac n i dt8 : records n (load_expfac i dt8).
Proof. intros s. now apply grows_same. Qed.
Lemma records_scale_factor n dt2 : records n (scale_factor dt2).
Proof. intros s. now apply grows_same. Qed.
Lemma records_drift_eta n dt2 i : records n (drift_eta dt2 i).
Proof. intros s. now apply grows_same. Qed.

Lemma records_recompute_acc0 n ke2 ke2_target :
  0 < n -> records n (recompute_acc0 ke2 ke2_target).
Proof.
  intros Hn s.
  exact (grows_div_mass n
           (ke2 * factor s * factor s - ke2_target)%D 0 s Hn).
Qed.

Lemma records_recompute_acc n t_target i :
  i < n -> records n (recompute_acc BOLTZ t_target i).
Proof.
  intros Hi s.
  exact (grows_div_mass n
           (eta_mass s !!! (i - 1)%nat * eta_dot s !!! (i - 1)%nat
            * eta_dot s !!! (i - 1)%nat - BOLTZ * t_target)%D i s Hi).
Qed.

Lemma records_init_acc0 n ke2 ke2_target :
  0 < n -> records n (init_acc0 ke2 ke2_target).
Proof.
  intros Hn s. unfold init_acc0. destruct (dgt _ _); [|apply grows_refl].
  exact (grows_div_mass n (ke2 - ke2_target)%D 0 s Hn).
Qed.

Lemma records_inward_body n dt4 dt8 i : records n (inward_body dt4 dt8 i).
Proof.
  unfold inward_body. records_split;
    auto using records_load_expfac, records_scale_eta_dot,
      records_kick_eta_dot.
Qed.

Lemma records_outward_body n dt4 dt8 t_target i :
  i < n -> records n (outward_body BOLTZ dt4 dt8 t_target i).
Proof.
  intros Hi. unfold outward_body. records_split;
    auto using records_load_expfac, records_scale_eta_dot,
      records_kick_eta_dot, records_recompute_acc.
Qed.

(** Line 296 divides by [eta_mass[0]] in every sub-iteration, whatever the
    mass is; all divisors are masses of the chain. *)
Lemma sub_iteration_divides numNHChains dt2 dt4 dt8 ke2 ke2_target t_target s :
  let s' := sub_iteration BOLTZ numNHChains dt2 dt4 dt8 ke2 ke2_target
              t_target s in
  grows (Nat.max 1 (Z.to_nat numNHChains)) s s' /\
  eta_mass s !!! 0 ∈ divisors s'.
Proof.
  unfold sub_iteration.
  set (n := Z.to_nat numNHChains). set (m := Nat.max 1 n).
  set (before := for_each (reverse (seq 0 n)) (inward_body dt4 dt8) ;>
                 scale_factor dt2 ;> for_each (seq 0 n) (drift_eta dt2)).
  set (after := scale_eta_dot 0 ;> kick_eta_dot 0 dt4 ;> scale_eta_dot 0 ;>
                for_each (seq 1 (n - 1)) (outward_body BOLTZ dt4 dt8 t_target)).
  assert (Hb : records m before).
  { unfold before. records_split; auto using records_scale_factor.
    - apply records_for_each. intros i. apply records_inward_body.
    - apply records_for_each. intros i. apply records_drift_eta. }
  assert (Ha : records m after).
  { unfold after. records_split;
      auto using records_scale_eta_dot, records_kick_eta_dot.
    unfold for_each. generalize (eq_refl (seq 1 (n - 1))).
    generalize (seq 1 (n - 1)) at 1 3 as l.
    intros l Hl s0.
    assert (Hin : Forall (fun i => i < m) l).
    { rewrite Hl. apply Forall_forall. intros i Hi.
      apply elem_of_seq in Hi. lia. }
    clear Hl. revert s0.
    induction Hin as [|i l Hi _ IH]; intros s0; simpl.
    - apply grows_refl.
    - eapply grows_trans;
        [exact (records_outward_body m dt4 dt8 t_target i Hi s0) | apply IH]. }
  change (let s' := after (recompute_acc0 ke2 ke2_target (before s)) in
          grows m s s' /\ eta_mass s !!! 0 ∈ divisors s').
  intros s'.
  destruct (Hb s) as (Hm1 & Hp1).
  destruct (Ha (recompute_acc0 ke2 ke2_target (before s)))
    as (Hm2 & rest & Hp2 & _).
  fold s' in Hm2, Hp2. split.
  - eapply grows_trans; [apply Hb|].
    eapply grows_trans; [apply records_recompute_acc0; lia | apply Ha].
  - rewrite Hp2. simpl. rewrite Hm1.
    apply elem_of_app; left. apply elem_of_app; right. left.
Qed.

Lemma records_sub_iteration numNHChains dt2 dt4 dt8 ke2 ke2_target t_target :
  records (Nat.max 1 (Z.to_nat numNHChains))
    (sub_iteration BOLTZ numNHChains dt2 dt4 dt8 ke2 ke2_target t_target).
Proof.
  intros s.
  apply (sub_iteration_divides numNHChains dt2 dt4 dt8 ke2 ke2_target
           t_target s).
Qed.

Lemma repeat_divides numNHChains dt2 dt4 dt8 ke2 ke2_target t_target k s :
  1 <= k ->
  eta_mass s !!! 0 ∈
    divisors (repeat_stmt k (sub_iteration BOLTZ numNHChains dt2 dt4 dt8
                               ke2 ke2_target t_target) s).
Proof.
  intros Hk. destruct k as [|k]; [lia|]. simpl. unfold seq_stmt.
  destruct (sub_iteration_divides numNHChains dt2 dt4 dt8 ke2 ke2_target
              t_target s) as (_ & Hin).
  cbv zeta in Hin.
  set (s1 := sub_iteration _ _ _ _ _ _ _ _ s) in *.
  destruct (records_repeat _ k _
              (records_sub_iteration numNHChains dt2 dt4 dt8 ke2 ke2_target
                 t_target) s1) as (_ & rest & -> & _).
  apply elem_of_app. now left.
Qed.

(** All of a call: the masses stay, and what is added to the record are
    masses of the chain. *)
Lemma records_propagateNHChain stepSize loopsPerStep numNHChains
    ke2 ke2_target t_target :
  records (Nat.max 1 (Z.to_nat numNHChains))
    (propagateNHChain BOLTZ stepSize loopsPerStep numNHChains
       ke2 ke2_target t_target).
Proof.
  unfold propagateNHChain. cbv zeta. records_split.
  - apply records_set_factor.
  - apply records_init_acc0. lia.
  - apply records_repeat, records_sub_iteration.
Qed.

(** Whenever at least one sub-iteration runs, the call divides by
    [eta_mass[0]]; the guard of line 282 covers line 283 only. *)
Lemma propagate_divides_by_head_mass stepSize loopsPerStep numNHChains
    ke2 ke2_target t_target s :
  (1 <= loopsPerStep)%Z ->
  eta_mass s !!! 0 ∈
    divisors (propagateNHChain BOLTZ stepSize loopsPerStep numNHChains
                ke2 ke2_target t_target s).
Proof.
  intros Hl. unfold propagateNHChain, seq_stmt. cbv zeta.
  set (s0 := init_acc0 ke2 ke2_target (set_factor (d_of_Z 1) s)).
  replace (eta_mass s) with (eta_mass s0).
  - apply repeat_divides. lia.
  - unfold s0.
    apply (records_init_acc0 1 ke2 ke2_target ltac:(lia)
             (set_factor (d_of_Z 1) s)).
Qed.


End Divisions.
End NHChainDivisions.

(** ** The propagator over the reals: rest and zero mass *)

Module NHChainReals.
Import NHChain.
Section Resting.
Local Open Scope R_scope.

Variable BOLTZ : R.
Implicit Types s : @frame R.
Implicit Types a b : @stmt R.


Lemma Rgtb_false x y : x <= y -> Rgtb x y = false.
Proof. intros Hx. unfold Rgtb. destruct (Rgt_dec x y); [lra | reflexivity]. Qed.


















End Resting.


(** C1.  The code at a chain mass of zero.  (a) The chain the kernel makes
    for a temperature group without degrees of freedom ([eta_mass[0] = 0],
    everything else zero, both kinetic energies zero): the guard of line 282
    skips line 283, and line 296 then divides by the zero mass; the factor
    of this call, computed before that division, is 1.  (b) The same mass
    with [eta_dot[0] = 1]: the factor returned is [exp(-2)], not 1; no
    division precedes it. *)
Theorem C1_zero_mass_is_divided_by :
  (let s := enter (D:=R) [0%R] [0%R; 0%R] [0%R] [0%R] 0%R in
   eta_mass s !!! 0%nat = 0%R /\
   divisors (propagateNHChain 1%R 1%R 1 1 0%R 0%R 300%R s) = [0%R] /\
   factor (propagateNHChain 1%R 1%R 1 1 0%R 0%R 300%R s) = 1%R) /\
  (let s := enter (D:=R) [0%R] [1%R; 0%R] [0%R] [0%R] 0%R in
   eta_mass s !!! 0%nat = 0%R /\
   factor (propagateNHChain 1%R 4%R 1 1 0%R 0%R 300%R s) = exp (-2) /\
   exp (-2) <> 1%R).
Proof.
  split.
  - split; [reflexivity|]. split.
    + cbv -[Rplus Rmult Rminus Rdiv Ropp Rinv exp IZR Rgtb].
      rewrite Rgtb_false by lra. reflexivity.
    + cbv -[Rplus Rmult Rminus Rdiv Ropp Rinv exp IZR Rgtb].
      rewrite Rgtb_false by lra.
      cbv -[Rplus Rmult Rminus Rdiv Ropp Rinv exp IZR Rgtb].
      rewrite !Rmult_0_l, Rplus_0_l, Rmult_0_l, Rmult_0_r, exp_0. lra.
  - split; [reflexivity|]. split.
    + cbv -[Rplus Rmult Rminus Rdiv Ropp Rinv exp IZR Rgtb].
      rewrite Rgtb_false by lra.
      cbv -[Rplus Rmult Rminus Rdiv Ropp Rinv exp IZR Rgtb].
      replace (- (4 / 1 / 2 / 2 / 2) * 0)%R with 0%R by lra.
      rewrite exp_0, Rmult_1_l. f_equal. lra.
    + intros He. pose proof (exp_increasing (-2) 0 ltac:(lra)) as Hlt.
      rewrite exp_0, He in Hlt. lra.
Qed.

End NHChainReals.

(** ** Image pairs *)

Module ImagePairs.
Import VV Examples.
Local Open Scope Z_scope.

Lemma to_int_small n : 0 <= n < 2 ^ 31 -> to_int n = n.
Proof.
  intros Hn. unfold to_int. rewrite Z.mod_small; lia.
Qed.

Lemma to_int_min : to_int (2 ^ 31) = - 2 ^ 31.
Proof. reflexivity. Qed.

(** The [k]-th call on an integrator that holds [m] pairs returns
    [to_int (m + k)]. *)
Lemma addImagePairs_returns l : forall itg,
  (addImagePairs l itg).1 =
  (fun k => to_int (Z.of_nat (length (imagePairs itg) + k)))
    <$> seq 1 (length l).
Proof.
  induction l as [|[image parent] l IH]; intros itg; [reflexivity|].
  simpl.
  destruct (addImagePairs l _) as [rs itg''] eqn:E.
  simpl. f_equal.
  - rewrite length_app. simpl. reflexivity.
  - change rs with (rs, itg'').1. rewrite <- E, IH. simpl.
    rewrite length_app. simpl.
    rewrite <- (fmap_S_seq 1), <- list_fmap_compose.
    apply list_fmap_ext. intros _ k _. simpl. do 2 f_equal. lia.
Qed.

Lemma addImagePairs_pairs l : forall itg,
  imagePairs (addImagePairs l itg).2 = imagePairs itg ++ l.
Proof.
  induction l as [|[image parent] l IH]; intros itg; simpl.
  - now rewrite app_nil_r.
  - destruct (addImagePairs l _) as [rs itg''] eqn:E. simpl.
    change itg'' with (rs, itg'').2. rewrite <- E, IH. simpl.
    now rewrite <- app_assoc.
Qed.

(** C8, as the code has it.  On a new integrator, as long as no more than
    [2^31 - 1] pairs are registered, the [k]-th call of [addImagePair]
    returns [k]: the calls return 1, 2, 3, ... in the order of
    registration, and the pairs are kept in that order. *)
Theorem C8_addImagePair_counts c (l : list (Z * Z)) :
  Z.of_nat (length l) < 2 ^ 31 ->
  (addImagePairs l (VVIntegrator_new c)).1 = Z.of_nat <$> seq 1 (length l) /\
  imagePairs (addImagePairs l (VVIntegrator_new c)).2 = l.
Proof.
  intros Hl. split.
  - rewrite addImagePairs_returns. simpl.
    apply list_fmap_ext. intros i k Hk.
    apply lookup_seq in Hk. apply to_int_small. lia.
  - now rewrite addImagePairs_pairs.
Qed.

(** Three registrations return 1, 2 and 3. *)
Lemma C8_addImagePair_counts_witness :
  (addImagePairs [(5, 6); (7, 8); (5, 6)] (VVIntegrator_new some_config)).1
  = [1; 2; 3].
Proof.
  exact (proj1 (C8_addImagePair_counts some_config [(5, 6); (7, 8); (5, 6)]
                  ltac:(simpl; lia))).
Defined.

Lemma addImagePairs_overflow c (n : nat) :
  Z.of_nat n = 2 ^ 31 ->
  last (addImagePairs (replicate n (0, 0)) (VVIntegrator_new c)).1
  = Some (- 2 ^ 31) /\
  (addImagePairs (replicate n (0, 0)) (VVIntegrator_new c)).1
  <> Z.of_nat <$> seq 1 (length (replicate n (0, 0))).
Proof.
  intros Hn. rewrite addImagePairs_returns, length_replicate.
  change (length (imagePairs (VVIntegrator_new c))) with 0%nat.
  assert (Hlast : forall f : nat -> Z, last (f <$> seq 1 n) = Some (f n)).
  { intros f. rewrite last_lookup, length_fmap, length_seq, list_lookup_fmap.
    rewrite lookup_seq_lt by lia.
    replace (1 + Nat.pred n)%nat with n by lia. reflexivity. }
  split.
  - rewrite Hlast. f_equal. rewrite Nat.add_0_l, Hn. apply to_int_min.
  - intros Heq. apply (f_equal last) in Heq. rewrite !Hlast in Heq.
    injection Heq as Heq. rewrite ?Nat.add_0_l, Hn, to_int_min in Heq. lia.
Qed.

(** C8 as stated fails at the [2^31]-th call: the count no longer fits the
    [int] that is returned, and the call returns [-2^31]. *)
Lemma C8_counterexample :
  last (addImagePairs (replicate (Z.to_nat (2 ^ 31)) (0, 0))
          (VVIntegrator_new some_config)).1
  = Some (- 2 ^ 31) /\
  (addImagePairs (replicate (Z.to_nat (2 ^ 31)) (0, 0))
     (VVIntegrator_new some_config)).1
  <> Z.of_nat <$> seq 1 (length (replicate (Z.to_nat (2 ^ 31)) (0, 0))).
Proof.
  exact (addImagePairs_overflow some_config (Z.to_nat (2 ^ 31))
           (Z2Nat.id (2 ^ 31) (Z.pow_nonneg 2 31 (Z.lt_le_incl 0 2 eq_refl)))).
Qed.

End ImagePairs.

(** ** Stepping *)

Module Stepping.
Import VV.
Section Steps.
Local Open Scope Z_scope.

Variable stateChanged : Z -> bool.
Variable atomsWereReordered : Z -> bool.

Local Abbreviation one_step := (VV.one_step stateChanged atomsWereReordered).
Local Abbreviation step := (VV.step stateChanged atomsWereReordered).

Local Abbreviation effect := (VV.effect).

Lemma count_calls_emit c c' w :
  count_calls c (emit c' w) =
  (count_calls c w + if decide (c' = c) then 1 else 0)%nat.
Proof.
  unfold count_calls, emit; simpl.
  rewrite filter_app, length_app. f_equal.
  rewrite filter_cons, filter_nil. now destruct (decide (c' = c)).
Qed.

Lemma effect_refl w : effect 0 0 0 w w.
Proof. unfold VV.effect. repeat split; lia. Qed.

Lemma effect_trans a1 b1 d1 a2 b2 d2 w1 w2 w3 :
  effect a1 b1 d1 w1 w2 -> effect a2 b2 d2 w2 w3 ->
  effect (a1 + a2) (b1 + b2) (d1 + d2) w1 w3.
Proof.
  intros (F & S & C & X) (F' & S' & C' & X'). unfold VV.effect.
  rewrite F', F, S', S, C', C, X', X. repeat split; lia.
Qed.

Lemma effect_emit c w :
  effect (if decide (c = FirstIntegrate) then 1 else 0)
         (if decide (c = SecondIntegrate) then 1 else 0) 0 w (emit c w).
Proof.
  unfold VV.effect. rewrite !count_calls_emit. simpl. repeat split; lia.
Qed.

Lemma effect_set_valid b w : effect 0 0 0 w (set_valid b w).
Proof. unfold VV.effect, count_calls; simpl. repeat split; lia. Qed.

Lemma effect_tick w :
  effect 0 0 1 w (World (integrator w) (calls w) (stepCount w + 1)).
Proof. unfold VV.effect, count_calls; simpl. repeat split; lia. Qed.

Lemma effect_when (c : bool) f a b d w :
  (forall w, effect a b d w (f w)) ->
  effect (if c then a else 0) (if c then b else 0) (if c then d else 0)
    w (when c f w).
Proof. intros Hf. destruct c; simpl; [apply Hf | apply effect_refl]. Qed.

Lemma effect_eq a b d a' b' d' w w' :
  effect a b d w w' -> a = a' -> b = b' -> d = d' -> effect a' b' d' w w'.
Proof. now intros He <- <- <-. Qed.

Ltac peel :=
  repeat match goal with
         | |- VV.effect _ _ _ ?w ?w => apply effect_refl
         | |- VV.effect _ _ _ _ (emit _ _) =>
             eapply effect_trans; [|apply effect_emit]
         | |- VV.effect _ _ _ _ (set_valid _ _) =>
             eapply effect_trans; [|apply effect_set_valid]
         | |- VV.effect _ _ _ _ (World (integrator _) (calls _) (stepCount _ + 1)) =>
             eapply effect_trans; [|apply effect_tick]
         | |- VV.effect _ _ _ _ (when _ _ _) =>
             eapply effect_trans; [|apply effect_when; intros; cbv beta]
         end.

Ltac case_ifs :=
  simpl;
  repeat match goal with
         | |- context [if ?b then _ else _] =>
             match type of b with bool => destruct b; simpl end
         end; lia.

(** The thermostat block integrates nothing. *)
Lemma effect_thermostat w : effect 0 0 0 w (thermostat w).
Proof.
  unfold thermostat. cbv zeta.
  eapply effect_eq; [peel | case_ifs ..].
Qed.

(** One pass of the loop body integrates each half once and advances the
    step count by one; the binding stays. *)
Lemma one_step_effect w : effect 1 1 1 w (one_step w).
Proof.
  unfold one_step. cbv zeta.
  eapply effect_eq.
  - eapply effect_trans; [|apply effect_thermostat]. peel.
    eapply effect_trans; [|apply effect_thermostat]. peel.
  - case_ifs.
  - case_ifs.
  - case_ifs.
Qed.

Lemma iter_effect k w :
  effect k k (Z.of_nat k) w (Nat.iter k one_step w).
Proof.
  induction k as [|k IH]; simpl.
  - apply effect_refl.
  - eapply effect_eq;
      [eapply effect_trans; [apply IH | apply one_step_effect] | lia ..].
Qed.

(** C6.  On an integrator that is not bound to a context, [step(n)] throws
    [UnboundUsage] for every [n] and leaves the world as it was: nothing is
    called.  On a bound one it returns after running the loop body
    [n] times ([0] times when [n < 0]): each half of the integration is
    called that many times more and the step count advances by as much. *)
Theorem C6_step_needs_binding (n : Z) (w : world) :
  (context (integrator w) = None -> step n w = (inl UnboundUsage, w)) /\
  (context (integrator w) <> None ->
     step n w = (inr tt, Nat.iter (Z.to_nat n) one_step w) /\
     count_calls FirstIntegrate (step n w).2
       = (count_calls FirstIntegrate w + Z.to_nat n)%nat /\
     count_calls SecondIntegrate (step n w).2
       = (count_calls SecondIntegrate w + Z.to_nat n)%nat /\
     stepCount (step n w).2 = stepCount w + Z.max 0 n).
Proof.
  unfold VV.step. split; intros Hc.
  - now rewrite Hc.
  - destruct (context (integrator w)); [|contradiction]. simpl.
    destruct (iter_effect (Z.to_nat n) w) as (H1 & H2 & H3 & _).
    repeat split; trivial. rewrite H3. lia.
Qed.

End Steps.

Lemma bound_integrator_is_bound :
  (initialize 1%R Examples.plain_context
     (VVIntegrator_new Examples.some_config)).1 = inr tt /\
  context Examples.bound_integrator = Some Examples.plain_context /\
  owner Examples.bound_integrator = Some 7%nat.
Proof. repeat split; reflexivity. Qed.

(** [step(3)] on a new integrator and on a bound one. *)
Lemma C6_step_needs_binding_witness :
  let unbound := World (VVIntegrator_new Examples.some_config) [] 0 in
  let bound := World Examples.bound_integrator [] 0 in
  VV.step Examples.quiet Examples.quiet 3 unbound = (inl UnboundUsage, unbound)
  /\ count_calls FirstIntegrate
       (VV.step Examples.quiet Examples.quiet 3 bound).2 = 3%nat
  /\ stepCount (VV.step Examples.quiet Examples.quiet 3 bound).2 = 3%Z.
Proof.
  intros unbound bound. split.
  - exact (proj1 (C6_step_needs_binding Examples.quiet Examples.quiet 3
                    unbound) eq_refl).
  - destruct (proj2 (C6_step_needs_binding Examples.quiet Examples.quiet 3
                       bound) ltac:(discriminate)) as (_ & H1 & _ & H3).
    split; [exact H1 | exact H3].
Defined.

End Stepping.

(** ** Binding: what [initialize] throws *)

Module Binding.
Import VV.
Section Throws.
Local Open Scope Z_scope.

Variable BOLTZ : R.

Lemma throws_only_ret {A} P (a : A) : throws_only P (mret a).
Proof. intros itg e itg' [=]. Qed.

Lemma throws_only_bind {A B} P (m : M A) (f : A -> M B) :
  throws_only P m -> (forall a, throws_only P (f a)) ->
  throws_only P (m ≫= f).
Proof.
  intros Hm Hf itg e itg'. unfold mbind, M_bind.
  destruct (m itg) as [[e0|a] itg0] eqn:E.
  - intros [= <- <-]. eapply Hm, E.
  - apply Hf.
Qed.

Lemma throws_only_throw {A} (P : OpenMMException -> Prop) e :
  P e -> throws_only P (throw (A:=A) e).
Proof. now intros He itg e' itg' [= <- _]. Qed.

Lemma throws_only_read {A} P (f : VVIntegrator -> A) : throws_only P (read f).
Proof. intros itg e itg' [=]. Qed.

Lemma throws_only_update P f : throws_only P (update f).
Proof. intros itg e itg' [=]. Qed.

Lemma throws_only_call {A} (P : OpenMMException -> Prop)
    (f : VVIntegrator -> result A) :
  (forall itg e, f itg = inl e -> P e) -> throws_only P (call f).
Proof. intros Hf itg e itg' [= He _]. eapply Hf, He. Qed.

Lemma throws_only_for_in {A} P (l : list A) body :
  (forall x, throws_only P (body x)) -> throws_only P (for_in l body).
Proof.
  intros Hb. induction l as [|x l IH]; simpl.
  - apply throws_only_ret.
  - apply throws_only_bind; [apply Hb | intros _; apply IH].
Qed.

Lemma throws_only_if {A} P (c : bool) (m1 m2 : M A) :
  throws_only P m1 -> throws_only P m2 ->
  throws_only P (if c then m1 else m2).
Proof. now destruct c. Qed.

Lemma checked_get_throws {A} `{Inhabited A} (v : list A) i e :
  checked_get v i = inl e -> e = IndexOutOfRange.
Proof. unfold checked_get. destruct (decide _); now intros [=]. Qed.

Lemma find_DrudeForce_throws fs : forall force e,
  find_DrudeForce fs force = inl e -> e = MultipleForceDefinition.
Proof.
  induction fs as [|[pairs| |] fs IH]; intros force e; simpl.
  - intros [=].
  - destruct force; [now intros [=] | apply IH].
  - apply IH.
  - apply IH.
Qed.

Lemma count_particles_throws sys itg l : forall dof e,
  count_particles sys itg l dof = inl e -> e = IndexOutOfRange.
Proof.
  induction l as [|i l IH]; intros dof e; simpl; [intros [=]|].
  unfold count_particle, mbind, result_bind.
  destruct (getParticleResId itg i) as [e0|resid] eqn:E1.
  { intros [= <-]. eapply checked_get_throws, E1. }
  destruct (getResInvMass itg resid) as [e0|m] eqn:E2.
  { intros [= <-]. eapply checked_get_throws, E2. }
  simpl. apply IH.
Qed.

Lemma NoseKernel_initialize_throws sys itg force e :
  NoseKernel_initialize BOLTZ sys itg force = inl e -> e = IndexOutOfRange.
Proof.
  unfold NoseKernel_initialize, account_dof, mbind, result_bind.
  destruct (count_particles _ _ _ _) as [e0|dof] eqn:E; [|intros [=]].
  intros [= <-]. eapply count_particles_throws, E.
Qed.

Ltac throws :=
  repeat match goal with
         | |- throws_only _ (_ ≫= _) => apply throws_only_bind; [|intros]
         | |- throws_only _ (if _ then _ else _) => apply throws_only_if
         | |- throws_only _ (for_in _ _) =>
             apply throws_only_for_in; intros
         | |- throws_only _ (mret _) => apply throws_only_ret
         | |- throws_only _ (read _) => apply throws_only_read
         | |- throws_only _ (update _) => apply throws_only_update
         end.

Lemma classify_throws contextRef :
  throws_only after_binding (classify contextRef).
Proof.
  unfold classify, classify_NH, check_LD. throws.
  - apply throws_only_call. intros itg e He. right; right.
    eapply checked_get_throws, He.
  - apply throws_only_call. intros itg e He. right; right.
    eapply checked_get_throws, He.
  - apply throws_only_throw. right; left. right; left. reflexivity.
Qed.

(** After the binding check, [initialize] throws one of the conflicts of
    the configuration, the multiple-force error, or an index error. *)
Lemma configure_throws contextRef :
  throws_only after_binding (configure BOLTZ contextRef).
Proof.
  unfold configure. cbv zeta. throws.
  - apply throws_only_call. intros itg e He. left.
    eapply find_DrudeForce_throws, He.
  - apply throws_only_throw. right; left. left. reflexivity.
  - apply classify_throws.
  - apply throws_only_throw. right; left. right; right. reflexivity.
  - apply throws_only_call. intros itg e He. right; right.
    eapply NoseKernel_initialize_throws, He.
Qed.

Lemma BindingConflict_not_after : ~ after_binding BindingConflict.
Proof.
  intros [H | [[H | [H | H]] | H]]; discriminate H.
Qed.

(** C10.  [initialize] throws the binding conflict exactly when the
    integrator has an owner and the context given has another one.  So on an
    integrator that is already bound, [initialize] with a context of the same
    owner does not throw it. *)
Theorem C10_binding_conflict_only_for_other_owner contextRef itg :
  ((initialize BOLTZ contextRef itg).1 = inl BindingConflict <->
   exists o, owner itg = Some o /\ getOwner contextRef <> o) /\
  (owner itg = Some (getOwner contextRef) ->
   (initialize BOLTZ contextRef itg).1 <> inl BindingConflict).
Proof.
  assert (Hpass : forall itg0,
            (configure BOLTZ contextRef itg0).1 <> inl BindingConflict).
  { intros itg0 He.
    destruct (configure BOLTZ contextRef itg0) as [r itg1] eqn:E.
    simpl in He. subst r.
    apply BindingConflict_not_after.
    eapply configure_throws, E. }
  unfold initialize, check_binding, read, mbind, M_bind.
  destruct (owner itg) as [o|] eqn:Ho.
  - destruct (decide (getOwner contextRef = o)) as [Heq|Hne]; simpl.
    + split.
      * split; [intros He; now apply Hpass in He|].
        intros (o' & [= <-] & Hne). contradiction.
      * intros _. apply Hpass.
    + split.
      * split; [intros _; now exists o | reflexivity].
      * intros [= Heq]. now subst o.
  - simpl. split.
    + split; [intros He; now apply Hpass in He|].
      intros (o' & [=] & _).
    + intros [=].
Qed.

End Throws.

(** Binding again to the context of the same owner. *)
Lemma C10_binding_conflict_only_for_other_owner_witness :
  (initialize 1%R Examples.plain_context Examples.bound_integrator).1
  <> inl BindingConflict.
Proof.
  exact (proj2 (C10_binding_conflict_only_for_other_owner 1%R
                  Examples.plain_context Examples.bound_integrator) eq_refl).
Defined.

End Binding.

(** ** Classification of particles and residues *)

Module Classification.
Import VV.
Section Classify.
Local Open Scope Z_scope.

Implicit Types itg : VVIntegrator.

Lemma checked_get_in_range {A} `{Inhabited A} (v : list A) i :
  0 <= i < Z.of_nat (length v) -> checked_get v i = inr (vget v i).
Proof.
  intros Hi. unfold checked_get. destruct (decide _); [lia | reflexivity].
Qed.

Lemma same_but_NH_refl itg : same_but_NH itg itg.
Proof. now destruct itg. Qed.

Lemma same_but_NH_fields itg itg' :
  same_but_NH itg itg' ->
  particlesLD itg' = particlesLD itg /\
  particlesImage itg' = particlesImage itg /\
  particleResId itg' = particleResId itg /\
  config itg' = config itg /\
  context itg' = context itg /\ owner itg' = owner itg.
Proof. intros ->. repeat split. Qed.

Lemma same_but_NH_trans itg1 itg2 itg3 :
  same_but_NH itg1 itg2 -> same_but_NH itg2 itg3 -> same_but_NH itg1 itg3.
Proof.
  unfold same_but_NH. intros H12 H23. rewrite H23 at 1. rewrite H12 at 1.
  reflexivity.
Qed.

(** Lines 123-130 for one particle with a residue. *)
Lemma classify_NH_run i itg :
  0 <= i < Z.of_nat (length (particleResId itg)) ->
  exists itg',
    classify_NH i itg = (inr tt, itg') /\ same_but_NH itg itg' /\
    particlesNH itg' =
      particlesNH itg ++ (if thermostatted_NH itg i then [i] else []) /\
    forall r, r ∈ residuesNH itg' <->
              r ∈ residuesNH itg \/
              (thermostatted_NH itg i = true /\
               vget (particleResId itg) i = r).
Proof.
  intros Hi. unfold classify_NH, thermostatted_NH, read, update, call, mbind,
    M_bind, getParticleResId.
  destruct (negb (isParticleLD itg i) && negb (isParticleImage itg i)).
  - simpl. rewrite checked_get_in_range by exact Hi.
    destruct (bool_decide_reflect (vget (particleResId itg) i ∈ residuesNH itg))
      as [Hin|Hout].
    + eexists. split; [reflexivity|]. split; [now destruct itg|].
      split; [reflexivity|]. simpl. intros r. split; [auto|].
      intros [Hr | [_ <-]]; trivial.
    + eexists. split; [reflexivity|]. split; [now destruct itg|].
      split; [reflexivity|]. simpl. intros r.
      rewrite elem_of_app, list_elem_of_singleton.
      intuition congruence.
  - exists itg. split; [reflexivity|]. split; [apply same_but_NH_refl|].
    split; [now rewrite app_nil_r|]. intros r.
    intuition discriminate.
Qed.

(** Lines 123-130, the loop. *)
Lemma classify_NH_loop l : forall itg,
  (forall i, i ∈ l -> 0 <= i < Z.of_nat (length (particleResId itg))) ->
  exists itg',
    for_in l classify_NH itg = (inr tt, itg') /\ same_but_NH itg itg' /\
    particlesNH itg' =
      particlesNH itg ++ filter (fun i => thermostatted_NH itg i = true) l /\
    forall r, r ∈ residuesNH itg' <->
              r ∈ residuesNH itg \/
              exists i, i ∈ l /\ thermostatted_NH itg i = true /\
                        vget (particleResId itg) i = r.
Proof.
  induction l as [|i l IH]; intros itg Hl.
  - exists itg. split; [reflexivity|]. split; [apply same_but_NH_refl|].
    split; [now rewrite app_nil_r|]. intros r. split; [auto|].
    intros [Hr | (i & Hi & _)]; trivial. now apply elem_of_nil in Hi.
  - destruct (classify_NH_run i itg) as (itg1 & E1 & S1 & P1 & R1).
    { apply Hl. left. }
    destruct (same_but_NH_fields _ _ S1) as (HLD & HIm & HId & _).
    assert (Hth : forall k, thermostatted_NH itg1 k = thermostatted_NH itg k).
    { intros k. unfold thermostatted_NH, isParticleLD, isParticleImage.
      now rewrite HLD, HIm. }
    destruct (IH itg1) as (itg2 & E2 & S2 & P2 & R2).
    { intros k Hk. rewrite HId. apply Hl. now right. }
    exists itg2. split.
    { simpl. unfold mbind, M_bind. now rewrite E1. }
    split; [eapply same_but_NH_trans; eassumption|]. split.
    + rewrite P2, P1, <- app_assoc. f_equal.
      rewrite filter_cons.
      rewrite (list_filter_iff _ (fun k => thermostatted_NH itg k = true))
        by (intros k; now rewrite Hth).
      now destruct (thermostatted_NH itg i).
    + intros r. rewrite R2, R1, HId.
      setoid_rewrite Hth. setoid_rewrite elem_of_cons.
      split.
      * intros [[Hr | [Hi <-]] | (k & Hk & Hk' & <-)]; eauto 7.
      * intros [Hr | (k & [-> | Hk] & Hk' & <-)]; eauto 7.
Qed.

(** Lines 131-136 for one particle with a residue: the state is not
    touched. *)
Lemma check_LD_run i itg :
  0 <= i < Z.of_nat (length (particleResId itg)) ->
  check_LD i itg =
  (if isParticleLD itg i &&
      bool_decide (vget (particleResId itg) i ∈ residuesNH itg)
   then inl NHLangevinConflict else inr tt, itg).
Proof.
  intros Hi. unfold check_LD, read, call, throw, mbind, M_bind,
    getParticleResId.
  destruct (isParticleLD itg i); [|reflexivity]. simpl.
  rewrite checked_get_in_range by exact Hi.
  now destruct (bool_decide _).
Qed.

(** Lines 131-136, the loop: it throws exactly when some Langevin particle
    has its residue in [residuesNH]. *)
Lemma check_LD_loop l itg :
  (forall i, i ∈ l -> 0 <= i < Z.of_nat (length (particleResId itg))) ->
  (Exists (LD_in_NH_residue itg) l ->
   for_in l check_LD itg = (inl NHLangevinConflict, itg)) /\
  (~ Exists (LD_in_NH_residue itg) l ->
   for_in l check_LD itg = (inr tt, itg)).
Proof.
  induction l as [|i l IH]; intros Hl.
  - split; [intros He; inversion He | reflexivity].
  - destruct IH as [IH1 IH2]; [intros k Hk; apply Hl; now right|].
    simpl. unfold mbind, M_bind. rewrite check_LD_run by (apply Hl; left).
    destruct (isParticleLD itg i) eqn:HLD; simpl.
    + destruct (bool_decide_reflect
                  (vget (particleResId itg) i ∈ residuesNH itg)) as [Hin|Hout].
      * split; [reflexivity|]. intros Hn. exfalso. apply Hn. left. now split.
      * split; intros He.
        -- apply IH1. apply Exists_cons in He as [[_ Hin]|He]; [|exact He].
           contradiction.
        -- apply IH2. intros He'. apply He. now right.
    + split; intros He.
      * apply IH1. apply Exists_cons in He as [[HLD' _]|He]; [|exact He].
        congruence.
      * apply IH2. intros He'. apply He. now right.
Qed.

Lemma assign_residues_length n molecules :
  length (assign_residues n molecules) = Z.to_nat n.
Proof.
  unfold assign_residues.
  generalize (imap (fun i molecule => (i, molecule)) molecules) as ms.
  assert (G : forall ms ids, length
            (foldl (fun ids '(i, molecule) =>
                      foldl (fun ids p => vset ids p (Z.of_nat i)) ids molecule)
                   ids ms) = length ids).
  { induction ms as [|[i molecule] ms IH]; intros ids; simpl; [reflexivity|].
    rewrite IH. clear IH. revert ids.
    induction molecule as [|p molecule IHm]; intros ids; simpl; [reflexivity|].
    rewrite IHm. unfold vset. destruct (decide _); [reflexivity|].
    apply length_insert. }
  intros ms. rewrite G. apply length_replicate.
Qed.

Lemma classify_unfold contextRef itg :
  classify contextRef itg =
  let n := getNumParticles (getSystem contextRef) in
  match for_in (seqZ 0 n) classify_NH (with_residues contextRef itg) with
  | (inl e, itg') => (inl e, itg')
  | (inr _, itg') => for_in (seqZ 0 n) check_LD itg'
  end.
Proof. reflexivity. Qed.

(** Lines 108-136 throw the conflict when a residue holds a Langevin
    particle and a Nose-Hoover particle, and return when no residue does and
    [residuesNH] was empty. *)
Lemma classify_outcome contextRef itg :
  (mixed_residue contextRef itg ->
   (classify contextRef itg).1 = inl NHLangevinConflict) /\
  (residuesNH itg = [] -> ~ mixed_residue contextRef itg ->
   (classify contextRef itg).1 = inr tt).
Proof.
  rewrite classify_unfold. cbv zeta.
  set (n := getNumParticles (getSystem contextRef)).
  set (itg0 := with_residues contextRef itg).
  assert (Hids : particleResId itg0 =
                 assign_residues n (getMolecules contextRef)) by reflexivity.
  assert (Hlen : Z.of_nat (length (particleResId itg0)) = n).
  { rewrite Hids, assign_residues_length. unfold n, getNumParticles. lia. }
  assert (Hth : forall k, thermostatted_NH itg0 k = thermostatted_NH itg k)
    by reflexivity.
  destruct (classify_NH_loop (seqZ 0 n) itg0) as (itg1 & E1 & S1 & _ & R1).
  { intros i Hi. apply elem_of_seqZ in Hi. lia. }
  rewrite E1.
  destruct (same_but_NH_fields _ _ S1) as (HLD & _ & HId & _).
  destruct (check_LD_loop (seqZ 0 n) itg1) as [Hthrow Hpass].
  { intros i Hi. apply elem_of_seqZ in Hi. rewrite HId. lia. }
  split.
  - intros (i & j & Hi & Hj & Hres & Hi_LD & Hj_NH).
    rewrite Hthrow; [reflexivity|].
    apply Exists_exists. exists i. split; [apply elem_of_seqZ; lia|].
    split; [unfold isParticleLD; now rewrite HLD|].
    rewrite HId, Hids. apply R1. right. exists j.
    split; [apply elem_of_seqZ; lia|]. split; [now rewrite Hth|].
    now rewrite Hids.
  - intros Hfresh Hno. rewrite Hpass; [reflexivity|].
    intros He. apply Exists_exists in He as (i & Hi & Hi_LD & Hin).
    apply elem_of_seqZ in Hi.
    apply R1 in Hin as [Hin | (j & Hj & Hj_NH & Hres)].
    + change (residuesNH itg0) with (residuesNH itg) in Hin.
      rewrite Hfresh in Hin. now apply elem_of_nil in Hin.
    + apply elem_of_seqZ in Hj. apply Hno. exists i, j.
      rewrite HId in Hres. fold n.
      split; [lia|]. split; [lia|]. split; [symmetry; exact Hres|].
      split; [|exact Hj_NH].
      unfold isParticleLD in *. now rewrite HLD in Hi_LD.
Qed.

Lemma check_LD_loop_state l itg :
  (forall i, i ∈ l -> 0 <= i < Z.of_nat (length (particleResId itg))) ->
  (for_in l check_LD itg).2 = itg.
Proof.
  induction l as [|i l IH]; intros Hl; [reflexivity|].
  simpl. unfold mbind, M_bind. rewrite check_LD_run by (apply Hl; left).
  destruct (_ && _); [reflexivity|].
  apply IH. intros k Hk. apply Hl. now right.
Qed.

Lemma sum_residue_masses_length sys ids n :
  length (sum_residue_masses sys ids n) = n.
Proof.
  unfold sum_residue_masses.
  generalize (seqZ 0 (getNumParticles sys)) as l.
  assert (G : forall l ms,
            length (foldl (fun ms i =>
                      vset ms (vget ids i)
                        (vget ms (vget ids i) + getParticleMass sys i)%R)
                      ms l) = length ms).
  { induction l as [|i l IH]; intros ms; simpl; [reflexivity|].
    rewrite IH. unfold vset. destruct (decide _); [reflexivity|].
    apply length_insert. }
  intros l. rewrite G. apply length_replicate.
Qed.

(** What the classification of a first binding leaves: when every particle
    of the system is in a molecule, the tables cover the system, and
    [particlesNH] lists, once each, the particles of the system that are
    neither Langevin particles nor images. *)
Lemma classify_tables contextRef itg itg' :
  particlesNH itg = [] ->
  (forall i, 0 <= i < getNumParticles (getSystem contextRef) ->
     0 <= vget (assign_residues (getNumParticles (getSystem contextRef))
                  (getMolecules contextRef)) i
       < Z.of_nat (length (getMolecules contextRef))) ->
  classify contextRef itg = (inr tt, itg') ->
  (forall i, 0 <= i < getNumParticles (getSystem contextRef) ->
     classified itg' i) /\
  NoDup (particlesNH itg') /\
  (forall p, p ∈ particlesNH itg' <->
     0 <= p < getNumParticles (getSystem contextRef) /\
     thermostatted_NH itg p = true) /\
  config itg' = config itg.
Proof.
  intros Hempty Hmol. rewrite classify_unfold. cbv zeta.
  set (n := getNumParticles (getSystem contextRef)) in *.
  set (itg0 := with_residues contextRef itg).
  assert (Hlen : Z.of_nat (length (particleResId itg0)) = n).
  { change (particleResId itg0)
      with (assign_residues n (getMolecules contextRef)).
    rewrite assign_residues_length. unfold n, getNumParticles. lia. }
  destruct (classify_NH_loop (seqZ 0 n) itg0) as (itg1 & E1 & S1 & P1 & _).
  { intros i Hi. apply elem_of_seqZ in Hi. lia. }
  rewrite E1.
  assert (HId : particleResId itg1 = particleResId itg0) by now rewrite S1.
  assert (HInv : residueInvMasses itg1 = residueInvMasses itg0)
    by now rewrite S1.
  assert (HCfg : config itg1 = config itg) by now rewrite S1.
  pose proof (check_LD_loop_state (seqZ 0 n) itg1) as Hst.
  destruct (for_in (seqZ 0 n) check_LD itg1) as [r itg2].
  intros [= -> <-]. simpl in Hst. rewrite Hst.
  2:{ intros i Hi. apply elem_of_seqZ in Hi. rewrite HId. lia. }
  change (particlesNH itg0) with (particlesNH itg) in P1.
  rewrite Hempty in P1. simpl in P1.
  split; [|split; [|split]]; trivial.
  - intros i Hi.
    exists (vget (particleResId itg0) i),
           (vget (residueInvMasses itg0) (vget (particleResId itg0) i)).
    unfold getParticleResId, getResInvMass. rewrite HId, HInv. split.
    + apply checked_get_in_range. lia.
    + apply checked_get_in_range.
      specialize (Hmol i Hi).
      change (particleResId itg0)
        with (assign_residues n (getMolecules contextRef)).
      change (residueInvMasses itg0)
        with (residueInvMasses itg ++
              ((fun m => 1 / m)%R <$>
               sum_residue_masses (getSystem contextRef)
                 (assign_residues n (getMolecules contextRef))
                 (length (getMolecules contextRef)))).
      rewrite length_app, length_fmap, sum_residue_masses_length. lia.
  - rewrite P1. apply NoDup_filter, NoDup_seqZ.
  - intros p. rewrite P1, list_elem_of_filter, elem_of_seqZ.
    change (thermostatted_NH itg0 p) with (thermostatted_NH itg p).
    intuition lia.
Qed.

Variable BOLTZ : R.

(** When the checks before it pass, [initialize] throws what the
    classification throws. *)
Lemma initialize_reaches_classify contextRef itg force :
  owner itg = None \/ owner itg = Some (getOwner contextRef) ->
  find_DrudeForce (forces (getSystem contextRef)) None = inr force ->
  (force = None -> useCOMTempGroup (config itg) = false) ->
  forall e, (classify contextRef itg).1 = inl e ->
            (initialize BOLTZ contextRef itg).1 = inl e.
Proof.
  intros Hb Hf Hc e He.
  unfold initialize, configure, check_binding, read, call, throw, mbind,
    M_bind. cbv zeta.
  assert (Hpass : (match owner itg with
                   | Some o' => if decide (getOwner contextRef = o')
                                then mret tt else throw BindingConflict
                   | None => mret tt
                   end) itg = (inr tt, itg)).
  { destruct Hb as [-> | ->]; [reflexivity|].
    now rewrite decide_True by reflexivity. }
  unfold throw in Hpass. rewrite Hpass, Hf.
  assert (Hcom : bool_decide (force = None) && useCOMTempGroup (config itg)
                 = false).
  { destruct (bool_decide_reflect (force = None)) as [Hn|Hn]; [|reflexivity].
    now rewrite (Hc Hn). }
  rewrite Hcom. simpl.
  destruct (classify contextRef itg) as [[e'|[]] itg']; simpl in *;
    congruence.
Qed.

(** The classification leaves the binding alone. *)
Lemma classify_keeps_binding contextRef itg :
  context (classify contextRef itg).2 = context itg /\
  owner (classify contextRef itg).2 = owner itg.
Proof.
  rewrite classify_unfold. cbv zeta.
  set (n := getNumParticles (getSystem contextRef)).
  set (itg0 := with_residues contextRef itg).
  assert (Hlen : Z.of_nat (length (particleResId itg0)) = n).
  { change (particleResId itg0)
      with (assign_residues n (getMolecules contextRef)).
    rewrite assign_residues_length. unfold n, getNumParticles. lia. }
  destruct (classify_NH_loop (seqZ 0 n) itg0) as (itg1 & E1 & S1 & _).
  { intros i Hi. apply elem_of_seqZ in Hi. lia. }
  rewrite E1, check_LD_loop_state.
  - rewrite S1. split; reflexivity.
  - intros i Hi. apply elem_of_seqZ in Hi.
    replace (particleResId itg1) with (particleResId itg0) by now rewrite S1.
    lia.
Qed.

(** [Unbound -> Bound]: when [initialize] returns, the integrator is bound
    to the context it was given; when it throws one of its own exceptions,
    the binding is as it was. *)
Lemma initialize_binding contextRef itg :
  match initialize BOLTZ contextRef itg with
  | (inr _, itg') =>
      context itg' = Some contextRef /\ owner itg' = Some (getOwner contextRef)
  | (inl e, itg') =>
      e <> IndexOutOfRange ->
      context itg' = context itg /\ owner itg' = owner itg
  end.
Proof.
  unfold initialize, configure, check_binding, read, call, throw, update,
    mbind, M_bind. cbv zeta.
  destruct (owner itg) as [o|] eqn:Ho;
    [destruct (decide (getOwner contextRef = o)); simpl; [|auto]|simpl];
    (destruct (find_DrudeForce _ _) as [e0|force]; [auto|]);
    (destruct (bool_decide (force = None) && _); simpl; [auto|]);
    destruct (classify_keeps_binding contextRef itg) as [Hc Hw];
    (destruct (classify contextRef itg) as [[e'|[]] itg']; simpl in *;
     [intros _; split; congruence|]);
    (destruct (bool_decide _ && Rneqb _ _); simpl;
     [intros _; split; congruence|]);
    (destruct (bool_decide _); [|now split]);
    (destruct (NoseKernel_initialize _ _ _ _) as [e'|k] eqn:Ek; simpl;
     [|now split]);
    apply (Binding.NoseKernel_initialize_throws BOLTZ) in Ek; subst e';
    intros Hn; now contradiction Hn.
Qed.

(** C5, as the code has it.  Let the checks that come first pass: the
    integrator is unbound or bound to the same owner, the system has at most
    one [DrudeForce], and the COM group is not asked for without one.  Then
    (a) if some residue holds a Langevin particle and a Nose-Hoover
    particle, [initialize] throws the conflict that says the two
    thermostats cannot be applied to the same molecule; (b) if no residue
    does, on a first binding, the classification returns and [initialize]
    does not throw that conflict. *)
Theorem C5_mixed_residue_conflict contextRef itg force :
  owner itg = None \/ owner itg = Some (getOwner contextRef) ->
  find_DrudeForce (forces (getSystem contextRef)) None = inr force ->
  (force = None -> useCOMTempGroup (config itg) = false) ->
  (mixed_residue contextRef itg ->
   (initialize BOLTZ contextRef itg).1 = inl NHLangevinConflict /\
   ConfigurationConflict NHLangevinConflict) /\
  (residuesNH itg = [] -> ~ mixed_residue contextRef itg ->
   (classify contextRef itg).1 = inr tt /\
   (initialize BOLTZ contextRef itg).1 <> inl NHLangevinConflict).
Proof.
  intros Hb Hf Hc.
  destruct (classify_outcome contextRef itg) as [Hthrow Hpass].
  split.
  - intros Hmix. split; [|right; left; reflexivity].
    eapply initialize_reaches_classify; eauto.
  - intros Hfresh Hno. specialize (Hpass Hfresh Hno).
    split; [exact Hpass|].
    unfold initialize, configure, check_binding, read, call, throw, update,
      mbind, M_bind. cbv zeta.
    destruct Hb as [-> | ->]; [|rewrite decide_True by reflexivity];
      simpl; rewrite Hf;
      (destruct (bool_decide (force = None) && _); [discriminate|]); simpl;
      destruct (classify contextRef itg) as [[e'|[]] itg']; simpl in *;
      try discriminate;
      (destruct (bool_decide _ && Rneqb _ _); [discriminate|]); simpl;
      (destruct (bool_decide _); [|discriminate]);
      (destruct (NoseKernel_initialize _ _ _ _) as [e'|k] eqn:Ek;
       [|discriminate]); simpl;
      apply (Binding.NoseKernel_initialize_throws BOLTZ) in Ek; subst e';
      discriminate.
Qed.

End Classify.

Lemma mixed_example (c : ContextImpl) :
  getNumParticles (getSystem c) = 3%Z ->
  getMolecules c = [[0; 1]; [2]]%Z ->
  mixed_residue c Examples.langevin_on_0.
Proof.
  intros Hn Hm. exists 0%Z, 1%Z. rewrite Hn, Hm.
  repeat split; try lia; reflexivity.
Qed.

Lemma not_mixed_example :
  ~ mixed_residue Examples.plain_context Examples.langevin_on_2.
Proof.
  intros (i & j & Hi & Hj & Hres & HLD & HNH).
  change (getNumParticles (getSystem Examples.plain_context)) with 3%Z
    in Hi, Hj.
  assert (Hi' : i = 0%Z \/ i = 1%Z \/ i = 2%Z) by lia.
  assert (Hj' : j = 0%Z \/ j = 1%Z \/ j = 2%Z) by lia.
  destruct Hi' as [-> | [-> | ->]]; try discriminate HLD;
    destruct Hj' as [-> | [-> | ->]]; try discriminate HNH;
    discriminate Hres.
Qed.

(** Particles 0 and 1 share a molecule.  With 0 as a Langevin particle and
    1 not, binding throws the conflict; with particle 2, alone in its
    molecule, as the Langevin particle, the classification returns. *)
Lemma C5_mixed_residue_conflict_witness :
  (initialize 1%R Examples.plain_context Examples.langevin_on_0).1
  = inl NHLangevinConflict /\
  (classify Examples.plain_context Examples.langevin_on_2).1 = inr tt.
Proof.
  split.
  - exact (proj1 (proj1 (C5_mixed_residue_conflict 1%R Examples.plain_context
                           Examples.langevin_on_0 None
                           (or_introl eq_refl) eq_refl (fun _ => eq_refl))
                    (mixed_example Examples.plain_context eq_refl eq_refl))).
  - exact (proj1 (proj2 (C5_mixed_residue_conflict 1%R Examples.plain_context
                           Examples.langevin_on_2 None
                           (or_introl eq_refl) eq_refl (fun _ => eq_refl))
                    eq_refl not_mixed_example)).
Defined.

(** C5 as stated fails when an earlier check fails: with the same mixed
    residue in a system of two [DrudeForce]s, binding throws the
    multiple-force error, which is no configuration conflict. *)
Lemma C5_counterexample :
  mixed_residue Examples.two_drude_context Examples.langevin_on_0 /\
  (initialize 1%R Examples.two_drude_context Examples.langevin_on_0).1
  = inl MultipleForceDefinition /\
  MultipleForceDefinition <> NHLangevinConflict /\
  ~ ConfigurationConflict MultipleForceDefinition.
Proof.
  split; [apply mixed_example; reflexivity|].
  split; [reflexivity|]. split; [discriminate|].
  intros [H | [H | H]]; discriminate H.
Qed.

End Classification.

(** ** Degrees of freedom *)

Module DegreesOfFreedom.
Import VV.
Section Accounting.
Local Open Scope R_scope.

Implicit Types dof : list R.

Lemma Rneqb_true x y : x <> y -> Rneqb x y = true.
Proof. intros Hx. unfold Rneqb. now destruct (Req_dec_T x y). Qed.

Lemma std_max_nonneg x : 0 <= std_max x 0.
Proof. unfold std_max. destruct (Rlt_dec x 0); lra. Qed.

Lemma std_max_id x : 0 <= x -> std_max x 0 = x.
Proof. intros Hx. unfold std_max. destruct (Rlt_dec x 0); lra. Qed.

Lemma add_dof_length tg x dof : length (add_dof tg x dof) = length dof.
Proof. apply length_insert. Qed.

Lemma count_particles_length sys itg l : forall dof dof',
  count_particles sys itg l dof = inr dof' -> length dof' = length dof.
Proof.
  induction l as [|i l IH]; intros dof dof'; simpl.
  - now intros [= <-].
  - unfold count_particle, mbind, result_bind.
    destruct (getParticleResId itg i) as [e|resid]; [intros [=]|].
    destruct (getResInvMass itg resid) as [e|m]; [intros [=]|].
    simpl. intros Hc. apply IH in Hc. rewrite Hc.
    destruct (_ && _); [|reflexivity].
    destruct (useCOMTempGroup _); now rewrite ?add_dof_length.
Qed.

Lemma count_pairs_length itg force dof :
  length (count_pairs itg force dof) = length dof.
Proof.
  destruct force as [pairs|]; [|reflexivity]. simpl. revert dof.
  induction pairs as [|pr pairs IH]; intros dof; simpl; [reflexivity|].
  rewrite IH. unfold count_pair.
  destruct (isParticleNH _ _); now rewrite ?add_dof_length.
Qed.

Lemma count_constraints_length itg cs : forall dof,
  length (foldl (count_constraint itg) dof cs) = length dof.
Proof.
  induction cs as [|c cs IH]; intros dof; simpl; [reflexivity|].
  rewrite IH. unfold count_constraint.
  destruct (isParticleNH _ _); now rewrite ?add_dof_length.
Qed.

Lemma count_residues_length itg dof :
  length (count_residues itg dof) = length dof.
Proof.
  unfold count_residues. destruct (useCOMTempGroup _); [|reflexivity].
  apply length_insert.
Qed.

Lemma count_cm_remover_length itg fs dof :
  length (count_cm_remover itg fs dof) = length dof.
Proof.
  induction fs as [|[pairs| |] fs IH]; simpl; trivial.
  destruct (useCOMTempGroup _); apply add_dof_length.
Qed.

Lemma clamp_dof_nonneg dof : Forall (fun d => 0 <= d) (clamp_dof dof).
Proof.
  unfold clamp_dof. apply Forall_fmap, Forall_forall.
  intros x _. apply std_max_nonneg.
Qed.

Lemma account_dof_clamped sys itg force dof :
  account_dof sys itg force = inr dof ->
  length dof = NUM_TG /\ Forall (fun d => 0 <= d) dof.
Proof.
  unfold account_dof, mbind, result_bind.
  destruct (count_particles _ _ _ _) as [e|dof0] eqn:E; [intros [=]|].
  intros [= <-]. split; [|apply clamp_dof_nonneg].
  unfold clamp_dof.
  rewrite length_fmap, count_cm_remover_length, count_residues_length,
    count_constraints_length, count_pairs_length.
  apply count_particles_length in E. now rewrite E, length_replicate.
Qed.

Lemma count_particles_returns sys itg l : forall dof,
  (forall i, i ∈ l -> classified itg i) ->
  exists dof', count_particles sys itg l dof = inr dof'.
Proof.
  induction l as [|i l IH]; intros dof Hl; simpl; [now eexists|].
  destruct (Hl i) as (r & m & Hr & Hm); [left|].
  unfold count_particle, mbind, result_bind. rewrite Hr, Hm. simpl.
  apply IH. intros k Hk. apply Hl. now right.
Qed.

Variable BOLTZ : R.

(** The kernel's [initialize] returns when the classification tables cover
    the particles of the system. *)
Lemma NoseKernel_initialize_returns sys itg force :
  (forall i, (0 <= i < getNumParticles sys)%Z -> classified itg i) ->
  exists k, NoseKernel_initialize BOLTZ sys itg force = inr k.
Proof.
  intros Hwf.
  destruct (count_particles_returns sys itg (seqZ 0 (getNumParticles sys))
              (replicate NUM_TG 0)) as [dof E].
  { intros i Hi. apply elem_of_seqZ in Hi. apply Hwf. lia. }
  unfold NoseKernel_initialize, account_dof, mbind, result_bind.
  rewrite E. now eexists.
Qed.

(** C7.  When the kernel's [initialize] returns, there are three
    temperature groups and the count of degrees of freedom of each (atoms,
    centres of mass, Drude pairs) is at least zero, whatever the particles,
    Drude pairs, constraints, COM grouping and forces of the system. *)
Theorem C7_dof_never_negative sys itg force k :
  NoseKernel_initialize BOLTZ sys itg force = inr k ->
  length (tempGroupDof k) = 3%nat /\
  0 <= tempGroupDof k !!! TG_ATOM /\
  0 <= tempGroupDof k !!! TG_COM /\
  0 <= tempGroupDof k !!! TG_DRUDE /\
  Forall (fun d => 0 <= d) (tempGroupDof k).
Proof.
  unfold NoseKernel_initialize, mbind, result_bind.
  destruct (account_dof sys itg force) as [e|dof] eqn:E; [intros [=]|].
  intros [= <-]. simpl.
  destruct (account_dof_clamped _ _ _ _ E) as [Hlen Hall].
  split; [exact Hlen|].
  assert (Hat : forall tg, 0 <= dof !!! tg).
  { intros tg. destruct (dof !! tg) as [d|] eqn:Hd.
    - rewrite (list_lookup_total_correct _ _ _ Hd).
      eapply Forall_lookup_1 in Hall; eauto.
    - rewrite list_lookup_total_alt, Hd. simpl. lra. }
  auto.
Qed.

Lemma count_particle_atoms sys itg i a :
  useCOMTempGroup (config itg) = false ->
  classified itg i ->
  count_particle sys itg i [a; 0; 0] =
  inr [a + (if isParticleNH itg i && Rneqb (getParticleMass sys i) 0
            then 3 else 0); 0; 0].
Proof.
  intros Hcom (r & m & Hr & Hm).
  unfold count_particle, mbind, result_bind. rewrite Hr, Hm, Hcom. simpl.
  destruct (_ && _); simpl; [reflexivity|].
  do 2 f_equal. lra.
Qed.

Lemma count_particles_atoms sys itg l : forall a,
  useCOMTempGroup (config itg) = false ->
  (forall i, i ∈ l -> classified itg i) ->
  count_particles sys itg l [a; 0; 0] =
  inr [a + 3 * INR (length
         (filter (fun i => isParticleNH itg i
                           && Rneqb (getParticleMass sys i) 0 = true) l));
       0; 0].
Proof.
  induction l as [|i l IH]; intros a Hcom Hl.
  - simpl. do 2 f_equal. lra.
  - simpl. rewrite count_particle_atoms by (trivial; apply Hl; left).
    unfold mbind, result_bind.
    rewrite IH by (trivial; intros k Hk; apply Hl; now right).
    rewrite filter_cons.
    destruct (isParticleNH itg i && Rneqb (getParticleMass sys i) 0) eqn:E.
    + rewrite decide_True by reflexivity.
      rewrite length_cons, S_INR. do 2 f_equal. lra.
    + rewrite decide_False by discriminate. do 2 f_equal. lra.
Qed.

Lemma count_cm_remover_absent itg fs dof :
  CMMotionRemover ∉ fs -> count_cm_remover itg fs dof = dof.
Proof.
  induction fs as [|f fs IH]; intros Hn; [reflexivity|].
  assert (Hf : f <> CMMotionRemover) by (intros ->; apply Hn; left).
  assert (Hfs : CMMotionRemover ∉ fs) by (intros Hin; apply Hn; now right).
  destruct f; simpl; auto; contradiction.
Qed.

(** The thermostatted particles of the system are as many as the entries of
    a duplicate-free [particlesNH] within the system. *)
Lemma NH_particles_counted sys itg :
  NoDup (particlesNH itg) ->
  (forall p, p ∈ particlesNH itg ->
             (0 <= p < getNumParticles sys)%Z /\ getParticleMass sys p <> 0) ->
  length (filter (fun i => isParticleNH itg i
                           && Rneqb (getParticleMass sys i) 0 = true)
            (seqZ 0 (getNumParticles sys)))
  = length (particlesNH itg).
Proof.
  intros Hnd Hin. apply Permutation_length, NoDup_Permutation; trivial.
  - apply NoDup_filter, NoDup_seqZ.
  - intros p. rewrite list_elem_of_filter, elem_of_seqZ.
    unfold isParticleNH. split.
    + intros [Hp _]. apply andb_prop in Hp as [Hp _].
      now apply bool_decide_eq_true in Hp.
    + intros Hp. destruct (Hin p Hp) as [Hr Hm]. split; [|lia].
      rewrite bool_decide_true by exact Hp. now rewrite Rneqb_true.
Qed.

(** C3.  No Drude pair, no constraint, no COM group, no
    [CMMotionRemover]; the classification tables cover the system; and the
    [N] Nose-Hoover particles are particles of the system with a mass other
    than zero.  Then the accounting returns, with exactly [3 N] degrees of
    freedom for the atoms (and none for the two other groups). *)
Theorem C3_atom_dof_is_3N sys itg force :
  useCOMTempGroup (config itg) = false ->
  force = None \/ force = Some [] ->
  constraints sys = [] ->
  CMMotionRemover ∉ forces sys ->
  (forall i, (0 <= i < getNumParticles sys)%Z -> classified itg i) ->
  NoDup (particlesNH itg) ->
  (forall p, p ∈ particlesNH itg ->
             (0 <= p < getNumParticles sys)%Z /\ getParticleMass sys p <> 0) ->
  exists k,
    NoseKernel_initialize BOLTZ sys itg force = inr k /\
    tempGroupDof k !!! TG_ATOM = 3 * INR (length (particlesNH itg)) /\
    tempGroupDof k = [3 * INR (length (particlesNH itg)); 0; 0].
Proof.
  intros Hcom Hpairs Hcons Hcm Hwf Hnd Hin.
  assert (E : account_dof sys itg force =
              inr [3 * INR (length (particlesNH itg)); 0; 0]).
  { unfold account_dof, mbind, result_bind.
    change (replicate NUM_TG 0) with [0; 0; 0].
    rewrite count_particles_atoms; trivial.
    2:{ intros i Hi. apply elem_of_seqZ in Hi. apply Hwf. lia. }
    rewrite NH_particles_counted by trivial.
    rewrite Hcons. simpl.
    replace (count_pairs itg force _)
      with [0 + 3 * INR (length (particlesNH itg)); 0; 0]
      by (destruct Hpairs as [-> | ->]; reflexivity).
    unfold count_residues. rewrite Hcom.
    rewrite count_cm_remover_absent by exact Hcm.
    unfold clamp_dof. simpl.
    rewrite !std_max_id by (try lra; pose proof (pos_INR
      (length (particlesNH itg))); lra).
    do 2 f_equal. lra. }
  unfold NoseKernel_initialize, mbind, result_bind. rewrite E.
  eexists. split; [reflexivity|]. simpl. split; reflexivity.
Qed.

Lemma init_links_head tgKbT tgMass n (ed : list R) :
  forall em edd : list R,
  (init_links tgKbT tgMass n em ed edd).1 !!! 0%nat = em !!! 0%nat.
Proof.
  unfold init_links.
  assert (G : forall l, Forall (fun ich => (1 <= ich)%nat) l ->
            forall em edd : list R,
              (foldl (fun '(em, edd) ich =>
                        let em := <[ich := tgMass]> em in
                        (em, <[ich := (em !!! (ich - 1)%nat
                                       * ed !!! (ich - 1)%nat
                                       * ed !!! (ich - 1)%nat - tgKbT)
                                      / em !!! ich]> edd))
                     (em, edd) l).1 !!! 0%nat = em !!! 0%nat).
  { induction l as [|ich l IH]; intros Hl em edd; [reflexivity|].
    apply Forall_cons in Hl as [Hich Hl]. simpl. rewrite IH by exact Hl.
    apply list_lookup_total_insert_ne. lia. }
  intros em edd. apply G. apply Forall_forall. intros ich Hich.
  apply elem_of_seq in Hich. lia.
Qed.

(** A temperature group without degrees of freedom gets a first chain
    mass of zero and a chain at rest (lines 383-396). *)
Lemma empty_group_chain sys itg force k (tg : nat) :
  NoseKernel_initialize BOLTZ sys itg force = inr k ->
  (tg < NUM_TG)%nat -> (1 <= numNHChains (config itg))%Z ->
  tempGroupDof k !!! tg = 0 ->
  (etaMass k !!! tg) !!! 0%nat = 0 /\
  etaDot k !!! tg = replicate (Z.to_nat (numNHChains (config itg)) + 1) 0 /\
  eta k !!! tg = replicate (Z.to_nat (numNHChains (config itg))) 0.
Proof.
  unfold NoseKernel_initialize, mbind, result_bind.
  destruct (account_dof sys itg force) as [e|dof]; [intros [=]|].
  intros [= <-] Htg Hn Hdof. simpl in Hdof.
  assert (G : forall i, dof !!! i = 0 ->
            (init_group BOLTZ itg dof i).2.1.1.1 !!! 0%nat = 0 /\
            (init_group BOLTZ itg dof i).2.1.2
              = replicate (Z.to_nat (numNHChains (config itg)) + 1) 0 /\
            (init_group BOLTZ itg dof i).2.1.1.2
              = replicate (Z.to_nat (numNHChains (config itg))) 0).
  { intros i Hi. unfold init_group. cbv zeta.
    destruct (init_links _ _ _ _ _ _) as [em edd] eqn:E. simpl.
    split; [|split; reflexivity].
    change em with (em, edd).1. rewrite <- E, init_links_head.
    rewrite list_lookup_total_insert_eq by (rewrite length_replicate; lia).
    rewrite Hi. ring. }
  unfold NUM_TG in Htg.
  destruct tg as [|[|[|tg]]]; [apply G, Hdof .. | lia].
Qed.

(** The thermostat's call for such a group (line 534 of the kernels)
    divides by the zero mass, whatever the kinetic energies. *)
Lemma empty_group_divides_by_zero sys itg force k (tg : nat)
    (ke2 ke2_target t_target junk : R) :
  NoseKernel_initialize BOLTZ sys itg force = inr k ->
  (tg < NUM_TG)%nat -> (1 <= numNHChains (config itg))%Z ->
  (1 <= loopsPerStep (config itg))%Z ->
  tempGroupDof k !!! tg = 0 ->
  0 ∈ NHChain.divisors
        (NHChain.propagateNHChain BOLTZ (stepSize (config itg))
           (loopsPerStep (config itg)) (numNHChains (config itg))
           ke2 ke2_target t_target
           (NHChain.enter (eta k !!! tg) (etaDot k !!! tg)
              (etaDotDot k !!! tg) (etaMass k !!! tg) junk)).
Proof.
  intros Hk Htg Hn Hl Hdof.
  destruct (empty_group_chain sys itg force k tg Hk Htg Hn Hdof) as (Hm & _).
  rewrite <- Hm at 1.
  exact (NHChainDivisions.propagate_divides_by_head_mass (D:=R) BOLTZ
           (stepSize (config itg)) (loopsPerStep (config itg))
           (numNHChains (config itg)) ke2 ke2_target t_target
           (NHChain.enter (eta k !!! tg) (etaDot k !!! tg)
              (etaDotDot k !!! tg) (etaMass k !!! tg) junk) Hl).
Qed.

End Accounting.

Lemma example_classified i :
  (0 <= i < getNumParticles Examples.two_particles)%Z ->
  classified Examples.classified_integrator i.
Proof.
  intros Hi. change (getNumParticles Examples.two_particles) with 2%Z in Hi.
  assert (Hc : i = 0%Z \/ i = 1%Z) by lia.
  destruct Hc as [-> | ->]; exists 0%Z, (1 / 3)%R; split; reflexivity.
Qed.

(** The accounting of two thermostatted particles of masses 1 and 2. *)
Lemma C7_dof_never_negative_witness :
  exists k,
    NoseKernel_initialize 1%R Examples.two_particles
      Examples.classified_integrator None = inr k /\
    length (tempGroupDof k) = 3%nat /\
    (0 <= tempGroupDof k !!! TG_ATOM)%R /\
    (0 <= tempGroupDof k !!! TG_COM)%R /\
    (0 <= tempGroupDof k !!! TG_DRUDE)%R /\
    Forall (fun d => (0 <= d)%R) (tempGroupDof k).
Proof.
  eexists. split; [reflexivity|].
  apply (C7_dof_never_negative 1%R Examples.two_particles
           Examples.classified_integrator None).
  reflexivity.
Defined.

Lemma example_massive p :
  p ∈ particlesNH Examples.classified_integrator ->
  (0 <= p < getNumParticles Examples.two_particles)%Z /\
  getParticleMass Examples.two_particles p <> 0%R.
Proof.
  intros Hp. apply elem_of_cons in Hp as [-> | Hp].
  { split; [split; [lia | reflexivity]|].
    change (getParticleMass Examples.two_particles 0) with 1%R. lra. }
  apply elem_of_cons in Hp as [-> | Hp].
  { split; [split; [lia | reflexivity]|].
    change (getParticleMass Examples.two_particles 1) with 2%R. lra. }
  now apply elem_of_nil in Hp.
Qed.

Lemma example_NoDup : NoDup (particlesNH Examples.classified_integrator).
Proof. apply (bool_decide_unpack _). vm_compute. exact I. Qed.

(** Two thermostatted particles: six degrees of freedom for the atoms. *)
Lemma C3_atom_dof_is_3N_witness :
  exists k,
    NoseKernel_initialize 1%R Examples.two_particles
      Examples.classified_integrator None = inr k /\
    tempGroupDof k !!! TG_ATOM = (3 * INR 2)%R /\
    tempGroupDof k = [(3 * INR 2)%R; 0%R; 0%R].
Proof.
  exact (C3_atom_dof_is_3N 1%R Examples.two_particles
           Examples.classified_integrator None
           eq_refl (or_introl eq_refl) eq_refl
           ltac:(apply not_elem_of_nil) example_classified
           example_NoDup example_massive).
Defined.

End DegreesOfFreedom.

(** ** The scale factor of the chain propagator *)

Module NHChainScale.
Import NHChain.
Section Scale.
Local Open Scope R_scope.

Variable BOLTZ : R.
Implicit Types s : @frame R.
Implicit Types a b : @stmt R.










End Scale.


End NHChainScale.

(** ** The locals of the chain propagator *)

Module NHChainLocals.
Import NHChain.
Section Locals.

Context {D : Type} `{DoubleOps D}.
Variable BOLTZ : D.
Implicit Types s : @frame D.

Lemma for_each_cons (i : nat) l (body : nat -> @stmt D) s :
  for_each (i :: l) body s = for_each l body (body i s).
Proof. reflexivity. Qed.

(** With at least one link, a sub-iteration writes [expfac] before it reads
    it. *)
Lemma sub_iteration_forgets_expfac numNHChains dt2 dt4 dt8
    ke2 ke2_target t_target x s :
  (1 <= numNHChains)%Z ->
  sub_iteration BOLTZ numNHChains dt2 dt4 dt8 ke2 ke2_target t_target
    (set_expfac x s)
  = sub_iteration BOLTZ numNHChains dt2 dt4 dt8 ke2 ke2_target t_target s.
Proof.
  intros Hn. unfold sub_iteration. cbv zeta.
  destruct (Z.to_nat numNHChains) as [|m] eqn:E; [lia|].
  rewrite seq_S, reverse_app. simpl.
  unfold seq_stmt at 1. unfold seq_stmt at 8.
  now rewrite !for_each_cons.
Qed.

Lemma repeat_forgets_expfac numNHChains dt2 dt4 dt8 ke2 ke2_target t_target
    k x s :
  (1 <= numNHChains)%Z ->
  let body := sub_iteration BOLTZ numNHChains dt2 dt4 dt8 ke2 ke2_target
                t_target in
  let s1 := repeat_stmt k body s in
  let s2 := repeat_stmt k body (set_expfac x s) in
  eta s2 = eta s1 /\ eta_dot s2 = eta_dot s1 /\ eta_dotdot s2 = eta_dotdot s1 /\
  eta_mass s2 = eta_mass s1 /\ factor s2 = factor s1 /\
  divisors s2 = divisors s1.
Proof.
  intros Hn. cbv zeta. destruct k as [|k].
  - simpl. repeat split; reflexivity.
  - simpl. unfold seq_stmt. rewrite sub_iteration_forgets_expfac by exact Hn.
    repeat split; reflexivity.
Qed.

(** X3.  [factor] and [expfac] hold no value when [propagateNHChain]
    starts; with at least one link, what the call leaves does not depend on
    what they happen to hold: both are written before they are read. *)
Theorem locals_written_before_read stepSize loopsPerStep numNHChains
    ke2 ke2_target t_target (e ed edd em : list D) (junk junk' : D) :
  (1 <= numNHChains)%Z ->
  let run := propagateNHChain BOLTZ stepSize loopsPerStep numNHChains
               ke2 ke2_target t_target in
  let s := run (enter e ed edd em junk) in
  let s' := run (enter e ed edd em junk') in
  eta s' = eta s /\ eta_dot s' = eta_dot s /\ eta_dotdot s' = eta_dotdot s /\
  eta_mass s' = eta_mass s /\ factor s' = factor s /\
  divisors s' = divisors s.
Proof.
  intros Hn. cbv zeta. unfold propagateNHChain. cbv zeta. unfold seq_stmt.
  set (body := sub_iteration _ _ _ _ _ _ _ _).
  assert (E : init_acc0 ke2 ke2_target
                (set_factor (d_of_Z 1) (enter e ed edd em junk'))
              = set_expfac junk'
                  (init_acc0 ke2 ke2_target
                     (set_factor (d_of_Z 1) (enter e ed edd em junk)))).
  { unfold init_acc0, enter. simpl. now destruct (dgt _ _). }
  rewrite E. apply repeat_forgets_expfac. exact Hn.
Qed.

End Locals.

Lemma locals_written_before_read_witness :
  let run := propagateNHChain (D:=R) 1%R 1%R 1 2 1%R 1%R 1%R in
  let s := run (enter [1%R; 2%R] [3%R; 4%R; 5%R] [6%R; 7%R] [8%R; 9%R] 0%R) in
  let s' := run (enter [1%R; 2%R] [3%R; 4%R; 5%R] [6%R; 7%R] [8%R; 9%R] 1%R) in
  eta s' = eta s /\ eta_dot s' = eta_dot s /\ eta_dotdot s' = eta_dotdot s /\
  eta_mass s' = eta_mass s /\ factor s' = factor s /\
  divisors s' = divisors s.
Proof.
  exact (locals_written_before_read (D:=R) 1%R 1%R 1 2 1%R 1%R 1%R
           [1%R; 2%R] [3%R; 4%R; 5%R] [6%R; 7%R] [8%R; 9%R] 0%R 1%R
           ltac:(lia)).
Defined.

End NHChainLocals.

(** ** The chains the kernel starts from *)

Module ChainSetup.
Import VV.
Section Setup.
Local Open Scope R_scope.

Variable BOLTZ : R.

(** The loop of lines 397-400 run on vectors of [n] entries, the first
    mass being [m0] and the chain at rest. *)
Lemma init_links_table tgKbT tgMass (n : nat) (m0 : R) :
  let r := init_links tgKbT tgMass n (<[0%nat := m0]> (replicate n 0))
             (replicate (n + 1) 0) (replicate n 0) in
  length r.1 = n /\ length r.2 = n /\
  forall j, (j < n)%nat ->
    r.1 !!! j = (if decide (j = 0%nat) then m0 else tgMass) /\
    r.2 !!! j = (if decide (j = 0%nat) then 0 else - tgKbT / tgMass).
Proof.
  cbv zeta. unfold init_links.
  set (ed := replicate (n + 1) 0).
  set (f := fun '(em, edd) ich => _).
  assert (G : forall k, (k <= n - 1)%nat ->
            let r := foldl f (<[0%nat := m0]> (replicate n 0), replicate n 0)
                       (seq 1 k) in
            length r.1 = n /\ length r.2 = n /\
            forall j, (j < n)%nat ->
              r.1 !!! j = (if decide (j = 0%nat) then m0
                           else if decide (j <= k)%nat then tgMass else 0) /\
              r.2 !!! j = (if decide (j = 0%nat) then 0
                           else if decide (j <= k)%nat then - tgKbT / tgMass
                                else 0)).
  { induction k as [|k IH]; intros Hk; cbv zeta.
    - simpl. rewrite length_insert, !length_replicate.
      repeat apply conj; trivial. intros j Hj.
      destruct (decide (j = 0%nat)) as [->|Hj0].
      + rewrite list_lookup_total_insert_eq by (rewrite length_replicate; lia).
        split; [reflexivity|]. now rewrite lookup_total_replicate_2.
      + rewrite list_lookup_total_insert_ne by lia.
        rewrite !lookup_total_replicate_2 by lia.
        rewrite !decide_False by lia. now split.
    - rewrite seq_S, foldl_snoc.
      destruct (IH ltac:(lia)) as (L1 & L2 & P). clear IH.
      destruct (foldl f _ (seq 1 k)) as [em edd]. simpl in *.
      rewrite !length_insert. repeat apply conj; trivial. intros j Hj.
      destruct (decide (j = S k)) as [->|Hne].
      + rewrite !list_lookup_total_insert_eq by lia.
        split; rewrite decide_False by lia; rewrite decide_True by lia;
          [reflexivity|].
        unfold ed. rewrite lookup_total_replicate_2 by lia.
        unfold Rdiv. ring.
      + rewrite !list_lookup_total_insert_ne by lia.
        destruct (P j Hj) as [-> ->].
        destruct (decide (j = 0%nat)); [now split|].
        destruct (decide (j <= k)%nat), (decide (j <= S k)%nat);
          try lia; now split. }
  destruct (G (n - 1)%nat ltac:(lia)) as (L1 & L2 & P).
  repeat apply conj; trivial. intros j Hj. destruct (P j Hj) as [-> ->].
  destruct (decide (j = 0%nat)); [now split|].
  rewrite !decide_True by lia. now split.
Qed.

(** The target temperature and the mass of the outer links of group [tg]. *)
Local Abbreviation T_of c tg :=
  (if decide (tg = TG_DRUDE) then drudeTemperature c else temperature c).
Local Abbreviation Q_of c tg :=
  (if decide (tg = TG_DRUDE)
   then BOLTZ * drudeTemperature c / (drudeFrequency c) ^ 2
   else BOLTZ * temperature c / (frequency c) ^ 2).

Lemma init_group_table itg dof (tg : nat) :
  let n := Z.to_nat (numNHChains (config itg)) in
  let g := init_group BOLTZ itg dof tg in
  g.1 = dof !!! tg * (BOLTZ * T_of (config itg) tg) /\
  length g.2.1.1.1 = n /\ length g.2.2 = n /\
  g.2.1.1.2 = replicate n 0 /\ g.2.1.2 = replicate (n + 1) 0 /\
  forall j, (j < n)%nat ->
    g.2.1.1.1 !!! j = (if decide (j = 0%nat)
                       then dof !!! tg * Q_of (config itg) tg
                       else Q_of (config itg) tg) /\
    g.2.2 !!! j = (if decide (j = 0%nat) then 0
                   else - (BOLTZ * T_of (config itg) tg)
                        / Q_of (config itg) tg).
Proof.
  cbv zeta. unfold init_group. cbv zeta.
  set (n := Z.to_nat (numNHChains (config itg))).
  destruct (decide (tg = TG_DRUDE)) as [Htg|Htg].
  - pose proof (init_links_table
      (BOLTZ * drudeTemperature (config itg))
      (BOLTZ * drudeTemperature (config itg) / drudeFrequency (config itg) ^ 2)
      n (dof !!! tg * (BOLTZ * drudeTemperature (config itg)
                       / drudeFrequency (config itg) ^ 2))) as G.
    cbv zeta in G. destruct (init_links _ _ _ _ _ _) as [em edd].
    simpl in *. destruct G as (L1 & L2 & P). now repeat apply conj.
  - pose proof (init_links_table
      (BOLTZ * temperature (config itg))
      (BOLTZ * temperature (config itg) / frequency (config itg) ^ 2)
      n (dof !!! tg * (BOLTZ * temperature (config itg)
                       / frequency (config itg) ^ 2))) as G.
    cbv zeta in G. destruct (init_links _ _ _ _ _ _) as [em edd].
    simpl in *. destruct G as (L1 & L2 & P). now repeat apply conj.
Qed.

(** The vectors of group [tg] are those [init_group] computes. *)
Lemma NoseKernel_initialize_groups sys itg force k :
  NoseKernel_initialize BOLTZ sys itg force = inr k ->
  exists dof,
    tempGroupDof k = dof /\
    length (tempGroupNkbT k) = NUM_TG /\ length (etaMass k) = NUM_TG /\
    length (eta k) = NUM_TG /\ length (etaDot k) = NUM_TG /\
    length (etaDotDot k) = NUM_TG /\
    forall tg, (tg < NUM_TG)%nat ->
      let g := init_group BOLTZ itg dof tg in
      tempGroupNkbT k !!! tg = g.1 /\ etaMass k !!! tg = g.2.1.1.1 /\
      eta k !!! tg = g.2.1.1.2 /\ etaDot k !!! tg = g.2.1.2 /\
      etaDotDot k !!! tg = g.2.2.
Proof.
  unfold NoseKernel_initialize, mbind, result_bind.
  destruct (account_dof sys itg force) as [e|dof]; [intros [=]|].
  intros [= <-]. exists dof. simpl.
  repeat apply conj; trivial.
  intros tg Htg. unfold NUM_TG in Htg.
  destruct tg as [|[|[|tg]]]; [now repeat apply conj .. | lia].
Qed.

(** X4.  When the kernel's [initialize] returns, every temperature group
    has a chain of the sizes [propagateNHChain] indexes: [numNHChains]
    entries of [eta], [etaDotDot] and [etaMass], and one more of [etaDot]. *)
Theorem chains_are_sized sys itg force k (tg : nat) (junk : R) :
  NoseKernel_initialize BOLTZ sys itg force = inr k ->
  (tg < NUM_TG)%nat ->
  NHChain.sized (Z.to_nat (numNHChains (config itg)))
    (NHChain.enter (eta k !!! tg) (etaDot k !!! tg) (etaDotDot k !!! tg)
       (etaMass k !!! tg) junk).
Proof.
  intros Hk Htg.
  destruct (NoseKernel_initialize_groups _ _ _ _ Hk)
    as (dof & _ & _ & _ & _ & _ & _ & G).
  destruct (G tg Htg) as (_ & -> & -> & -> & ->).
  destruct (init_group_table itg dof tg) as (_ & L1 & L2 & -> & -> & _).
  unfold NHChain.sized, NHChain.enter. simpl.
  rewrite !length_replicate. repeat apply conj; trivial. lia.
Qed.

(** X5.  The masses the kernel gives a chain: with [Q = kB T / frequency^2]
    of the group (the Drude temperature and frequency for the Drude group),
    the first link has the mass [dof * Q] and every other link the mass
    [Q]; the target [tempGroupNkbT] is [dof * kB T]. *)
Theorem chain_masses sys itg force k (tg : nat) :
  NoseKernel_initialize BOLTZ sys itg force = inr k ->
  (tg < NUM_TG)%nat ->
  tempGroupNkbT k !!! tg
    = tempGroupDof k !!! tg * (BOLTZ * T_of (config itg) tg) /\
  forall ich, (ich < Z.to_nat (numNHChains (config itg)))%nat ->
    (etaMass k !!! tg) !!! ich
    = (if decide (ich = 0%nat)
       then tempGroupDof k !!! tg * Q_of (config itg) tg
       else Q_of (config itg) tg).
Proof.
  intros Hk Htg.
  destruct (NoseKernel_initialize_groups _ _ _ _ Hk)
    as (dof & -> & _ & _ & _ & _ & _ & G).
  destruct (G tg Htg) as (-> & -> & _).
  destruct (init_group_table itg dof tg) as (-> & _ & _ & _ & _ & P).
  split; [reflexivity|]. intros ich Hich. now destruct (P ich Hich) as [-> _].
Qed.

(** X6.  The chain the kernel starts from is at rest: [eta] and [etaDot]
    are zero, the first link has no acceleration, and every other link
    starts with the acceleration [- kB T / Q]. *)
Theorem chain_starts_at_rest sys itg force k (tg : nat) :
  NoseKernel_initialize BOLTZ sys itg force = inr k ->
  (tg < NUM_TG)%nat ->
  eta k !!! tg = replicate (Z.to_nat (numNHChains (config itg))) 0 /\
  etaDot k !!! tg = replicate (Z.to_nat (numNHChains (config itg)) + 1) 0 /\
  forall ich, (ich < Z.to_nat (numNHChains (config itg)))%nat ->
    (etaDotDot k !!! tg) !!! ich
    = (if decide (ich = 0%nat) then 0
       else - (BOLTZ * T_of (config itg) tg) / Q_of (config itg) tg).
Proof.
  intros Hk Htg.
  destruct (NoseKernel_initialize_groups _ _ _ _ Hk)
    as (dof & _ & _ & _ & _ & _ & _ & G).
  destruct (G tg Htg) as (_ & _ & -> & -> & ->).
  destruct (init_group_table itg dof tg) as (_ & _ & _ & -> & -> & P).
  repeat apply conj; trivial.
  intros ich Hich. now destruct (P ich Hich) as [_ ->].
Qed.

End Setup.

(** The chain of the Drude group of a system with one Drude pair. *)
Lemma chains_are_sized_witness :
  exists k,
    NoseKernel_initialize 1%R Examples.drude_system Examples.drude_integrator
      (Some Examples.drude_pairs) = inr k /\
    NHChain.sized 3
      (NHChain.enter (eta k !!! TG_DRUDE) (etaDot k !!! TG_DRUDE)
         (etaDotDot k !!! TG_DRUDE) (etaMass k !!! TG_DRUDE) 0%R).
Proof.
  eexists. split; [reflexivity|].
  apply (chains_are_sized 1%R Examples.drude_system
           Examples.drude_integrator (Some Examples.drude_pairs) _
           TG_DRUDE 0%R); [reflexivity | unfold TG_DRUDE, NUM_TG; lia].
Defined.

(** The masses of the chain of the atoms at 300 K and frequency 10. *)
Lemma chain_masses_witness :
  exists k,
    NoseKernel_initialize 1%R Examples.drude_system Examples.drude_integrator
      (Some Examples.drude_pairs) = inr k /\
    tempGroupNkbT k !!! TG_ATOM
      = (tempGroupDof k !!! TG_ATOM * (1 * 300))%R /\
    forall ich, (ich < 3)%nat ->
      (etaMass k !!! TG_ATOM) !!! ich
      = if decide (ich = 0%nat)
        then (tempGroupDof k !!! TG_ATOM * (1 * 300 / 10 ^ 2))%R
        else (1 * 300 / 10 ^ 2)%R.
Proof.
  eexists. split; [reflexivity|].
  apply (chain_masses 1%R Examples.drude_system
           Examples.drude_integrator (Some Examples.drude_pairs) _
           TG_ATOM); [reflexivity | unfold TG_ATOM, NUM_TG; lia].
Defined.

(** The chain of the Drude group at 1 K and frequency 40. *)
Lemma chain_starts_at_rest_witness :
  exists k,
    NoseKernel_initialize 1%R Examples.drude_system Examples.drude_integrator
      (Some Examples.drude_pairs) = inr k /\
    eta k !!! TG_DRUDE = [0%R; 0%R; 0%R] /\
    etaDot k !!! TG_DRUDE = [0%R; 0%R; 0%R; 0%R] /\
    forall ich, (ich < 3)%nat ->
      (etaDotDot k !!! TG_DRUDE) !!! ich
      = if decide (ich = 0%nat) then 0%R
        else (- (1 * 1) / (1 * 1 / 40 ^ 2))%R.
Proof.
  eexists. split; [reflexivity|].
  apply (chain_starts_at_rest 1%R Examples.drude_system
           Examples.drude_integrator (Some Examples.drude_pairs) _
           TG_DRUDE); [reflexivity | unfold TG_DRUDE, NUM_TG; lia].
Defined.

End ChainSetup.

(** ** The degrees of freedom, group by group *)

Module DofFormula.
Import VV Vocabulary.
Section Formula.
Local Open Scope R_scope.

Variable BOLTZ : R.
Implicit Types dof : list R.

(** The loop over the particles returns only when the tables cover them. *)
Lemma count_particles_classified sys itg l : forall dof dof',
  count_particles sys itg l dof = inr dof' ->
  forall i, i ∈ l -> classified itg i.
Proof.
  induction l as [|i l IH]; intros dof dof' E k Hk.
  - now apply elem_of_nil in Hk.
  - simpl in E. unfold count_particle, mbind, result_bind in E.
    destruct (getParticleResId itg i) as [e|resid] eqn:Er; [discriminate|].
    destruct (getResInvMass itg resid) as [e|m] eqn:Em; [discriminate|].
    simpl in E. apply elem_of_cons in Hk as [-> | Hk].
    + now exists resid, m.
    + eapply IH; eauto.
Qed.

(** It counts in the group of the atoms only. *)
Lemma count_particles_atoms_only sys itg l : forall a b d dof',
  count_particles sys itg l [a; b; d] = inr dof' ->
  exists a', dof' = [a'; b; d].
Proof.
  induction l as [|i l IH]; intros a b d dof' E.
  - injection E as <-. now exists a.
  - simpl in E. unfold count_particle, mbind, result_bind in E.
    destruct (getParticleResId itg i) as [e|resid]; [discriminate|].
    destruct (getResInvMass itg resid) as [e|m]; [discriminate|].
    simpl in E.
    destruct (_ && _); [destruct (useCOMTempGroup _)|];
      eapply IH; exact E.
Qed.

Lemma count_pairs_formula itg pairs : forall a b d,
  foldl (count_pair itg) [a; b; d] pairs =
  let P := INR (length (filter (fun pr => isParticleNH itg pr.1 = true) pairs)) in
  [a - 3 * P; b; d + 3 * P].
Proof.
  induction pairs as [|pr pairs IH]; intros a b d; cbv zeta.
  - simpl. f_equal; [lra|]. do 2 f_equal. lra.
  - cbn [foldl]. rewrite filter_cons. unfold count_pair at 2.
    destruct (isParticleNH itg pr.1) eqn:E.
    + rewrite decide_True by reflexivity. rewrite length_cons, S_INR.
      change (add_dof TG_DRUDE 3 (add_dof TG_ATOM (-3) [a; b; d]))
        with [a + -3; b; d + 3].
      rewrite IH. cbv zeta. f_equal; [lra|]. do 2 f_equal. lra.
    + rewrite decide_False by discriminate. apply IH.
Qed.

Lemma count_constraints_formula itg cs : forall a b d,
  foldl (count_constraint itg) [a; b; d] cs =
  [a - INR (length (filter (fun c => isParticleNH itg c.1.1 = true) cs)); b; d].
Proof.
  induction cs as [|c cs IH]; intros a b d.
  - simpl. f_equal. lra.
  - cbn [foldl]. rewrite filter_cons. unfold count_constraint at 2.
    destruct (isParticleNH itg c.1.1) eqn:E.
    + rewrite decide_True by reflexivity. rewrite length_cons, S_INR.
      change (add_dof TG_ATOM (-1) [a; b; d]) with [a + -1; b; d].
      rewrite IH. f_equal. lra.
    + rewrite decide_False by discriminate. apply IH.
Qed.

Lemma count_cm_remover_formula itg fs a b d :
  count_cm_remover itg fs [a; b; d] =
  if existsb is_CMMotionRemover fs
  then (if useCOMTempGroup (config itg) then [a; b - 3; d] else [a - 3; b; d])
  else [a; b; d].
Proof.
  induction fs as [|[pairs| |] fs IH]; simpl; trivial.
Qed.

(** The accounting, group by group, before the clamp. *)
Lemma account_dof_formula sys itg force dof :
  account_dof sys itg force = inr dof ->
  exists a0,
    count_particles sys itg (seqZ 0 (getNumParticles sys)) [0; 0; 0]
      = inr [a0; 0; 0] /\
    let P := INR (length (match force with
                          | None => []
                          | Some pairs =>
                              filter (fun pr => isParticleNH itg pr.1 = true)
                                pairs
                          end)) in
    let C := INR (length (filter (fun c => isParticleNH itg c.1.1 = true)
                            (constraints sys))) in
    let r := if existsb is_CMMotionRemover (forces sys) then 3 else 0 in
    dof = if useCOMTempGroup (config itg)
          then [std_max (a0 - 3 * P - C) 0;
                std_max (3 * INR (length (residuesNH itg)) - r) 0;
                3 * P]
          else [std_max (a0 - 3 * P - C - r) 0; 0; 3 * P].
Proof.
  unfold account_dof, mbind, result_bind.
  change (replicate NUM_TG 0) with [0; 0; 0].
  destruct (count_particles _ _ _ _) as [e|dof0] eqn:E; [intros [=]|].
  destruct (count_particles_atoms_only _ _ _ _ _ _ _ E) as [a0 ->].
  intros [= <-]. exists a0. split; [reflexivity|]. cbv zeta.
  set (P := INR (length match force with None => [] | Some pairs => _ end)).
  assert (HP : count_pairs itg force [a0; 0; 0] = [a0 - 3 * P; 0; 0 + 3 * P]).
  { unfold P. destruct force as [pairs|]; simpl.
    - apply count_pairs_formula.
    - f_equal; [lra|]. do 2 f_equal. lra. }
  assert (HP0 : 0 <= P) by apply pos_INR.
  rewrite HP, count_constraints_formula. unfold count_residues.
  destruct (useCOMTempGroup (config itg)) eqn:Hcom; simpl;
    rewrite count_cm_remover_formula, Hcom;
    destruct (existsb _ _); unfold clamp_dof; simpl;
    rewrite (DegreesOfFreedom.std_max_id (0 + 3 * P)) by lra;
    rewrite ?(DegreesOfFreedom.std_max_id 0) by lra;
    repeat (f_equal; try lra).
Qed.

Lemma NoseKernel_initialize_dof sys itg force k :
  NoseKernel_initialize BOLTZ sys itg force = inr k ->
  account_dof sys itg force = inr (tempGroupDof k) /\
  pairParticlesNHVec k =
    match force with
    | None => []
    | Some pairs => filter (fun pr => isParticleNH itg pr.1 = true) pairs
    end.
Proof.
  unfold NoseKernel_initialize, mbind, result_bind.
  destruct (account_dof sys itg force) as [e|dof]; [intros [=]|].
  now intros [= <-].
Qed.

(** X7.  The degrees of freedom of the two other groups: the Drude group
    has three for every Drude pair the kernel keeps; the group of the
    centres of mass has three for every thermostatted residue, less three
    when the system has a [CMMotionRemover] (and not below zero), and none
    when the integrator has no such group. *)
Theorem drude_and_com_dof sys itg force k :
  NoseKernel_initialize BOLTZ sys itg force = inr k ->
  tempGroupDof k !!! TG_DRUDE = 3 * INR (length (pairParticlesNHVec k)) /\
  tempGroupDof k !!! TG_COM =
    if useCOMTempGroup (config itg)
    then std_max (3 * INR (length (residuesNH itg))
                  - (if existsb is_CMMotionRemover (forces sys) then 3 else 0))
           0
    else 0.
Proof.
  intros Hk. destruct (NoseKernel_initialize_dof _ _ _ _ Hk) as [E ->].
  destruct (account_dof_formula _ _ _ _ E) as (a0 & _ & ->).
  cbv zeta. now destruct (useCOMTempGroup _).
Qed.

(** X8.  The degrees of freedom of the atoms when the integrator has no
    group of the centres of mass: three for every thermostatted particle
    with a mass, less three for every Drude pair kept, one for every
    constraint whose first particle is thermostatted, and three for a
    [CMMotionRemover]; zero when that is negative. *)
Theorem atom_dof_without_COM sys itg force k :
  useCOMTempGroup (config itg) = false ->
  NoseKernel_initialize BOLTZ sys itg force = inr k ->
  tempGroupDof k !!! TG_ATOM =
    std_max
      (3 * INR (length (filter (fun i => isParticleNH itg i
                                  && Rneqb (getParticleMass sys i) 0 = true)
                          (seqZ 0 (getNumParticles sys))))
       - 3 * INR (length (pairParticlesNHVec k))
       - INR (length (filter (fun c => isParticleNH itg c.1.1 = true)
                        (constraints sys)))
       - (if existsb is_CMMotionRemover (forces sys) then 3 else 0)) 0.
Proof.
  intros Hcom Hk. destruct (NoseKernel_initialize_dof _ _ _ _ Hk) as [E ->].
  destruct (account_dof_formula _ _ _ _ E) as (a0 & E0 & ->).
  cbv zeta. rewrite Hcom.
  rewrite DegreesOfFreedom.count_particles_atoms in E0; trivial.
  - injection E0 as <-. simpl. f_equal. lra.
  - eapply count_particles_classified. exact E0.
Qed.

End Formula.

(** One Drude pair, no group of the centres of mass. *)
Lemma drude_and_com_dof_witness :
  exists k,
    NoseKernel_initialize 1%R Examples.drude_system Examples.drude_integrator
      (Some Examples.drude_pairs) = inr k /\
    tempGroupDof k !!! TG_DRUDE = (3 * INR 1)%R /\
    tempGroupDof k !!! TG_COM = 0%R.
Proof.
  eexists. split; [reflexivity|].
  exact (drude_and_com_dof 1%R Examples.drude_system
           Examples.drude_integrator (Some Examples.drude_pairs) _ eq_refl).
Defined.

(** Three particles with a mass, one Drude pair, one constraint and a
    [CMMotionRemover]. *)
Lemma atom_dof_without_COM_witness :
  exists k,
    NoseKernel_initialize 1%R Examples.drude_system Examples.drude_integrator
      (Some Examples.drude_pairs) = inr k /\
    tempGroupDof k !!! TG_ATOM =
      std_max
        (3 * INR (length
                    (filter (fun i => isParticleNH Examples.drude_integrator i
                                      && Rneqb (getParticleMass
                                                  Examples.drude_system i) 0
                                      = true)
                       (seqZ 0 3)))
         - 3 * INR 1 - INR 1 - 3)%R 0%R.
Proof.
  eexists. split; [reflexivity|].
  exact (atom_dof_without_COM 1%R Examples.drude_system
           Examples.drude_integrator (Some Examples.drude_pairs) _
           eq_refl eq_refl).
Defined.

End DofFormula.

(** ** Normal particles and Drude pairs of the kernels *)

Module Partition.
Import VV Cuda.
Section Sets.
Local Open Scope Z_scope.

Lemma set_insert_last x s :
  Forall (fun y => y < x) s -> set_insert x s = s ++ [x].
Proof.
  induction 1 as [|y s Hy Hs IH]; [reflexivity|]. simpl.
  rewrite decide_False by lia. rewrite decide_False by lia. now rewrite IH.
Qed.

Lemma role_set_filter (role : Z -> bool) (numParticles : Z) :
  role_set role numParticles
  = filter (fun i => role i = true) (seqZ 0 numParticles).
Proof.
  unfold role_set.
  destruct (decide (numParticles <= 0)) as [Hn|Hn].
  { now rewrite seqZ_nil by exact Hn. }
  rewrite <- (Z2Nat.id numParticles) by lia.
  induction (Z.to_nat numParticles) as [|n IH]; [reflexivity|].
  rewrite seqZ_S, Z.add_0_l, foldl_snoc, filter_app, IH. simpl.
  rewrite filter_cons, filter_nil.
  destruct (role (Z.of_nat n)) eqn:E.
  - rewrite decide_True by reflexivity. apply set_insert_last.
    apply Forall_forall. intros y Hy.
    apply list_elem_of_filter in Hy as [_ Hy]. apply elem_of_seqZ in Hy. lia.
  - rewrite decide_False by discriminate. now rewrite app_nil_r.
Qed.

Lemma StronglySorted_seqZ m n : StronglySorted Z.lt (seqZ m n).
Proof.
  destruct (decide (n <= 0)) as [Hn|Hn].
  { rewrite seqZ_nil by exact Hn. constructor. }
  rewrite <- (Z2Nat.id n) by lia. clear Hn.
  generalize (Z.to_nat n) as k. intros k. revert m.
  induction k as [|k IH]; intros m; [constructor|].
  rewrite seqZ_cons by lia.
  replace (Z.pred (Z.of_nat (S k))) with (Z.of_nat k) by lia.
  constructor; [apply IH|].
  apply Forall_seqZ. intros; lia.
Qed.

Lemma StronglySorted_filter (P : Z -> Prop) `{forall x, Decision (P x)} l :
  StronglySorted Z.lt l -> StronglySorted Z.lt (filter P l).
Proof.
  induction 1 as [|x l Hl IH Hx]; [constructor|].
  rewrite filter_cons. destruct (decide (P x)); [|exact IH].
  constructor; [exact IH|].
  apply Forall_forall. intros y Hy. apply list_elem_of_filter in Hy as [_ Hy].
  eapply Forall_forall in Hx; eauto.
Qed.

(** The loop over the pairs of the [DrudeForce]. *)
Lemma take_pairs_run (role : Z -> bool) pairs : forall st,
  let r := foldl (take_pair role) st pairs in
  r.2 = st.2 ++ filter (fun pr => role pr.1 = true) pairs /\
  (StronglySorted Z.lt st.1 -> StronglySorted Z.lt r.1) /\
  forall x, x ∈ r.1 <->
    x ∈ st.1 /\
    forall pr, pr ∈ filter (fun pr => role pr.1 = true) pairs ->
               x <> pr.1 /\ x <> pr.2.
Proof.
  induction pairs as [|pr pairs IH]; intros st; cbv zeta.
  - simpl. rewrite app_nil_r. repeat apply conj; trivial.
    intros x. split; [|tauto]. intros Hx. split; [exact Hx|].
    intros pr Hpr. now apply elem_of_nil in Hpr.
  - cbn [foldl]. destruct (IH (take_pair role st pr)) as (E & S & M).
    rewrite E, filter_cons. unfold take_pair in *.
    destruct (role pr.1) eqn:Hr.
    + rewrite decide_True by reflexivity. simpl in *.
      rewrite <- app_assoc. repeat apply conj; trivial.
      * intros Hs. apply S. unfold set_erase.
        now do 2 apply StronglySorted_filter.
      * intros x. rewrite M. unfold set_erase.
        rewrite !list_elem_of_filter. split.
        -- intros ((H2 & H1 & Hx) & Hrest). split; [exact Hx|].
           intros pr' Hpr'. apply elem_of_cons in Hpr' as [-> | Hpr'];
             [now split | now apply Hrest].
        -- intros (Hx & Hall). split.
           ++ destruct (Hall pr) as [H1 H2]; [left|]. now repeat split.
           ++ intros pr' Hpr'. apply Hall. now right.
    + rewrite decide_False by discriminate. now repeat apply conj.
Qed.

Lemma split_roles_spec (role : Z -> bool) numParticles force :
  let r := split_roles role numParticles force in
  r.2 = match force with
        | None => []
        | Some pairs => filter (fun pr => role pr.1 = true) pairs
        end /\
  StronglySorted Z.lt r.1 /\
  forall x, x ∈ r.1 <->
    0 <= x < numParticles /\ role x = true /\
    forall pr, pr ∈ r.2 -> x <> pr.1 /\ x <> pr.2.
Proof.
  cbv zeta. unfold split_roles.
  assert (Hs : StronglySorted Z.lt (role_set role numParticles)).
  { rewrite role_set_filter. apply StronglySorted_filter, StronglySorted_seqZ. }
  assert (Hm : forall x, x ∈ role_set role numParticles <->
                         0 <= x < numParticles /\ role x = true).
  { intros x. rewrite role_set_filter, list_elem_of_filter, elem_of_seqZ.
    intuition lia. }
  destruct force as [pairs|].
  - destruct (take_pairs_run role pairs (role_set role numParticles, []))
      as (E & S & M). simpl in *.
    repeat apply conj; auto.
    intros x. rewrite M, Hm, E. tauto.
  - simpl. repeat apply conj; trivial.
    intros x. rewrite Hm. split; [|tauto].
    intros Hx. repeat split; try tauto.
    all: now apply elem_of_nil in H.
Qed.

Variable BOLTZ : R.

(** X9.  The normal particles of the Nose-Hoover kernel, in ascending
    order, are the thermostatted particles of the system that belong to no
    Drude pair the kernel keeps: a particle is scaled as a normal particle
    or as a member of a pair, never as both. *)
Theorem normal_particles_NH sys itg force k :
  NoseKernel_initialize BOLTZ sys itg force = inr k ->
  StronglySorted Z.lt (normalParticlesNHVec sys itg force) /\
  forall x, x ∈ normalParticlesNHVec sys itg force <->
    0 <= x < getNumParticles sys /\ isParticleNH itg x = true /\
    forall pr, pr ∈ pairParticlesNHVec k -> x <> pr.1 /\ x <> pr.2.
Proof.
  intros Hk.
  destruct (split_roles_spec (isParticleNH itg) (getNumParticles sys) force)
    as (E & S & M).
  unfold normalParticlesNHVec. split; [exact S|].
  intros x. rewrite M, E.
  unfold NoseKernel_initialize, mbind, result_bind in Hk.
  destruct (account_dof sys itg force) as [e|dof]; [discriminate|].
  injection Hk as <-. reflexivity.
Qed.

(** X10.  The Langevin kernel keeps the Drude pairs whose first particle is
    a Langevin particle, in the order of the [DrudeForce]; its normal
    particles, in ascending order, are the Langevin particles of the system
    that belong to none of these pairs. *)
Theorem langevin_kernel_partition sys itg force :
  let k := LangevinKernel_initialize sys itg force in
  pairParticlesLDVec k =
    match force with
    | None => []
    | Some pairs => filter (fun pr => isParticleLD itg pr.1 = true) pairs
    end /\
  StronglySorted Z.lt (normalParticlesLDVec k) /\
  forall x, x ∈ normalParticlesLDVec k <->
    0 <= x < getNumParticles sys /\ isParticleLD itg x = true /\
    forall pr, pr ∈ pairParticlesLDVec k -> x <> pr.1 /\ x <> pr.2.
Proof.
  cbv zeta. unfold LangevinKernel_initialize. simpl.
  apply split_roles_spec.
Qed.

End Sets.

(** Of the atom, its hydrogen and its Drude particle, the hydrogen alone
    is a normal particle. *)
Lemma normal_particles_NH_witness :
  exists k,
    NoseKernel_initialize 1%R Examples.drude_system Examples.drude_integrator
      (Some Examples.drude_pairs) = inr k /\
    normalParticlesNHVec Examples.drude_system Examples.drude_integrator
      (Some Examples.drude_pairs) = [1%Z] /\
    StronglySorted Z.lt
      (normalParticlesNHVec Examples.drude_system Examples.drude_integrator
         (Some Examples.drude_pairs)) /\
    forall x,
      x ∈ normalParticlesNHVec Examples.drude_system
            Examples.drude_integrator (Some Examples.drude_pairs) <->
      (0 <= x < 3)%Z /\ isParticleNH Examples.drude_integrator x = true /\
      forall pr, pr ∈ pairParticlesNHVec k -> x <> pr.1 /\ x <> pr.2.
Proof.
  eexists. split; [reflexivity|]. split; [reflexivity|].
  apply (normal_particles_NH 1%R Examples.drude_system
           Examples.drude_integrator (Some Examples.drude_pairs)).
  reflexivity.
Defined.

End Partition.

(** ** Particles sorted by residue *)

Module ResidueOrder.
Import VV Cuda Vocabulary.
Local Open Scope Z_scope.
Section Order.

Variable itg : VVIntegrator.
Variable numParticles : Z.
Hypothesis covered : numParticles <= Z.of_nat (length (particleResId itg)).

Lemma scan_residue_run resid l : forall st,
  (forall i, i ∈ l -> 0 <= i < numParticles) ->
  scan_residue itg resid l st =
  inr (st.1 + Z.of_nat (length (filter (fun i => vget (particleResId itg) i
                                                 = resid) l)),
       st.2 ++ filter (fun i => vget (particleResId itg) i = resid) l).
Proof.
  induction l as [|i l IH]; intros [n found] Hl.
  - simpl. now rewrite Z.add_0_r, app_nil_r.
  - cbn [scan_residue]. unfold getParticleResId.
    rewrite Classification.checked_get_in_range
      by (specialize (Hl i ltac:(left)); lia).
    unfold mbind, result_bind. rewrite IH by (intros k Hk; apply Hl; now right).
    rewrite filter_cons.
    destruct (decide (vget (particleResId itg) i = resid)); simpl.
    + rewrite <- app_assoc. do 2 f_equal. lia.
    + reflexivity.
Qed.

Lemma sort_by_residue_run rs : forall done st,
  sorted_upto itg numParticles done st ->
  exists st', sort_by_residue itg numParticles rs st = inr st' /\
              sorted_upto itg numParticles (done ++ rs) st'.
Proof.
  induction rs as [|resid rs IH]; intros done [[id_start sorted] inRes] Inv.
  - exists (id_start, sorted, inRes). now rewrite app_nil_r.
  - cbn [sort_by_residue]. rewrite scan_residue_run
      by (intros i Hi; apply elem_of_seqZ in Hi; lia).
    unfold mbind, result_bind. cbn [fst snd].
    replace (done ++ resid :: rs) with ((done ++ [resid]) ++ rs)
      by now rewrite <- app_assoc.
    apply IH. clear IH. destruct Inv as (Hid & Hs & Hlen & Hj).
    unfold sorted_upto in *. cbn [fst snd] in *. repeat apply conj.
    + rewrite length_app. fold (residue_members itg numParticles resid). lia.
    + rewrite fmap_app, concat_app, <- Hs. simpl. now rewrite app_nil_r.
    + rewrite !length_app. simpl. lia.
    + intros j r Hr.
      destruct (decide (j < length done)%nat) as [Hlt|Hge].
      * rewrite lookup_app_l in Hr by exact Hlt.
        destruct (Hj j r Hr) as (entry & E & Hn & Hst & Hle & Ht).
        exists entry. rewrite lookup_app_l by lia.
        repeat apply conj; trivial; [rewrite length_app; lia|].
        unfold slice in *.
        rewrite drop_app_le by lia. rewrite take_app_le; [exact Ht|].
        rewrite length_drop. lia.
      * rewrite lookup_app_r in Hr by lia.
        destruct (j - length done)%nat as [|m] eqn:Em; [|discriminate].
        injection Hr as <-.
        exists (0 + Z.of_nat (length (residue_members itg numParticles resid)),
                id_start).
        rewrite lookup_app_r by lia.
        replace (j - length inRes)%nat with 0%nat by lia.
        cbn [fst snd]. rewrite length_app.
        repeat apply conj; trivial; try lia.
        { fold (residue_members itg numParticles resid). lia. }
        unfold slice. cbn [fst snd].
        rewrite Hid, Nat2Z.id, drop_app_length.
        rewrite Z.add_0_l, Nat2Z.id. apply firstn_all.
Qed.

End Order.

(** X11.  When the table of residues covers the particles, the kernel's
    sort returns; [particlesInResiduesVec] then has one entry for every
    residue, and the entry of residue [r] delimits, within
    [particlesSortedByResIdVec], the particles of [r] in ascending order. *)
Theorem residue_slices sys itg numResidues :
  getNumParticles sys <= Z.of_nat (length (particleResId itg)) ->
  exists id_start sorted inRes,
    particlesByResidue sys itg numResidues = inr (id_start, sorted, inRes) /\
    id_start = Z.of_nat (length sorted) /\
    length inRes = Z.to_nat numResidues /\
    forall r, 0 <= r < numResidues ->
      exists entry,
        inRes !! Z.to_nat r = Some entry /\
        slice sorted entry = residue_members itg (getNumParticles sys) r.
Proof.
  intros Hc. unfold particlesByResidue.
  destruct (sort_by_residue_run itg (getNumParticles sys) Hc
              (seqZ 0 numResidues) [] (0, [], []))
    as ([[id_start sorted] inRes] & E & Hid & Hs & Hlen & Hj).
  { unfold sorted_upto. simpl. repeat apply conj; trivial.
    intros j r Hr. discriminate. }
  exists id_start, sorted, inRes. simpl in *.
  rewrite length_seqZ in Hlen. repeat apply conj; trivial.
  intros r Hr. destruct (Hj (Z.to_nat r) r) as (entry & Ee & _ & _ & _ & Hsl).
  { rewrite lookup_seqZ. lia. }
  now exists entry.
Qed.

(** Sorting a list into the buckets of its keys permutes it. *)
Lemma buckets_permute (key : Z -> Z) (ks : list Z) : forall l : list Z,
  NoDup ks -> (forall i, i ∈ l -> key i ∈ ks) ->
  concat ((fun r => filter (fun i => key i = r) l) <$> ks) ≡ₚ l.
Proof.
  induction ks as [|r ks IH]; intros l Hnd Hin.
  - destruct l as [|i l]; [reflexivity|].
    specialize (Hin i ltac:(left)). now apply elem_of_nil in Hin.
  - apply NoDup_cons in Hnd as [Hr Hnd]. rewrite fmap_cons. cbn [concat].
    etransitivity; [|apply (filter_app_complement (fun i => key i = r) l)].
    apply Permutation_app_head.
    assert (Heq : (fun r0 => filter (fun i => key i = r0) l) <$> ks
                  = (fun r0 => filter (fun i => key i = r0)
                                 (filter (fun i => key i <> r) l)) <$> ks).
    { apply Forall_fmap_ext_1, Forall_forall.
      intros r' Hr'. symmetry. apply list_filter_filter_l.
      intros i <- Hi. apply Hr. now rewrite <- Hi. }
    rewrite Heq. apply IH; [exact Hnd|].
    intros i Hi. apply list_elem_of_filter in Hi as [Hne Hi].
    specialize (Hin i Hi). apply elem_of_cons in Hin as [Heq'|Hin];
      [contradiction | exact Hin].
Qed.

(** X12.  When every particle has a residue the integrator counts,
    [particlesSortedByResIdVec] holds every particle of the system once:
    it is a rearrangement of [0 .. numParticles-1]. *)
Theorem sorted_by_residue_permutes sys itg numResidues id_start sorted inRes :
  (forall i, 0 <= i < getNumParticles sys ->
     0 <= vget (particleResId itg) i < numResidues) ->
  particlesByResidue sys itg numResidues = inr (id_start, sorted, inRes) ->
  sorted ≡ₚ seqZ 0 (getNumParticles sys).
Proof.
  intros Hres E.
  assert (Hc : getNumParticles sys <= Z.of_nat (length (particleResId itg))).
  { destruct (decide (getNumParticles sys <= 0)) as [|Hn]; [lia|].
    unfold particlesByResidue in E.
    destruct (decide (numResidues <= 0)) as [Hr|Hr].
    { specialize (Hres 0 ltac:(lia)). lia. }
    rewrite seqZ_cons in E by lia. cbn [sort_by_residue] in E.
    destruct (decide (getNumParticles sys
                      <= Z.of_nat (length (particleResId itg)))) as [|Hlt];
      [trivial|].
    exfalso.
    assert (G : forall l st0,
              Z.of_nat (length (particleResId itg)) ∈ l ->
              scan_residue itg 0 l st0 = inl IndexOutOfRange).
    { induction l as [|i l IH]; intros st0 Hin;
        [now apply elem_of_nil in Hin|].
      cbn [scan_residue]. unfold getParticleResId, checked_get.
      destruct (decide _) as [|Hok]; [reflexivity|].
      apply elem_of_cons in Hin as [Heq|Hin]; [lia|].
      unfold mbind, result_bind. now apply IH. }
    rewrite G in E; [discriminate|]. apply elem_of_seqZ. lia. }
  unfold particlesByResidue in E.
  destruct (sort_by_residue_run itg (getNumParticles sys) Hc
              (seqZ 0 numResidues) [] (0, [], []))
    as (st' & E' & _ & Hs & _).
  { unfold sorted_upto. simpl. repeat apply conj; trivial.
    intros j r Hr. discriminate. }
  rewrite E in E'. injection E' as <-. simpl in Hs. rewrite Hs.
  apply (buckets_permute (vget (particleResId itg))); [apply NoDup_seqZ|].
  intros i Hi. apply elem_of_seqZ in Hi. apply elem_of_seqZ.
  specialize (Hres i ltac:(lia)). lia.
Qed.

Lemma interleaved_residues i :
  0 <= i < 3 ->
  0 <= vget (particleResId Examples.interleaved_integrator) i < 2.
Proof.
  intros Hi. assert (Hc : i = 0 \/ i = 1 \/ i = 2) by lia.
  destruct Hc as [-> | [-> | ->]]; vm_compute; split; congruence.
Qed.

(** Two molecules that are not successive. *)
Lemma residue_slices_witness :
  exists id_start sorted inRes,
    particlesByResidue Examples.three_particles
      Examples.interleaved_integrator 2 = inr (id_start, sorted, inRes) /\
    id_start = Z.of_nat (length sorted) /\
    length inRes = 2%nat /\
    forall r, 0 <= r < 2 ->
      exists entry,
        inRes !! Z.to_nat r = Some entry /\
        slice sorted entry
        = residue_members Examples.interleaved_integrator 3 r.
Proof.
  apply (residue_slices Examples.three_particles
           Examples.interleaved_integrator 2).
  vm_compute. discriminate.
Defined.

Lemma sorted_by_residue_permutes_witness : [1; 0; 2] ≡ₚ seqZ 0 3.
Proof.
  apply (sorted_by_residue_permutes Examples.three_particles
           Examples.interleaved_integrator 2 3 [1; 0; 2] [(1, 0); (2, 1)]).
  - exact interleaved_residues.
  - reflexivity.
Defined.

End ResidueOrder.

(** ** Velocity scaling, group by group *)

Module Thermostat.
Import VV Cuda Vocabulary.
Section Scaling.
Local Open Scope R_scope.

Variable BOLTZ : R.
Variable c : Config.
Variable junk : R.

Local Abbreviation scaleVelocity := (Cuda.scaleVelocity BOLTZ c junk).
Local Abbreviation propagate_group := (Cuda.propagate_group BOLTZ c junk).

Lemma propagate_group_mass tg st :
  NHChain.eta_mass (propagate_group tg st) = etaMass (kernel st) !!! tg.
Proof.
  unfold Cuda.propagate_group. cbv zeta.
  apply (NHChainDivisions.records_propagateNHChain (D:=R)).
Qed.


(** X13.  [scaleVelocity] propagates the chain of every temperature group
    once, with the kinetic energy and the target of that group and the
    Drude temperature for the Drude group only; the groups do not touch one
    another's chain.  The scale factor of the group is the one
    [propagateNHChain] hands back, the kinetic energy of the group is
    multiplied by it, and the masses and the targets stay as they were. *)
Theorem scaleVelocity_by_group st (tg : nat) :
  three_groups st -> (tg < NUM_TG)%nat ->
  let st' := scaleVelocity st in
  let s := propagate_group tg st in
  vscaleFactorsNHVec st' !!! tg = NHChain.factor s /\
  kineticEnergiesNHVec st' !!! tg
    = kineticEnergiesNHVec st !!! tg * NHChain.factor s /\
  eta (kernel st') !!! tg = NHChain.eta s /\
  etaDot (kernel st') !!! tg = NHChain.eta_dot s /\
  etaDotDot (kernel st') !!! tg = NHChain.eta_dotdot s /\
  etaMass (kernel st') = etaMass (kernel st) /\
  tempGroupNkbT (kernel st') = tempGroupNkbT (kernel st) /\
  three_groups st'.
Proof.
  intros (L1 & L2 & L3 & L4 & L5 & L6) Htg. cbv zeta.
  pose proof (propagate_group_mass 0 st) as M0.
  pose proof (propagate_group_mass 1 st) as M1.
  pose proof (propagate_group_mass 2 st) as M2.
  destruct st as [[dof nkbt pairs em e ed edd] ke vs].
  unfold three_groups, NUM_TG in *.
  cbn [kernel tempGroupNkbT etaMass eta etaDot etaDotDot
       kineticEnergiesNHVec] in *.
  destruct nkbt as [|n0 [|n1 [|n2 [|]]]]; try discriminate.
  destruct em as [|em0 [|em1 [|em2 [|]]]]; try discriminate.
  destruct e as [|e0 [|e1 [|e2 [|]]]]; try discriminate.
  destruct ed as [|ed0 [|ed1 [|ed2 [|]]]]; try discriminate.
  destruct edd as [|edd0 [|edd1 [|edd2 [|]]]]; try discriminate.
  destruct ke as [|ke0 [|ke1 [|ke2 [|]]]]; try discriminate.
  unfold Cuda.scaleVelocity, Cuda.scale_group, Cuda.propagate_group in *.
  cbn -[NHChain.propagateNHChain] in *.
  rewrite M0, M1, M2.
  destruct tg as [|[|[|tg]]]; [| | | lia];
    cbn -[NHChain.propagateNHChain]; repeat apply conj; reflexivity.
Qed.


End Scaling.

Lemma some_state_has_three_groups : three_groups Examples.some_state.
Proof. repeat split. Qed.

(** The Drude group of a kernel with chains of three links. *)
Lemma scaleVelocity_by_group_witness :
  let st' := Cuda.scaleVelocity 1%R Examples.some_config 0%R
               Examples.some_state in
  let s := Cuda.propagate_group 1%R Examples.some_config 0%R TG_DRUDE
             Examples.some_state in
  vscaleFactorsNHVec st' !!! TG_DRUDE = NHChain.factor s /\
  kineticEnergiesNHVec st' !!! TG_DRUDE = (2 * NHChain.factor s)%R /\
  eta (kernel st') !!! TG_DRUDE = NHChain.eta s /\
  etaDot (kernel st') !!! TG_DRUDE = NHChain.eta_dot s /\
  etaDotDot (kernel st') !!! TG_DRUDE = NHChain.eta_dotdot s /\
  etaMass (kernel st') = etaMass (kernel Examples.some_state) /\
  tempGroupNkbT (kernel st') = tempGroupNkbT (kernel Examples.some_state) /\
  three_groups st'.
Proof.
  apply (scaleVelocity_by_group 1%R Examples.some_config 0%R
           Examples.some_state TG_DRUDE some_state_has_three_groups).
  unfold TG_DRUDE, NUM_TG. lia.
Defined.

End Thermostat.

(** ** The calls of a step *)

Module StepTrace.
Import VV Members Vocabulary.
Local Open Scope Z_scope.
Section Trace.

Variable stateChanged : Z -> bool.
Variable atomsWereReordered : Z -> bool.

Local Abbreviation one_step := (VV.one_step stateChanged atomsWereReordered).
Local Abbreviation step := (VV.step stateChanged atomsWereReordered).

Lemma emit_world c i cs n : emit c (World i cs n) = World i (cs ++ [c]) n.
Proof. reflexivity. Qed.

Lemma set_valid_world b i cs n :
  set_valid b (World i cs n) = World (set_forcesAreValid b i) cs n.
Proof. reflexivity. Qed.

Lemma when_emit_world (b : bool) c i cs n :
  when b (emit c) (World i cs n)
  = World i (cs ++ if b then [c] else []) n.
Proof. destruct b; simpl; [reflexivity | now rewrite app_nil_r]. Qed.

Lemma when_invalid_world (b : bool) i cs n :
  when b (set_valid false) (World i cs n)
  = World (if b then set_forcesAreValid false i else i) cs n.
Proof. now destruct b. Qed.

Lemma when_forces_world (b : bool) i cs n :
  when b (fun w => set_valid true (emit CalcForcesAndEnergy w)) (World i cs n)
  = World (if b then set_forcesAreValid true i else i)
      (cs ++ if b then [CalcForcesAndEnergy] else []) n.
Proof. destruct b; simpl; [reflexivity | now rewrite app_nil_r]. Qed.

Lemma thermostat_world i cs n :
  thermostat (World i cs n) = World i (cs ++ thermostat_calls i) n.
Proof.
  unfold thermostat, thermostat_calls, when, emit. simpl.
  destruct (bool_decide (particlesNH i ≠ [])),
    (Rneqb (cosAcceleration (config i)) 0); simpl;
    rewrite <- ?app_assoc, ?app_nil_r; reflexivity.
Qed.

(** One pass through the loop of [step]: its calls in their order, and
    what it leaves of the integrator and the step count. *)
Lemma one_step_trace w :
  one_step w =
  World (set_forcesAreValid true (integrator w))
    (calls w
     ++ step_calls (integrator w)
          (stateChanged (stepCount w) || negb (forcesAreValid (integrator w))))
    (stepCount w + 1).
Proof.
  destruct w as [itg cs n]. unfold VV.one_step. cbv zeta.
  cbn [integrator calls stepCount].
  rewrite !emit_world. cbn [integrator calls stepCount].
  rewrite !when_invalid_world. cbn [integrator calls stepCount].
  rewrite !when_forces_world. cbn [integrator calls stepCount].
  rewrite !thermostat_world, !emit_world. cbn [integrator calls stepCount].
  rewrite !when_invalid_world, !when_emit_world, !emit_world, !set_valid_world.
  rewrite !when_emit_world, !emit_world.
  cbn [integrator calls stepCount]. rewrite ?thermostat_world.
  cbn [integrator calls stepCount].
  unfold step_calls, extra_force_calls. cbv zeta. rewrite <- !app_assoc.
  destruct (stateChanged n), (forcesAreValid itg) eqn:Hv,
    (atomsWereReordered n); cbn [negb orb]; rewrite ?Hv; cbn [negb];
    destruct itg; reflexivity.
Qed.


Lemma set_valid_twice b b' itg :
  set_forcesAreValid b (set_forcesAreValid b' itg) = set_forcesAreValid b itg.
Proof. now destruct itg. Qed.

Lemma count_calls_app c i cs l n :
  count_calls c (World i (cs ++ l) n)
  = (count_calls c (World i cs n) + occurrences c l)%nat.
Proof.
  unfold count_calls, occurrences. simpl. now rewrite filter_app, length_app.
Qed.

(** The integrator and the step count after [k] passes. *)
Lemma iter_state k w :
  integrator (Nat.iter k one_step w)
  = (if k is O then integrator w else set_forcesAreValid true (integrator w))
  /\ stepCount (Nat.iter k one_step w) = stepCount w + Z.of_nat k.
Proof.
  induction k as [|k [IHi IHn]]; [simpl; split; [reflexivity | lia]|].
  rewrite Nat.iter_succ, one_step_trace. cbn [integrator stepCount].
  rewrite IHi, IHn. split; [|lia].
  destruct k; [reflexivity | apply set_valid_twice].
Qed.




Lemma step_bound n w :
  context (integrator w) <> None ->
  step n w = (inr tt, Nat.iter (Z.to_nat n) one_step w).
Proof. intros Hb. unfold VV.step. now destruct (context (integrator w)). Qed.

Lemma thermostat_calls_forces itg :
  occurrences CalcForcesAndEnergy (thermostat_calls itg) = 0%nat.
Proof.
  unfold thermostat_calls. cbv zeta.
  now destruct (bool_decide (particlesNH itg ≠ [])),
    (Rneqb (cosAcceleration (config itg)) 0).
Qed.

Lemma extra_force_calls_forces itg :
  occurrences CalcForcesAndEnergy (extra_force_calls itg) = 0%nat.
Proof.
  unfold extra_force_calls. cbv zeta.
  now destruct (bool_decide (particlesLD itg ≠ [])),
    (bool_decide (particlesElectrolyte itg ≠ [])),
    (Rneqb (cosAcceleration (config itg)) 0).
Qed.

Lemma occurrences_app c l1 l2 :
  occurrences c (l1 ++ l2) = (occurrences c l1 + occurrences c l2)%nat.
Proof. unfold occurrences. now rewrite filter_app, length_app. Qed.

Lemma step_calls_forces itg (r : bool) :
  occurrences CalcForcesAndEnergy (step_calls itg r)
  = if r then 2%nat else 1%nat.
Proof.
  unfold step_calls. rewrite !occurrences_app.
  rewrite !thermostat_calls_forces, extra_force_calls_forces.
  now destruct r, (bool_decide _).
Qed.


(** X16.  One pass through the loop of [step] computes the forces once,
    between the two halves, and once more before the first half exactly
    when the context state changed or the forces were marked invalid. *)
Theorem force_evaluations_per_step w :
  count_calls CalcForcesAndEnergy (one_step w)
  = (count_calls CalcForcesAndEnergy w
     + if stateChanged (stepCount w) || negb (forcesAreValid (integrator w))
       then 2%nat else 1%nat)%nat.
Proof.
  rewrite one_step_trace, count_calls_app, step_calls_forces.
  now destruct w.
Qed.

(** X17.  While the context state does not change, [n] steps cost [n]
    force computations, and one more when the forces were not valid at the
    start. *)
Theorem force_evaluations_of_a_run n w :
  (forall k, stateChanged k = false) ->
  context (integrator w) <> None -> 0 <= n ->
  count_calls CalcForcesAndEnergy (step n w).2
  = (count_calls CalcForcesAndEnergy w + Z.to_nat n
     + if forcesAreValid (integrator w) || bool_decide (n = 0%Z)
       then 0%nat else 1%nat)%nat.
Proof.
  intros Hq Hb Hn. rewrite step_bound by exact Hb. cbn [snd].
  replace (bool_decide (n = 0)) with (bool_decide (Z.to_nat n = 0%nat))
    by (apply bool_decide_ext; lia).
  induction (Z.to_nat n) as [|k IH].
  - simpl. rewrite orb_true_r. lia.
  - rewrite Nat.iter_succ, one_step_trace, count_calls_app, step_calls_forces.
    change (count_calls CalcForcesAndEnergy (World _ (calls ?X) _))
      with (count_calls CalcForcesAndEnergy X).
    rewrite IH, Hq.
    destruct (iter_state k w) as [-> _]. simpl.
    destruct k; simpl.
    + rewrite orb_true_r. destruct (forcesAreValid (integrator w)); simpl; lia.
    + replace (forcesAreValid (set_forcesAreValid true (integrator w)))
        with true by now destruct (integrator w).
      simpl. rewrite !orb_false_r.
      destruct (forcesAreValid (integrator w)); lia.
Qed.



(** X20.  Within a step the forces are computed between the two halves:
    after [FirstIntegrate] comes at most the update of the image positions,
    then the force computation, then only calls that build the extra force,
    then [SecondIntegrate]; and the step has no other [FirstIntegrate] or
    [SecondIntegrate]. *)
Theorem forces_between_the_halves w :
  exists before between after rest,
    calls (one_step w)
    = calls w ++ before ++ [FirstIntegrate] ++ between
      ++ [CalcForcesAndEnergy] ++ after ++ [SecondIntegrate] ++ rest /\
    (between = [] \/ between = [UpdateImagePositions]) /\
    Forall is_extra_force after /\
    Forall (fun c => c <> FirstIntegrate /\ c <> SecondIntegrate)
      (before ++ rest).
Proof.
  rewrite one_step_trace. cbn [calls]. unfold step_calls.
  exists ([UpdateContextState]
          ++ (if stateChanged (stepCount w)
                 || negb (forcesAreValid (integrator w))
              then [CalcForcesAndEnergy] else [])
          ++ thermostat_calls (integrator w)),
         (if bool_decide (particlesImage (integrator w) ≠ [])
          then [UpdateImagePositions] else []),
         (extra_force_calls (integrator w)),
         (thermostat_calls (integrator w)).
  repeat apply conj.
  - now rewrite <- !app_assoc.
  - destruct (bool_decide _); auto.
  - unfold extra_force_calls, is_extra_force. cbv zeta.
    destruct (bool_decide (particlesLD (integrator w) ≠ [])),
      (bool_decide (particlesElectrolyte (integrator w) ≠ [])),
      (Rneqb (cosAcceleration (config (integrator w))) 0); simpl;
      repeat first [apply Forall_nil | apply Forall_cons; split]; auto 6.
  - unfold thermostat_calls. cbv zeta.
    destruct (stateChanged (stepCount w)
              || negb (forcesAreValid (integrator w))),
      (bool_decide (particlesNH (integrator w) ≠ [])),
      (Rneqb (cosAcceleration (config (integrator w))) 0); simpl;
      repeat first [apply Forall_nil | apply Forall_cons; split];
      split; discriminate.
Qed.

(** X21.  Steps add up: [a + b] steps are [a] steps followed by [b]
    steps. *)
Theorem step_composes a b w :
  context (integrator w) <> None -> 0 <= a -> 0 <= b ->
  step (a + b) w = step b (step a w).2.
Proof.
  intros Hb Ha Hb'. rewrite (step_bound a) by exact Hb. cbn [snd].
  rewrite !step_bound; trivial.
  - rewrite Z2Nat.inj_add, Nat.add_comm by lia. now rewrite Nat.iter_add.
  - destruct (iter_state (Z.to_nat a) w) as [-> _].
    destruct (Z.to_nat a); [exact Hb | now destruct (integrator w)].
Qed.

(** X22.  A query of the kinetic energy makes the next step compute the
    forces anew before its first half: the step starts with the update of
    the context state and a force computation, and computes the forces
    twice. *)
Theorem kinetic_energy_query_invalidates ke itg cs n :
  let w := World (computeKineticEnergy ke itg).2 cs n in
  (computeKineticEnergy ke itg).1 = ke /\
  (exists rest,
     calls (one_step w)
     = cs ++ [UpdateContextState; CalcForcesAndEnergy] ++ rest) /\
  count_calls CalcForcesAndEnergy (one_step w)
  = (count_calls CalcForcesAndEnergy w + 2)%nat.
Proof.
  cbv zeta. split; [reflexivity|]. split.
  - rewrite one_step_trace. unfold computeKineticEnergy, step_calls.
    cbn [snd integrator calls stepCount].
    replace (forcesAreValid (set_forcesAreValid false itg)) with false
      by now destruct itg.
    rewrite orb_true_r. eexists. reflexivity.
  - rewrite one_step_trace, count_calls_app, step_calls_forces.
    unfold computeKineticEnergy. cbn [snd integrator stepCount].
    replace (forcesAreValid (set_forcesAreValid false itg)) with false
      by now destruct itg.
    now rewrite orb_true_r.
Qed.

End Trace.

Lemma bound_world_is_bound :
  context (integrator Examples.bound_world) <> None.
Proof.
  change (context (integrator Examples.bound_world))
    with (Some Examples.plain_context).
  discriminate.
Qed.


(** Three steps from forces that are not valid: four force computations. *)
Lemma force_evaluations_of_a_run_witness :
  count_calls CalcForcesAndEnergy
    (VV.step Examples.quiet Examples.quiet 3 Examples.bound_world).2
  = 4%nat.
Proof.
  refine (eq_trans
            (force_evaluations_of_a_run Examples.quiet Examples.quiet 3
               Examples.bound_world (fun _ => eq_refl) bound_world_is_bound _)
            _); [lia | reflexivity].
Defined.


(** One step and two steps are three steps. *)
Lemma step_composes_witness :
  VV.step Examples.quiet Examples.quiet (1 + 2) Examples.bound_world
  = VV.step Examples.quiet Examples.quiet 2
      (VV.step Examples.quiet Examples.quiet 1 Examples.bound_world).2.
Proof.
  refine (step_composes Examples.quiet Examples.quiet 1 2
            Examples.bound_world bound_world_is_bound _ _); lia.
Defined.

End StepTrace.

(** ** What [initialize] throws and what it leaves *)

Module Initialization.
Import VV Members Vocabulary.
Local Open Scope Z_scope.
Section Outcome.

Variable BOLTZ : R.
Implicit Types itg : VVIntegrator.

(** [initialize] when the binding check passes, check by check. *)
Lemma initialize_unfold contextRef itg :
  owner itg = None \/ owner itg = Some (getOwner contextRef) ->
  initialize BOLTZ contextRef itg =
  let sys := getSystem contextRef in
  match find_DrudeForce (forces sys) None with
  | inl e => (inl e, itg)
  | inr force =>
      if bool_decide (force = None) && useCOMTempGroup (config itg)
      then (inl COMGroupWithoutDrude, itg)
      else
        match classify contextRef itg with
        | (inl e, itg1) => (inl e, itg1)
        | (inr _, itg1) =>
            if bool_decide (particlesLD itg1 ≠ []) &&
               Rneqb (cosAcceleration (config itg1)) 0
            then (inl LangevinPerturbationConflict, itg1)
            else
              let itg2 := set_binding contextRef itg1 in
              if bool_decide (particlesNH itg2 ≠ [])
              then match NoseKernel_initialize BOLTZ sys itg2 force with
                   | inl e => (inl e, itg2)
                   | inr k => (inr tt, set_nhKernel (Some k) itg2)
                   end
              else (inr tt, itg2)
        end
  end.
Proof.
  intros Hb. cbv zeta.
  unfold initialize, configure, check_binding, read, call, throw, update,
    mbind, M_bind. cbv zeta.
  assert (Hpass : (match owner itg with
                   | Some o' => if decide (getOwner contextRef = o')
                                then mret tt else throw BindingConflict
                   | None => mret tt
                   end) itg = (inr tt, itg)).
  { destruct Hb as [-> | ->]; [reflexivity|].
    now rewrite decide_True by reflexivity. }
  unfold throw in Hpass. rewrite Hpass.
  destruct (find_DrudeForce _ _) as [e|force]; [reflexivity|].
  destruct (bool_decide (force = None) && _); [reflexivity|]. simpl.
  destruct (classify contextRef itg) as [[e|[]] itg1]; [reflexivity|]. simpl.
  destruct (bool_decide _ && Rneqb _ _); [reflexivity|]. simpl.
  destruct (bool_decide _); [|reflexivity].
  now destruct (NoseKernel_initialize _ _ _ _).
Qed.

Lemma check_LD_loop_result l itg :
  (forall i, i ∈ l -> 0 <= i < Z.of_nat (length (particleResId itg))) ->
  for_in l check_LD itg = (inr tt, itg) \/
  for_in l check_LD itg = (inl NHLangevinConflict, itg).
Proof.
  induction l as [|i l IH]; intros Hl; [now left|].
  simpl. unfold mbind, M_bind.
  rewrite Classification.check_LD_run by (apply Hl; left).
  destruct (_ && _); [now right|].
  apply IH. intros k Hk. apply Hl. now right.
Qed.

(** The classification returns or finds a mixed residue; the tables it
    builds cover the particles, so it throws no index error. *)
Lemma classify_result contextRef itg :
  exists itg1,
    (classify contextRef itg = (inr tt, itg1) \/
     classify contextRef itg = (inl NHLangevinConflict, itg1)) /\
    same_but_NH (with_residues contextRef itg) itg1 /\
    particlesNH itg1 =
      particlesNH itg
      ++ filter (fun i => thermostatted_NH itg i = true)
           (seqZ 0 (getNumParticles (getSystem contextRef))).
Proof.
  rewrite Classification.classify_unfold. cbv zeta.
  set (n := getNumParticles (getSystem contextRef)).
  set (itg0 := with_residues contextRef itg).
  assert (Hlen : Z.of_nat (length (particleResId itg0)) = n).
  { change (particleResId itg0)
      with (assign_residues n (getMolecules contextRef)).
    rewrite Classification.assign_residues_length.
    unfold n, getNumParticles. lia. }
  destruct (Classification.classify_NH_loop (seqZ 0 n) itg0)
    as (itg1 & E1 & S1 & P1 & _).
  { intros i Hi. apply elem_of_seqZ in Hi. lia. }
  rewrite E1. exists itg1.
  assert (HId : particleResId itg1 = particleResId itg0) by now rewrite S1.
  assert (Hin : forall i, i ∈ seqZ 0 n ->
                  0 <= i < Z.of_nat (length (particleResId itg1))).
  { intros i Hi. apply elem_of_seqZ in Hi. rewrite HId. lia. }
  split; [|split; [exact S1 | exact P1]].
  destruct (check_LD_loop_result (seqZ 0 n) itg1 Hin) as [-> | ->]; auto.
Qed.

(** The search for the [DrudeForce] throws when it meets a second one. *)
Lemma find_DrudeForce_count fs : forall force,
  let k := (count_DrudeForces fs + if force is Some _ then 1 else 0)%nat in
  ((2 <= k)%nat -> find_DrudeForce fs force = inl MultipleForceDefinition) /\
  ((k <= 1)%nat ->
   exists r, find_DrudeForce fs force = inr r /\ (r = None <-> k = 0%nat)).
Proof.
  unfold count_DrudeForces.
  induction fs as [|f fs IH]; intros force; cbv zeta.
  - simpl. split; [destruct force; simpl; lia|].
    intros _. exists force. split; [reflexivity|].
    destruct force; simpl; split; (discriminate || lia || reflexivity).
  - rewrite filter_cons. destruct f as [pairs| |]; simpl.
    + destruct force as [p|]; simpl.
      * split; [reflexivity | lia].
      * destruct (IH (Some pairs)) as [IH1 IH2]. simpl in *.
        split; [intros Hk; apply IH1; lia|].
        intros Hk. destruct IH2 as (r & -> & Hr); [lia|].
        exists r. split; [reflexivity|]. split; [intros E; apply Hr in E|]; lia.
    + apply IH.
    + apply IH.
Qed.

Lemma classified_config contextRef itg itg1 :
  same_but_NH (with_residues contextRef itg) itg1 ->
  particlesLD itg1 = particlesLD itg /\ config itg1 = config itg /\
  context itg1 = context itg /\ owner itg1 = owner itg.
Proof.
  intros S. destruct (Classification.same_but_NH_fields _ _ S)
    as (-> & _ & _ & -> & -> & ->).
  now repeat split.
Qed.

(** Every exception of [initialize] after the binding check, with its
    cause. *)
Lemma initialize_throws_cases contextRef itg e :
  owner itg = None \/ owner itg = Some (getOwner contextRef) ->
  (initialize BOLTZ contextRef itg).1 = inl e ->
  let n := count_DrudeForces (forces (getSystem contextRef)) in
  (e = MultipleForceDefinition /\ (2 <= n)%nat) \/
  (e = COMGroupWithoutDrude /\ n = 0%nat /\
   useCOMTempGroup (config itg) = true) \/
  (e = NHLangevinConflict /\ (n <= 1)%nat) \/
  (e = LangevinPerturbationConflict /\ (n <= 1)%nat /\
   particlesLD itg <> [] /\ cosAcceleration (config itg) <> 0%R) \/
  (e = IndexOutOfRange /\ (n <= 1)%nat).
Proof.
  intros Hb. rewrite initialize_unfold by exact Hb. cbv zeta.
  destruct (find_DrudeForce_count (forces (getSystem contextRef)) None)
    as [Hmany Hfew]. simpl in Hmany, Hfew. rewrite Nat.add_0_r in Hmany, Hfew.
  destruct (le_lt_dec 2 (count_DrudeForces (forces (getSystem contextRef))))
    as [Hn|Hn].
  { rewrite Hmany by exact Hn. intros [= <-]. left. now split. }
  destruct Hfew as (force & -> & Hnone); [lia|].
  destruct (bool_decide (force = None) && useCOMTempGroup (config itg))
    eqn:Hcom.
  { apply andb_prop in Hcom as [Hf Hcom]. apply bool_decide_eq_true in Hf.
    intros [= <-]. right; left. repeat split; trivial. apply Hnone in Hf. lia. }
  destruct (classify_result contextRef itg) as (itg1 & [-> | ->] & S & _).
  2:{ intros [= <-]. right; right; left. split; [reflexivity | lia]. }
  destruct (classified_config _ _ _ S) as (-> & -> & _).
  assert (Hk : forall (b : bool) itg2 r,
            (if b
             then match NoseKernel_initialize BOLTZ (getSystem contextRef)
                          itg2 force with
                  | inl e => (inl e, itg2)
                  | inr k => (inr tt, set_nhKernel (Some k) itg2)
                  end
             else (inr tt, itg2)).1 = inl r -> r = IndexOutOfRange).
  { intros b itg2 r. destruct b; simpl; [|discriminate].
    destruct (NoseKernel_initialize _ _ _ _) as [e'|k] eqn:Ek; simpl;
      [|discriminate].
    apply (Binding.NoseKernel_initialize_throws BOLTZ) in Ek. subst e'.
    now intros [= <-]. }
  destruct (bool_decide_reflect (particlesLD itg ≠ [])) as [Hld|Hld]; simpl.
  - unfold Rneqb. destruct (Req_dec_T _ _) as [Hc|Hc].
    + intros He. apply Hk in He. subst e. do 4 right.
      split; [reflexivity | lia].
    + intros [= <-]. do 3 right. left. repeat split; trivial. lia.
  - intros He. apply Hk in He. subst e. do 4 right.
    split; [reflexivity | lia].
Qed.

(** X23.  Once the binding check passes, [initialize] throws the error of
    the multiple [DrudeForce]s exactly when the system has two or more of
    them; it then leaves the integrator as it was. *)
Theorem multiple_DrudeForces_are_refused contextRef itg :
  owner itg = None \/ owner itg = Some (getOwner contextRef) ->
  ((initialize BOLTZ contextRef itg).1 = inl MultipleForceDefinition <->
   (2 <= count_DrudeForces (forces (getSystem contextRef)))%nat) /\
  ((2 <= count_DrudeForces (forces (getSystem contextRef)))%nat ->
   initialize BOLTZ contextRef itg = (inl MultipleForceDefinition, itg)).
Proof.
  intros Hb.
  assert (Hthrow : (2 <= count_DrudeForces (forces (getSystem contextRef)))%nat
            -> initialize BOLTZ contextRef itg
               = (inl MultipleForceDefinition, itg)).
  { intros Hn. rewrite initialize_unfold by exact Hb. cbv zeta.
    destruct (find_DrudeForce_count (forces (getSystem contextRef)) None)
      as [Hmany _]. simpl in Hmany. rewrite Nat.add_0_r in Hmany.
    now rewrite (Hmany Hn). }
  split; [|exact Hthrow]. split; [|intros Hn; now rewrite Hthrow].
  intros He.
  destruct (initialize_throws_cases _ _ _ Hb He)
    as [[_ Hn] | [[Hx _] | [[Hx _] | [[Hx _] | [Hx _]]]]];
    [exact Hn | discriminate ..].
Qed.

(** X24.  Once the binding check passes, [initialize] refuses the group of
    the centres of mass exactly when the integrator asks for it and the
    system has no [DrudeForce]; it then leaves the integrator as it was. *)
Theorem COM_group_needs_a_DrudeForce contextRef itg :
  owner itg = None \/ owner itg = Some (getOwner contextRef) ->
  ((initialize BOLTZ contextRef itg).1 = inl COMGroupWithoutDrude <->
   count_DrudeForces (forces (getSystem contextRef)) = 0%nat /\
   useCOMTempGroup (config itg) = true) /\
  (count_DrudeForces (forces (getSystem contextRef)) = 0%nat ->
   useCOMTempGroup (config itg) = true ->
   initialize BOLTZ contextRef itg = (inl COMGroupWithoutDrude, itg)).
Proof.
  intros Hb.
  assert (Hthrow : count_DrudeForces (forces (getSystem contextRef)) = 0%nat ->
            useCOMTempGroup (config itg) = true ->
            initialize BOLTZ contextRef itg = (inl COMGroupWithoutDrude, itg)).
  { intros Hn Hcom. rewrite initialize_unfold by exact Hb. cbv zeta.
    destruct (find_DrudeForce_count (forces (getSystem contextRef)) None)
      as [_ Hfew]. simpl in Hfew. rewrite Nat.add_0_r in Hfew.
    destruct (Hfew ltac:(lia)) as (r & -> & Hr).
    apply Hr in Hn. subst r. now rewrite Hcom. }
  split; [|exact Hthrow]. split; [|intros [Hn Hcom]; now rewrite Hthrow].
  intros He.
  destruct (initialize_throws_cases _ _ _ Hb He)
    as [[Hx _] | [[_ Hn] | [[Hx _] | [[Hx _] | [Hx _]]]]];
    [discriminate | exact Hn | discriminate ..].
Qed.

(** X25.  [initialize] adds to its tables and does not take anything back:
    once the checks on the forces pass, whether it returns or throws later,
    it has appended to [particlesNH] the particles of the system that are
    neither Langevin particles nor images, and to [residueInvMasses] the
    inverse of every new residue mass.  A second [initialize] lists every
    such particle twice. *)
Theorem initialize_appends contextRef itg :
  owner itg = None \/ owner itg = Some (getOwner contextRef) ->
  (count_DrudeForces (forces (getSystem contextRef)) <= 1)%nat ->
  (count_DrudeForces (forces (getSystem contextRef)) = 0%nat ->
   useCOMTempGroup (config itg) = false) ->
  let itg' := (initialize BOLTZ contextRef itg).2 in
  let sys := getSystem contextRef in
  particlesNH itg' =
    particlesNH itg
    ++ filter (fun i => thermostatted_NH itg i = true)
         (seqZ 0 (getNumParticles sys)) /\
  residueInvMasses itg' =
    residueInvMasses itg ++ ((fun m => 1 / m)%R <$> residueMasses itg') /\
  residueMasses itg' =
    sum_residue_masses sys (particleResId itg')
      (length (getMolecules contextRef)) /\
  particleResId itg' =
    assign_residues (getNumParticles sys) (getMolecules contextRef).
Proof.
  intros Hb Hn Hcom. cbv zeta. rewrite initialize_unfold by exact Hb. cbv zeta.
  destruct (find_DrudeForce_count (forces (getSystem contextRef)) None)
    as [_ Hfew]. simpl in Hfew. rewrite Nat.add_0_r in Hfew.
  destruct (Hfew Hn) as (force & -> & Hr).
  assert (Hc : bool_decide (force = None) && useCOMTempGroup (config itg)
               = false).
  { destruct (bool_decide_reflect (force = None)) as [Hf|Hf]; [|reflexivity].
    apply Hr in Hf. now rewrite Hcom. }
  rewrite Hc.
  destruct (classify_result contextRef itg) as (itg1 & Hcl & S & P).
  assert (G : forall itg2,
            particlesNH itg2 = particlesNH itg1 ->
            residueInvMasses itg2 = residueInvMasses itg1 ->
            residueMasses itg2 = residueMasses itg1 ->
            particleResId itg2 = particleResId itg1 ->
            particlesNH itg2 =
              particlesNH itg
              ++ filter (fun i => thermostatted_NH itg i = true)
                   (seqZ 0 (getNumParticles (getSystem contextRef))) /\
            residueInvMasses itg2 =
              residueInvMasses itg
              ++ ((fun m => 1 / m)%R <$> residueMasses itg2) /\
            residueMasses itg2 =
              sum_residue_masses (getSystem contextRef) (particleResId itg2)
                (length (getMolecules contextRef)) /\
            particleResId itg2 =
              assign_residues (getNumParticles (getSystem contextRef))
                (getMolecules contextRef)).
  { intros itg2 -> -> -> ->. rewrite P, S. now repeat split. }
  destruct Hcl as [-> | ->]; [|now apply G].
  destruct (bool_decide _ && Rneqb _ _); [now apply G|]. cbv zeta.
  destruct (bool_decide (particlesNH _ ≠ [])); [|now apply G].
  destruct (NoseKernel_initialize _ _ _ _); now apply G.
Qed.

(** X26.  The binding after [initialize]: when it returns, and also when
    the Nose-Hoover kernel throws its index error, the integrator is bound
    to the context it was given; after every other exception the binding is
    as it was. *)
Theorem binding_after_initialize contextRef itg :
  match initialize BOLTZ contextRef itg with
  | (inr _, itg') =>
      context itg' = Some contextRef /\ owner itg' = Some (getOwner contextRef)
  | (inl e, itg') =>
      (e = IndexOutOfRange ->
       context itg' = Some contextRef /\
       owner itg' = Some (getOwner contextRef)) /\
      (e <> IndexOutOfRange ->
       context itg' = context itg /\ owner itg' = owner itg)
  end.
Proof.
  pose proof (Classification.initialize_binding BOLTZ contextRef itg) as Hbind.
  destruct (initialize BOLTZ contextRef itg) as [[e|[]] itg'] eqn:E;
    [|exact Hbind].
  split; [|exact Hbind]. intros ->.
  assert (Hb : owner itg = None \/ owner itg = Some (getOwner contextRef)).
  { destruct (owner itg) as [o|] eqn:Ho; [|now left].
    destruct (decide (getOwner contextRef = o)) as [->|Hne]; [now right|].
    exfalso. revert E.
    unfold initialize, check_binding, read, throw, mbind, M_bind.
    rewrite Ho, decide_False by exact Hne. discriminate. }
  rewrite initialize_unfold in E by exact Hb. cbv zeta in E.
  destruct (find_DrudeForce _ _) as [e|force] eqn:Ef.
  { apply Binding.find_DrudeForce_throws in Ef. subst e. discriminate. }
  destruct (bool_decide (force = None) && _); [discriminate|].
  destruct (classify_result contextRef itg) as (itg1 & [Hcl | Hcl] & _);
    rewrite Hcl in E; [|discriminate].
  destruct (bool_decide _ && Rneqb _ _); [discriminate|]. cbv zeta in E.
  destruct (bool_decide (particlesNH _ ≠ [])); [|discriminate].
  destruct (NoseKernel_initialize _ _ _ _); [|discriminate].
  injection E as _ <-. now split.
Qed.

(** When [initialize] returns, the classification returned, and the
    integrator is the one it left, bound, with or without the kernel. *)
Lemma initialize_returned contextRef itg itg' :
  initialize BOLTZ contextRef itg = (inr tt, itg') ->
  exists itg1,
    classify contextRef itg = (inr tt, itg1) /\
    same_but_NH (with_residues contextRef itg) itg1 /\
    (itg' = set_binding contextRef itg1 \/
     exists k, itg' = set_nhKernel (Some k) (set_binding contextRef itg1)).
Proof.
  intros E.
  assert (Hb : owner itg = None \/ owner itg = Some (getOwner contextRef)).
  { destruct (owner itg) as [o|] eqn:Ho; [|now left].
    destruct (decide (getOwner contextRef = o)) as [->|Hne]; [now right|].
    exfalso. revert E.
    unfold initialize, check_binding, read, throw, mbind, M_bind.
    rewrite Ho, decide_False by exact Hne. discriminate. }
  rewrite initialize_unfold in E by exact Hb. cbv zeta in E.
  destruct (find_DrudeForce _ _) as [e|force]; [discriminate|].
  destruct (bool_decide (force = None) && _); [discriminate|].
  destruct (classify_result contextRef itg) as (itg1 & [Hcl | Hcl] & S & _);
    rewrite Hcl in E; [|discriminate].
  exists itg1. split; [exact Hcl|]. split; [exact S|].
  destruct (bool_decide _ && Rneqb _ _); [discriminate|]. cbv zeta in E.
  destruct (bool_decide (particlesNH _ ≠ [])).
  - destruct (NoseKernel_initialize _ _ _ _) as [e|k]; [discriminate|].
    injection E as <-. right. now exists k.
  - injection E as <-. now left.
Qed.

End Outcome.

(** What [addImagePair] calls leave of the integrator. *)
Lemma addImagePairs_sets l : forall itg,
  let itg' := (addImagePairs l itg).2 in
  particlesImage itg' = particlesImage itg ++ l.*1 /\
  particlesLD itg' = particlesLD itg /\
  particlesNH itg' = particlesNH itg /\
  owner itg' = owner itg /\ config itg' = config itg.
Proof.
  induction l as [|[image parent] l IH]; intros itg; cbv zeta.
  - simpl. now rewrite app_nil_r.
  - cbn [addImagePairs].
    destruct (addImagePair image parent itg) as [r itg1] eqn:E1.
    specialize (IH itg1). cbv zeta in IH.
    destruct (addImagePairs l itg1) as [rs itg2]. simpl in *.
    injection E1 as _ <-. simpl in IH.
    destruct IH as (-> & -> & -> & -> & ->).
    rewrite <- app_assoc. now repeat split.
Qed.

(** X27.  A particle given to [addImagePair] is never thermostatted: on a
    new integrator, after any [addImagePair] calls, an [initialize] that
    returns leaves in [particlesNH], once each, exactly the particles of
    the system that are not images. *)
Theorem images_are_not_thermostatted (BOLTZ : R) cfg l contextRef itg' :
  initialize BOLTZ contextRef (addImagePairs l (VVIntegrator_new cfg)).2
    = (inr tt, itg') ->
  NoDup (particlesNH itg') /\
  forall p, p ∈ particlesNH itg' <->
    0 <= p < getNumParticles (getSystem contextRef) /\ p ∉ l.*1.
Proof.
  intros E.
  destruct (addImagePairs_sets l (VVIntegrator_new cfg))
    as (Himg & Hld & Hnh & _). cbv zeta in *. simpl in *.
  set (itg := (addImagePairs l (VVIntegrator_new cfg)).2) in *.
  destruct (initialize_returned BOLTZ _ _ _ E) as (itg1 & Hcl & _ & Hitg').
  destruct (classify_result contextRef itg) as (itg1' & [Hcl' | Hcl'] & _ & P);
    rewrite Hcl in Hcl'; [|discriminate].
  injection Hcl' as <-.
  assert (HNH : particlesNH itg' = particlesNH itg1)
    by (destruct Hitg' as [-> | [k ->]]; reflexivity).
  rewrite HNH, P, Hnh. simpl. split.
  - apply NoDup_filter, NoDup_seqZ.
  - intros p. rewrite list_elem_of_filter, elem_of_seqZ.
    unfold thermostatted_NH, isParticleLD, isParticleImage.
    rewrite Hld, Himg.
    rewrite (bool_decide_false (p ∈ [])) by apply not_elem_of_nil.
    destruct (bool_decide_reflect (p ∈ l.*1)); simpl;
      intuition (discriminate || lia).
Qed.

(** A system with two [DrudeForce]s. *)
Lemma multiple_DrudeForces_are_refused_witness :
  ((initialize 1%R Examples.two_drude_context
      (VVIntegrator_new Examples.some_config)).1
   = inl MultipleForceDefinition <->
   (2 <= count_DrudeForces
           (forces (getSystem Examples.two_drude_context)))%nat) /\
  ((2 <= count_DrudeForces
           (forces (getSystem Examples.two_drude_context)))%nat ->
   initialize 1%R Examples.two_drude_context
     (VVIntegrator_new Examples.some_config)
   = (inl MultipleForceDefinition, VVIntegrator_new Examples.some_config)).
Proof.
  exact (multiple_DrudeForces_are_refused 1%R Examples.two_drude_context
           (VVIntegrator_new Examples.some_config) (or_introl eq_refl)).
Defined.

(** A system without forces and an integrator that asks for the group. *)
Lemma COM_group_needs_a_DrudeForce_witness :
  ((initialize 1%R Examples.plain_context
      (VVIntegrator_new Examples.com_config)).1
   = inl COMGroupWithoutDrude <->
   count_DrudeForces (forces (getSystem Examples.plain_context)) = 0%nat /\
   useCOMTempGroup (config (VVIntegrator_new Examples.com_config)) = true) /\
  (count_DrudeForces (forces (getSystem Examples.plain_context)) = 0%nat ->
   useCOMTempGroup (config (VVIntegrator_new Examples.com_config)) = true ->
   initialize 1%R Examples.plain_context
     (VVIntegrator_new Examples.com_config)
   = (inl COMGroupWithoutDrude, VVIntegrator_new Examples.com_config)).
Proof.
  exact (COM_group_needs_a_DrudeForce 1%R Examples.plain_context
           (VVIntegrator_new Examples.com_config) (or_introl eq_refl)).
Defined.

(** A second [initialize] of a bound integrator. *)
Lemma initialize_appends_witness :
  let itg := Examples.bound_integrator in
  let itg' := (initialize 1%R Examples.plain_context itg).2 in
  let sys := getSystem Examples.plain_context in
  particlesNH itg' =
    particlesNH itg
    ++ filter (fun i => thermostatted_NH itg i = true)
         (seqZ 0 (getNumParticles sys)) /\
  residueInvMasses itg' =
    residueInvMasses itg ++ ((fun m => 1 / m)%R <$> residueMasses itg') /\
  residueMasses itg' =
    sum_residue_masses sys (particleResId itg')
      (length (getMolecules Examples.plain_context)) /\
  particleResId itg' =
    assign_residues (getNumParticles sys)
      (getMolecules Examples.plain_context).
Proof.
  exact (initialize_appends 1%R Examples.plain_context
           Examples.bound_integrator (or_intror eq_refl)
           (le_S _ _ (le_n 0)) (fun _ => eq_refl)).
Defined.

Lemma image_example_returns :
  let itg := (addImagePairs [(2, 0)]
                (VVIntegrator_new Examples.some_config)).2 in
  initialize 1%R Examples.plain_context itg
  = (inr tt, (initialize 1%R Examples.plain_context itg).2).
Proof.
  cbv zeta. set (x := initialize _ _ _).
  transitivity (x.1, x.2); [apply surjective_pairing | f_equal].
Qed.

(** Particle 2 of three is an image. *)
Lemma images_are_not_thermostatted_witness :
  let itg' := (initialize 1%R Examples.plain_context
                 (addImagePairs [(2, 0)]
                    (VVIntegrator_new Examples.some_config)).2).2 in
  NoDup (particlesNH itg') /\
  forall p, p ∈ particlesNH itg' <->
    0 <= p < getNumParticles (getSystem Examples.plain_context) /\
    p ∉ [(2, 0)].*1.
Proof.
  exact (images_are_not_thermostatted 1%R Examples.some_config [(2, 0)]
           Examples.plain_context _ image_example_returns).
Defined.

End Initialization.

(** ** Residues and their masses *)

Module Residues.
Import VV Members Vocabulary.
Local Open Scope Z_scope.

Lemma vget_vset_eq {A} `{Inhabited A} (v : list A) (i : Z) (x : A) :
  0 <= i < Z.of_nat (length v) -> vget (vset v i x) i = x.
Proof.
  intros Hi. unfold vget, vset. rewrite !decide_False by lia.
  apply list_lookup_total_insert_eq. lia.
Qed.

Lemma vget_vset_ne {A} `{Inhabited A} (v : list A) (i j : Z) (x : A) :
  i <> j -> 0 <= j -> vget (vset v i x) j = vget v j.
Proof.
  intros Hne Hj. unfold vget. rewrite !decide_False by lia. unfold vset.
  destruct (decide (i < 0)); [reflexivity|].
  apply list_lookup_total_insert_ne. lia.
Qed.

Lemma length_vset {A} (v : list A) (i : Z) (x : A) :
  length (vset v i x) = length v.
Proof. unfold vset. destruct (decide _); [reflexivity | apply length_insert]. Qed.

Section Masses.
Local Open Scope R_scope.

Variable sys : System.
Variable ids : list Z.

(** The loop of lines 116-117 over the particles [l], seen from the
    residue [r]. *)
Lemma sum_masses_run (r : Z) l : forall ms : list R,
  (0 <= r < Z.of_nat (length ms))%Z ->
  vget (foldl (fun ms i =>
                 vset ms (vget ids i)
                   (vget ms (vget ids i) + getParticleMass sys i))
          ms l) r
  = foldl Rplus (vget ms r)
      (getParticleMass sys <$> filter (fun i => vget ids i = r) l).
Proof.
  induction l as [|i l IH]; intros ms Hr; [reflexivity|].
  cbn [foldl]. rewrite IH by (rewrite length_vset; exact Hr).
  rewrite filter_cons. destruct (decide (vget ids i = r)) as [->|Hne].
  - rewrite fmap_cons. cbn [foldl]. now rewrite vget_vset_eq by exact Hr.
  - now rewrite vget_vset_ne by (trivial; lia).
Qed.

(** X28.  When every particle has a residue the integrator counts, the
    mass of a residue is the sum of the masses of its particles, added in
    the order of the particles. *)
Theorem residue_mass_is_the_sum (numResidues : nat) (r : Z) :
  (forall i, (0 <= i < getNumParticles sys)%Z ->
     (0 <= vget ids i < Z.of_nat numResidues)%Z) ->
  (0 <= r < Z.of_nat numResidues)%Z ->
  vget (sum_residue_masses sys ids numResidues) r
  = Rsum (getParticleMass sys
            <$> filter (fun i => vget ids i = r)
                  (seqZ 0 (getNumParticles sys))).
Proof.
  intros _ Hr. unfold sum_residue_masses, Rsum.
  rewrite sum_masses_run by (rewrite length_replicate; exact Hr).
  f_equal. unfold vget. rewrite decide_False by lia.
  apply lookup_total_replicate_2. lia.
Qed.

End Masses.

Section Molecules.

(** Lines 112-113 for the molecule [i]. *)
Lemma assign_molecule (v : Z) (molecule : list Z) : forall (ids : list Z) p,
  0 <= p < Z.of_nat (length ids) ->
  vget (foldl (fun ids p => vset ids p v) ids molecule) p
  = if bool_decide (p ∈ molecule) then v else vget ids p.
Proof.
  induction molecule as [|q molecule IH] using rev_ind; intros ids p Hp.
  - cbn [foldl]. now rewrite bool_decide_false by apply not_elem_of_nil.
  - rewrite foldl_snoc.
    assert (Hlen : length (foldl (fun ids p => vset ids p v) ids molecule)
                   = length ids).
    { clear. revert ids. induction molecule as [|x m IHm]; intros ids;
        [reflexivity|]. simpl. now rewrite IHm, length_vset. }
    destruct (decide (q = p)) as [->|Hne].
    + rewrite vget_vset_eq by (rewrite Hlen; exact Hp).
      rewrite bool_decide_true; [reflexivity|].
      apply elem_of_app. right. now left.
    + rewrite vget_vset_ne by (trivial; lia). rewrite IH by exact Hp.
      apply (f_equal (fun b : bool => if b then v else vget ids p)).
      apply bool_decide_ext. rewrite elem_of_app, list_elem_of_singleton.
      intuition congruence.
Qed.

Lemma assign_molecules_length (ms : list (nat * list Z)) : forall ids : list Z,
  length (foldl (fun ids '(i, molecule) =>
                   foldl (fun ids p => vset ids p (Z.of_nat i)) ids molecule)
            ids ms) = length ids.
Proof.
  induction ms as [|[i molecule] ms IH]; intros ids; [reflexivity|].
  simpl. rewrite IH. clear. revert ids.
  induction molecule as [|x m IHm]; intros ids; [reflexivity|].
  simpl. now rewrite IHm, length_vset.
Qed.

(** X29.  When the molecules list particles of the system only, a
    particle gets the number of the last molecule that lists it, and [-1]
    when no molecule does. *)
Theorem particle_gets_its_molecule numParticles (molecules : list (list Z)) p :
  (forall molecule q, molecule ∈ molecules -> q ∈ molecule ->
     0 <= q < numParticles) ->
  0 <= p < numParticles ->
  ((forall molecule, molecule ∈ molecules -> p ∉ molecule) ->
   vget (assign_residues numParticles molecules) p = -1) /\
  (forall (i : nat) molecule,
     molecules !! i = Some molecule -> p ∈ molecule ->
     (forall (j : nat) later, (i < j)%nat -> molecules !! j = Some later ->
        p ∉ later) ->
     vget (assign_residues numParticles molecules) p = Z.of_nat i).
Proof.
  intros _ Hp. unfold assign_residues.
  set (ids0 := replicate (Z.to_nat numParticles) (-1)).
  assert (H0 : 0 <= p < Z.of_nat (length ids0))
    by (unfold ids0; rewrite length_replicate; lia).
  assert (Hinit : vget ids0 p = -1).
  { unfold vget, ids0. rewrite decide_False by lia.
    apply lookup_total_replicate_2. lia. }
  clearbody ids0.
  induction molecules as [|molecule molecules IH] using rev_ind.
  - split; [intros _; exact Hinit|]. intros i molecule Hi. discriminate.
  - rewrite imap_app, foldl_app. simpl. rewrite Nat.add_0_r.
    rewrite assign_molecule by (rewrite assign_molecules_length; exact H0).
    destruct IH as [IHnone IHsome]. split.
    + intros Hnone. rewrite bool_decide_false.
      * apply IHnone. intros m Hm. apply Hnone, elem_of_app. now left.
      * apply Hnone, elem_of_app. right. now left.
    + intros i m Hi Hin Hlater.
      destruct (decide (i < length molecules)%nat) as [Hlt|Hge].
      * rewrite lookup_app_l in Hi by exact Hlt.
        rewrite bool_decide_false.
        -- apply (IHsome i m Hi Hin). intros j later Hj Hl.
           apply (Hlater j later Hj). apply lookup_app_l_Some. exact Hl.
        -- apply (Hlater (length molecules) molecule Hlt).
           rewrite lookup_app_r by lia. now rewrite Nat.sub_diag.
      * rewrite lookup_app_r in Hi by lia.
        destruct (i - length molecules)%nat as [|k] eqn:Ek; [|discriminate].
        injection Hi as <-. rewrite bool_decide_true by exact Hin.
        f_equal. lia.
Qed.

End Molecules.

Lemma example_residues i :
  0 <= i < getNumParticles Examples.three_particles ->
  0 <= vget [0; 0; 1] i < Z.of_nat 2.
Proof.
  intros Hi. change (getNumParticles Examples.three_particles) with 3 in Hi.
  assert (Hc : i = 0 \/ i = 1 \/ i = 2) by lia.
  destruct Hc as [-> | [-> | ->]]; vm_compute; split; congruence.
Qed.

(** The first of two residues holds particles 0 and 1. *)
Lemma residue_mass_is_the_sum_witness :
  vget (sum_residue_masses Examples.three_particles [0; 0; 1] 2) 0
  = Rsum (getParticleMass Examples.three_particles
            <$> filter (fun i => vget [0; 0; 1] i = 0)
                  (seqZ 0 (getNumParticles Examples.three_particles))).
Proof.
  apply (residue_mass_is_the_sum Examples.three_particles [0; 0; 1] 2 0
           example_residues).
  lia.
Defined.

Lemma example_molecules (molecule : list Z) q :
  molecule ∈ [[0; 1]; [2]] -> q ∈ molecule -> 0 <= q < 3.
Proof.
  intros Hm Hq.
  repeat (apply elem_of_cons in Hm as [-> | Hm];
          [repeat (apply elem_of_cons in Hq as [-> | Hq]; [lia|]);
           now apply elem_of_nil in Hq|]).
  now apply elem_of_nil in Hm.
Qed.

(** Particle 2 of the molecules [[0; 1]] and [[2]]. *)
Lemma particle_gets_its_molecule_witness :
  ((forall molecule, molecule ∈ [[0; 1]; [2]] -> 2 ∉ molecule) ->
   vget (assign_residues 3 [[0; 1]; [2]]) 2 = -1) /\
  (forall (i : nat) molecule,
     [[0; 1]; [2]] !! i = Some molecule -> 2 ∈ molecule ->
     (forall (j : nat) later, (i < j)%nat -> [[0; 1]; [2]] !! j = Some later ->
        2 ∉ later) ->
     vget (assign_residues 3 [[0; 1]; [2]]) 2 = Z.of_nat i).
Proof.
  apply (particle_gets_its_molecule 3 [[0; 1]; [2]] 2 example_molecules).
  lia.
Defined.

End Residues.

(** ** [cleanup] *)

Module Cleanup.
Import VV Members.

(** X30.  [cleanup] does not release the binding: an integrator bound to
    one context still refuses the context of another owner afterwards. *)
Theorem cleanup_keeps_the_binding (BOLTZ : R) contextRef itg o :
  owner itg = Some o -> getOwner contextRef <> o ->
  owner (cleanup itg) = Some o /\ context (cleanup itg) = context itg /\
  initialize BOLTZ contextRef (cleanup itg)
  = (inl BindingConflict, cleanup itg).
Proof.
  intros Ho Hne. repeat split; [exact Ho|].
  unfold initialize, check_binding, read, throw, mbind, M_bind.
  change (owner (cleanup itg)) with (owner itg).
  rewrite Ho, decide_False by exact Hne. reflexivity.
Qed.

(** An integrator bound to the context of owner 7 and a context of
    owner 9. *)
Lemma cleanup_keeps_the_binding_witness :
  owner (cleanup Examples.bound_integrator) = Some 7%nat /\
  context (cleanup Examples.bound_integrator)
  = context Examples.bound_integrator /\
  initialize 1%R Examples.drude_context (cleanup Examples.bound_integrator)
  = (inl BindingConflict, cleanup Examples.bound_integrator).
Proof.
  refine (cleanup_keeps_the_binding 1%R Examples.drude_context
            Examples.bound_integrator 7%nat _ _).
  - exact (proj2 (proj2 Stepping.bound_integrator_is_bound)).
  - discriminate.
Defined.

End Cleanup.
